(** * Bar Assistant MCP server: cache manager and query-argument merge

    A shallow embedding of [CacheManager] (the recipe and search caches with
    lazy expiry and batch eviction) and of [QueryParser] (the pattern table,
    [parse] and [enhanceSearchArgs]), followed by the properties of the
    specification that concern them and by further properties of the code.

    Conventions of the embedding.
    - A JavaScript [Map] is an association list in insertion order with
      pairwise distinct keys ([Map_ok]); [Map.set] on a present key keeps the
      key's position, on an absent key appends.
    - [Date.now()] is an integer number of milliseconds; every method call
      takes the clock reading [now] as an argument, one reading per call.
    - [number] fields that only ever hold integers ([timestamp],
      [accessCount], [ttl], [maxSize]) are [Z], the range in which [number]
      arithmetic on integers is exact. The eviction score, a quotient, is
      the IEEE 754 binary64 value that the division rounds to (to nearest,
      ties to even), and so is the difference of two scores that the
      comparator returns; a finite binary64 value is held as its multiple
      of [2^-1074], the smallest positive one.
    - A thrown [TypeError] is the result [None].
    - The text that [parse] reads is the list of its code units, each below
      256; a pattern of the table is a term of [regex], run by a
      backtracking matcher with the priorities of the source's patterns. *)

From Stdlib Require Import ZArith Ascii Lia.
From stdpp Require Import base option list sorting gmap strings.

Local Open Scope Z_scope.

(** ** Insertion-ordered maps *)

Section JsMap.
Context {K V : Type} `{EqDecision K}.

(** [Map.prototype.get] *)
Fixpoint Map_get (k : K) (m : list (K * V)) : option V :=
  match m with
  | [] => None
  | (k', v) :: m' => if decide (k = k') then Some v else Map_get k m'
  end.

(** [Map.prototype.set]: the value of a present key is replaced where the
    key stands, a new key goes to the end. *)
Fixpoint Map_set (k : K) (v : V) (m : list (K * V)) : list (K * V) :=
  match m with
  | [] => [(k, v)]
  | (k', v') :: m' =>
      if decide (k = k') then (k', v) :: m' else (k', v') :: Map_set k v m'
  end.

(** [Map.prototype.delete] *)
Fixpoint Map_delete (k : K) (m : list (K * V)) : list (K * V) :=
  match m with
  | [] => []
  | (k', v') :: m' =>
      if decide (k = k') then m' else (k', v') :: Map_delete k m'
  end.

(** Mutation of the object stored under [k], as in [cached.accessCount++]
    on the result of [cache.get(k)]. *)
Fixpoint Map_mutate (k : K) (f : V → V) (m : list (K * V)) : list (K * V) :=
  match m with
  | [] => []
  | (k', v') :: m' =>
      if decide (k = k') then (k', f v') :: m' else (k', v') :: Map_mutate k f m'
  end.

(** [Map.prototype.size] *)
Definition Map_size (m : list (K * V)) : Z := Z.of_nat (length m).

Definition Map_keys (m : list (K * V)) : list K := m.*1.

(** The representation invariant of a [Map]: no key occurs twice. *)
Definition Map_ok (m : list (K * V)) : Prop := NoDup (Map_keys m).
End JsMap.

(** ** Cache entries and eviction scores *)

Record CacheEntry (T : Type) : Type := mkEntry {
  data : T;
  timestamp : Z;
  accessCount : Z
}.
Arguments mkEntry {T} _ _ _.
Arguments data {T} _.
Arguments timestamp {T} _.
Arguments accessCount {T} _.

(** [cached.accessCount++] *)
Definition bump {T} (e : CacheEntry T) : CacheEntry T :=
  mkEntry (data e) (timestamp e) (accessCount e + 1).

(** A [number] that results from dividing an integer by an integer, or from
    subtracting two such quotients: an IEEE 754 binary64 value. Every finite
    binary64 value is an integer multiple of [2^-1074]; [Fin k] is the value
    [k * 2^-1074]. The sign of a zero is not kept: the comparator subtracts
    scores and [sort] reads the sign of the difference only. *)
Inductive Num : Type :=
  | NaN
  | NegInf
  | Fin (k : Z)
  | PosInf.

(** The integer nearest to [p / q] for [0 < q], the even one of two that are
    equally near. *)
Definition rne (p q : Z) : Z :=
  let f := p / q in
  match 2 * (p mod q) ?= q with
  | Lt => f
  | Gt => f + 1
  | Eq => if Z.even f then f else f + 1
  end.

(** A binary64 value has 53 significant bits. In units of [2^-1074], a value
    with integer part [n] is rounded to a multiple of [2 ^ shift n]: to an
    integer below [2^53] (the subnormal values and the first binade of the
    normal ones), to an even integer from [2^53] to [2^54], and so on. *)
Definition shift (n : Z) : Z := Z.max 0 (Z.log2 n - 52).

(** [p / q] units, [0 <= p] and [0 < q], rounded to nearest with ties to
    even, before the test for overflow. *)
Definition round_val (p q : Z) : Z :=
  let s := shift (p / q) in
  rne p (q * 2 ^ s) * 2 ^ s.

(** A rounded value of [2^1024] or more, which is [2^2098] units, is
    [Infinity]. *)
Definition round_pos (p q : Z) : Num :=
  let k := round_val p q in
  if k <? 2 ^ 2098 then Fin k else PosInf.

(** [-v] *)
Definition num_neg (v : Num) : Num :=
  match v with
  | NaN => NaN
  | NegInf => PosInf
  | Fin k => Fin (- k)
  | PosInf => NegInf
  end.

(** The binary64 value nearest to [p / q] units, [q] not zero. Rounding to
    nearest is symmetric about zero. *)
Definition round64 (p q : Z) : Num :=
  let r := round_pos (Z.abs p) (Z.abs q) in
  if xorb (p <? 0) (q <? 0) then num_neg r else r.

(** [x / y] on integers [x], [y]: the quotient is [x * 2^1074 / y] units. *)
Definition num_div (x y : Z) : Num :=
  if y =? 0 then
    match x ?= 0 with
    | Gt => PosInf
    | Lt => NegInf
    | Eq => NaN
    end
  else round64 (x * 2 ^ 1074) y.

(** [a - b] *)
Definition num_sub (a b : Num) : Num :=
  match a, b with
  | NaN, _ | _, NaN => NaN
  | PosInf, PosInf => NaN
  | NegInf, NegInf => NaN
  | PosInf, _ => PosInf
  | _, PosInf => NegInf
  | NegInf, _ => NegInf
  | _, NegInf => PosInf
  | Fin p, Fin q => round64 (p - q) 1
  end.

(** How [Array.prototype.sort] reads the result of its comparator: negative
    puts the first argument first, positive the second, and zero or NaN
    leaves the two in their relative order. *)
Definition num_sign (v : Num) : comparison :=
  match v with
  | NaN => Eq
  | NegInf => Lt
  | PosInf => Gt
  | Fin k => k ?= 0
  end.

(** [accessCount / (Date.now() - timestamp)] *)
Definition score {T} (now : Z) (e : CacheEntry T) : Num :=
  num_div (accessCount e) (now - timestamp e).

(** The comparator passed to [entries.sort]. *)
Definition compareFn {K T} (now : Z) (a b : K * CacheEntry T) : comparison :=
  let scoreA := score now a.2 in
  let scoreB := score now b.2 in
  num_sign (num_sub scoreA scoreB).

(** [Array.prototype.sort]: a stable sort (ECMAScript 2019), here by
    insertion from the right. An element goes behind the elements that the
    comparator puts strictly before it and in front of all others, so that
    elements the comparator does not separate keep their order. *)
Section Sort.
Context {A : Type} (cmp : A → A → comparison).

Fixpoint sort_insert (x : A) (l : list A) : list A :=
  match l with
  | [] => [x]
  | y :: l' =>
      match cmp y x with
      | Lt => y :: sort_insert x l'
      | _ => x :: y :: l'
      end
  end.

Fixpoint Array_sort (l : list A) : list A :=
  match l with
  | [] => []
  | x :: l' => sort_insert x (Array_sort l')
  end.
End Sort.

(** Every stored entry has been counted at least once: [set] stores
    [accessCount: 1] and [get] only increments. *)
Definition entries_ok {K T} (cache : list (K * CacheEntry T)) : Prop :=
  Forall (λ p, 1 ≤ accessCount p.2) cache.

(** ** The cache manager *)

Section CacheManager.
(** [DetailedRecipe] and [MCPResponse] are opaque payloads. *)
Context {DetailedRecipe MCPResponse : Type}.

(** The constructor's [options] object; [None] is an omitted property. *)
Record Options : Type := mkOptions {
  ttl : option Z;
  maxSize : option Z
}.

(** [x || d] for an optional number [x]: [undefined] and [0] are falsy. *)
Definition num_or (x : option Z) (d : Z) : Z :=
  match x with
  | Some v => if v =? 0 then d else v
  | None => d
  end.

Record CacheManager : Type := mkCacheManager {
  recipeCache : list (Z * CacheEntry DetailedRecipe);
  searchCache : list (string * CacheEntry MCPResponse);
  cacheExpiry : Z;
  maxCacheSize : Z
}.

Definition constructor (options : Options) : CacheManager :=
  {| recipeCache := [];
     searchCache := [];
     cacheExpiry := num_or (ttl options) (5 * 60 * 1000);
     maxCacheSize := num_or (maxSize options) 1000 |}.

Definition with_recipeCache (c : CacheManager) m : CacheManager :=
  {| recipeCache := m; searchCache := searchCache c;
     cacheExpiry := cacheExpiry c; maxCacheSize := maxCacheSize c |}.

Definition with_searchCache (c : CacheManager) m : CacheManager :=
  {| recipeCache := recipeCache c; searchCache := m;
     cacheExpiry := cacheExpiry c; maxCacheSize := maxCacheSize c |}.

Section Collection.
Context {K T : Type} `{EqDecision K}.

(** [isValid]: [Date.now() - entry.timestamp < this.cacheExpiry] *)
Definition isValid (expiry now : Z) (entry : CacheEntry T) : bool :=
  now - timestamp entry <? expiry.

(** The body shared by [getCachedRecipe] and [getCachedSearch]: the
    returned value ([None] for [null]) and the collection afterwards. *)
Definition getCached (expiry now : Z) (k : K)
    (cache : list (K * CacheEntry T)) : option T * list (K * CacheEntry T) :=
  match Map_get k cache with
  | Some cached =>
      if isValid expiry now cached
      then (Some (data cached), Map_mutate k bump cache)
      else (None, Map_delete k cache)
  | None => (None, cache)
  end.

(** [Math.floor(this.maxCacheSize * 0.25)] *)
Definition toRemove (maxSz : Z) : Z := maxSz / 4.

(** [for (let i = 0; i < toRemove; i++) cache.delete(entries[i][0])];
    reading [entries[i][0]] past the end of [entries] throws. *)
Fixpoint evictLoop (entries : list (K * CacheEntry T)) (i n : nat)
    (cache : list (K * CacheEntry T)) : option (list (K * CacheEntry T)) :=
  match n with
  | O => Some cache
  | S n' =>
      match entries !! i with
      | Some e => evictLoop entries (S i) n' (Map_delete e.1 cache)
      | None => None
      end
  end.

Definition evictIfNeeded (maxSz now : Z)
    (cache : list (K * CacheEntry T)) : option (list (K * CacheEntry T)) :=
  if Map_size cache >=? maxSz then
    let entries := Array_sort (compareFn now) cache in
    evictLoop entries 0 (Z.to_nat (toRemove maxSz)) cache
  else Some cache.

(** The body shared by [setCachedRecipe] and [setCachedSearch]. *)
Definition setCached (maxSz now : Z) (k : K) (d : T)
    (cache : list (K * CacheEntry T)) : option (list (K * CacheEntry T)) :=
  cache' ← evictIfNeeded maxSz now cache;
  Some (Map_set k (mkEntry d now 1) cache').
End Collection.

Definition getCachedRecipe (c : CacheManager) (now : Z) (id : Z)
    : option DetailedRecipe * CacheManager :=
  let '(r, m) := getCached (cacheExpiry c) now id (recipeCache c) in
  (r, with_recipeCache c m).

Definition setCachedRecipe (c : CacheManager) (now : Z) (id : Z)
    (d : DetailedRecipe) : option CacheManager :=
  with_recipeCache c <$> setCached (maxCacheSize c) now id d (recipeCache c).

Definition getCachedSearch (c : CacheManager) (now : Z) (query : string)
    : option MCPResponse * CacheManager :=
  let '(r, m) := getCached (cacheExpiry c) now query (searchCache c) in
  (r, with_searchCache c m).

Definition setCachedSearch (c : CacheManager) (now : Z) (query : string)
    (d : MCPResponse) : option CacheManager :=
  with_searchCache c <$> setCached (maxCacheSize c) now query d (searchCache c).

Record Stats : Type := mkStats {
  recipeCacheSize : Z;
  searchCacheSize : Z;
  recipeCacheHits : Z;
  searchCacheHits : Z
}.

(** [Array.from(cache.values()).reduce((sum, e) => sum + e.accessCount, 0)] *)
Definition hits {K T} (cache : list (K * CacheEntry T)) : Z :=
  foldl (λ sum entry, sum + accessCount entry) 0 cache.*2.

Definition getStats (c : CacheManager) : Stats :=
  {| recipeCacheSize := Map_size (recipeCache c);
     searchCacheSize := Map_size (searchCache c);
     recipeCacheHits := hits (recipeCache c);
     searchCacheHits := hits (searchCache c) |}.

Definition clear (c : CacheManager) : CacheManager :=
  {| recipeCache := []; searchCache := [];
     cacheExpiry := cacheExpiry c; maxCacheSize := maxCacheSize c |}.

(** *** Sequences of calls *)

Inductive Call : Type :=
  | GetRecipe (id : Z)
  | SetRecipe (id : Z) (d : DetailedRecipe)
  | GetSearch (query : string)
  | SetSearch (query : string) (d : MCPResponse)
  | GetStats
  | Clear.

(** One call at clock reading [now]. *)
Definition call (c : CacheManager) (now : Z) (op : Call) : option CacheManager :=
  match op with
  | GetRecipe id => Some (getCachedRecipe c now id).2
  | SetRecipe id d => setCachedRecipe c now id d
  | GetSearch q => Some (getCachedSearch c now q).2
  | SetSearch q d => setCachedSearch c now q d
  | GetStats => Some c
  | Clear => Some (clear c)
  end.

Fixpoint calls (c : CacheManager) (ops : list (Z * Call)) : option CacheManager :=
  match ops with
  | [] => Some c
  | (now, op) :: ops' => c' ← call c now op; calls c' ops'
  end.

(** [getCachedRecipe(id)] once at each clock reading of [nows]: the
    returned values and the manager afterwards. *)
Fixpoint getCachedRecipes (c : CacheManager) (id : Z) (nows : list Z)
    : list (option DetailedRecipe) * CacheManager :=
  match nows with
  | [] => ([], c)
  | now :: nows' =>
      let '(r, c') := getCachedRecipe c now id in
      let '(rs, c'') := getCachedRecipes c' id nows' in
      (r :: rs, c'')
  end.

(** [getCachedSearch(query)] once at each clock reading of [nows]. *)
Fixpoint getCachedSearches (c : CacheManager) (query : string) (nows : list Z)
    : list (option MCPResponse) * CacheManager :=
  match nows with
  | [] => ([], c)
  | now :: nows' =>
      let '(r, c') := getCachedSearch c now query in
      let '(rs, c'') := getCachedSearches c' query nows' in
      (r :: rs, c'')
  end.

(** The representation invariant of a manager. *)
Definition manager_ok (c : CacheManager) : Prop :=
  Map_ok (recipeCache c) ∧ entries_ok (recipeCache c) ∧
  Map_ok (searchCache c) ∧ entries_ok (searchCache c).
End CacheManager.

Arguments CacheManager : clear implicits.
Arguments Call : clear implicits.

(** ** Query parser: merging parsed facets into search arguments *)

(** The JavaScript values that a search-argument property can hold. *)
#[warnings="-register-all"]
Inductive value : Type :=
  | VUndefined
  | VNull
  | VBool (b : bool)
  | VNum (n : Z)
  | VStr (s : string)
  | VArr (l : list value).

(** [ParsedQuery]; the literal-union fields are strings at run time. *)
Record ParsedQuery : Type := mkParsedQuery {
  strength : option string;
  flavors : list string;
  spirit : option string;
  glass : option string;
  excludes : list string;
  ingredients : list string;
  method : option string;
  difficulty : option string;
  mood : option string;
  occasion : option string
}.

(** ToBoolean *)
Definition truthy (v : value) : bool :=
  match v with
  | VUndefined | VNull => false
  | VBool b => b
  | VNum n => negb (n =? 0)
  | VStr s => negb (String.eqb s "")
  | VArr _ => true
  end.

(** [a || b] *)
Definition js_or (a b : value) : value := if truthy a then a else b.

(** [obj.name]: a missing property reads as [undefined]. *)
Definition prop (obj : gmap string value) (name : string) : value :=
  default VUndefined (obj !! name).

(** An optional string field of [ParsedQuery] read as a value. *)
Definition opt_str (o : option string) : value :=
  match o with
  | Some s => VStr s
  | None => VUndefined
  end.

(** A [string[]] field of [ParsedQuery] read as a value. *)
Definition str_arr (l : list string) : value := VArr (VStr <$> l).

(** [...v] inside an array literal: arrays and strings are iterable, a
    string by character; spreading any other value throws. *)
Definition spread (v : value) : option (list value) :=
  match v with
  | VArr l => Some l
  | VStr s => Some ((λ a, VStr (String a EmptyString)) <$> String.list_ascii_of_string s)
  | _ => None
  end.

Definition enhanceSearchArgs (args : gmap string value) (parsedQuery : ParsedQuery)
    : option (gmap string value) :=
  let enhanced := args in
  (* Apply strength preference *)
  let enhanced :=
    if truthy (opt_str (strength parsedQuery))
       && negb (truthy (prop args "preferred_strength"))
    then <["preferred_strength" := opt_str (strength parsedQuery)]> enhanced
    else enhanced in
  (* Apply flavor preferences *)
  let enhanced :=
    if (0 <? length (flavors parsedQuery))%nat
       && negb (truthy (prop args "preferred_flavors"))
    then <["preferred_flavors" := str_arr (flavors parsedQuery)]> enhanced
    else enhanced in
  (* Add ingredients to must_include *)
  enhanced ←
    (if (0 <? length (ingredients parsedQuery))%nat
     then own ← spread (js_or (prop args "must_include") (VArr []));
          Some (<["must_include" := VArr (own ++ (VStr <$> ingredients parsedQuery))]> enhanced)
     else Some enhanced);
  (* Add exclusions *)
  enhanced ←
    (if (0 <? length (excludes parsedQuery))%nat
     then own ← spread (js_or (prop args "must_exclude") (VArr []));
          Some (<["must_exclude" := VArr (own ++ (VStr <$> excludes parsedQuery))]> enhanced)
     else Some enhanced);
  (* Apply glass preference *)
  let enhanced :=
    if truthy (opt_str (glass parsedQuery))
       && negb (truthy (prop args "glass_type"))
    then <["glass_type" := opt_str (glass parsedQuery)]> enhanced
    else enhanced in
  (* Apply method preference *)
  let enhanced :=
    if truthy (opt_str (method parsedQuery))
       && negb (truthy (prop args "preparation_method"))
    then <["preparation_method" := opt_str (method parsedQuery)]> enhanced
    else enhanced in
  Some enhanced.

(** ** Query parser: the pattern table and [parse]

    A string is the list of its code units, each below 256. *)

(** *** Characters *)

Definition code (c : ascii) : N := N_of_ascii c.

Definition in_range (lo hi : N) (c : ascii) : bool :=
  ((lo <=? code c) && (code c <=? hi))%N.

(** [A-Z], also the letters that [\w] and [toLowerCase] know as upper case. *)
Definition is_upper (c : ascii) : bool := in_range 65 90 c.
Definition is_lower (c : ascii) : bool := in_range 97 122 c.
Definition is_digit (c : ascii) : bool := in_range 48 57 c.
Definition is_letter (c : ascii) : bool := is_upper c || is_lower c.

(** [\w] *)
Definition is_word (c : ascii) : bool :=
  is_upper c || is_lower c || is_digit c || (code c =? 95)%N.

(** [\s]: tab, line feed, vertical tab, form feed, carriage return, space
    and no-break space. *)
Definition is_space (c : ascii) : bool :=
  in_range 9 13 c || (code c =? 32)%N || (code c =? 160)%N.

(** [[\s-]] *)
Definition is_sep (c : ascii) : bool := is_space c || (code c =? 45)%N.

(** [toLowerCase] of one code unit: [A-Z] and the upper-case letters of
    Latin-1 ([À]-[Þ] without the multiplication sign). The texts of this
    file hold code units below 256 only; of the code units from 256 on,
    U+212A and U+0130 are the ones that [toLowerCase] takes to letters of
    [a-z], which the patterns with the [i] flag do not do. *)
Definition toLowerChar (c : ascii) : ascii :=
  if is_upper c || (in_range 192 222 c && negb (code c =? 215)%N)
  then ascii_of_N (code c + 32)
  else c.

(** [String.prototype.toLowerCase] *)
Definition toLowerCase (s : list ascii) : list ascii := toLowerChar <$> s.

(** A pattern character against a text character under the [i] flag. *)
Definition lit_match (c ch : ascii) : bool :=
  bool_decide (toLowerChar ch = toLowerChar c).

(** *** Regular expressions *)

Inductive regex : Type :=
  | REmpty
  | RNever
  | RChar (c : ascii)
  | RClass (f : ascii → bool)
  | RSeq (r1 r2 : regex)
  | RAlt (r1 r2 : regex)
  | ROpt (r : regex)
  | RPlus (f : ascii → bool)
  | RBoundary.

(** The word-character test of [\b] on a position: no character counts
    as a non-word character. *)
Definition is_word_at (o : option ascii) : bool :=
  match o with
  | Some c => is_word c
  | None => false
  end.

(** [class+], greedy: one more character first, the continuation after. *)
Fixpoint plus_k {A} (f : ascii → bool) (s : list ascii)
    (k : option ascii → list ascii → option A) : option A :=
  match s with
  | c :: s' =>
      if f c then
        match plus_k f s' k with
        | Some x => Some x
        | None => k (Some c) s'
        end
      else None
  | [] => None
  end.

(** The backtracking matcher: [run r prev s k] matches [r] at the head of
    [s], where [prev] is the character before, and hands the position after
    the match to the continuation [k]; the first success in priority order
    (left alternative first, longer repetition first) is the result. *)
Fixpoint run {A} (r : regex) (prev : option ascii) (s : list ascii)
    (k : option ascii → list ascii → option A) : option A :=
  match r with
  | REmpty => k prev s
  | RNever => None
  | RChar c =>
      match s with
      | ch :: s' => if lit_match c ch then k (Some ch) s' else None
      | [] => None
      end
  | RClass f =>
      match s with
      | ch :: s' => if f ch then k (Some ch) s' else None
      | [] => None
      end
  | RSeq r1 r2 => run r1 prev s (λ prev' s', run r2 prev' s' k)
  | RAlt r1 r2 =>
      match run r1 prev s k with
      | Some x => Some x
      | None => run r2 prev s k
      end
  | ROpt r' =>
      match run r' prev s k with
      | Some x => Some x
      | None => k prev s
      end
  | RPlus f => plus_k f s k
  | RBoundary =>
      if xorb (is_word_at prev) (is_word_at (head s)) then k prev s else None
  end.

(** A match of [r] at the head of [s]: its length and its text. *)
Definition exec_at (r : regex) (prev : option ascii) (s : list ascii)
    : option (nat * list ascii) :=
  run r prev s (λ _ s', let n := (length s - length s')%nat in Some (n, take n s)).

(** A match of [pre(grp)] at the head of [s]: the length of the whole match
    and the text of the group. *)
Definition exec_group_at (pre grp : regex) (prev : option ascii) (s : list ascii)
    : option (nat * list ascii) :=
  run pre prev s (λ prev1 s1,
    run grp prev1 s1 (λ _ s2,
      Some ((length s - length s2)%nat, take (length s1 - length s2) s1))).

(** The search of [RegExp.prototype.test] (no [g] flag): the first
    position, from the left, at which the pattern matches. *)
Fixpoint search {A} (try : option ascii → list ascii → option A)
    (prev : option ascii) (s : list ascii) : option A :=
  match try prev s with
  | Some x => Some x
  | None =>
      match s with
      | c :: s' => search try (Some c) s'
      | [] => None
      end
  end.

Definition test (r : regex) (s : list ascii) : bool :=
  bool_decide (is_Some (search (exec_at r) None s)).

(** The matches of a [g] pattern, as [String.prototype.match] and
    [matchAll] find them: leftmost first, each search resuming where the
    last match ended, one character further after an empty match. [skip]
    counts the characters still covered by the last match. *)
Fixpoint match_all {M} (try : option ascii → list ascii → option (nat * M))
    (skip : nat) (prev : option ascii) (s : list ascii) {struct s} : list M :=
  match skip with
  | S n =>
      match s with
      | c :: s' => match_all try n (Some c) s'
      | [] => []
      end
  | O =>
      match try prev s with
      | Some (len, m) =>
          m :: match s with
               | c :: s' => match_all try (pred len) (Some c) s'
               | [] => []
               end
      | None =>
          match s with
          | c :: s' => match_all try 0 (Some c) s'
          | [] => []
          end
      end
  end.

(** [.replace(/[\s-]+/g, ' ')]: every maximal run of separators becomes one
    space; [in_run] tells that the run has begun. *)
Fixpoint collapse (in_run : bool) (s : list ascii) : list ascii :=
  match s with
  | [] => []
  | c :: s' =>
      if is_sep c
      then if in_run then collapse true s' else " "%char :: collapse true s'
      else c :: collapse false s'
  end.

(** *** The pattern table *)

Definition chars (w : string) : list ascii := String.list_ascii_of_string w.

(** The characters of [w] in sequence. *)
Definition lit (w : string) : regex :=
  foldr (λ c r, RSeq (RChar c) r) REmpty (chars w).

(** [w1[\s-]?w2[\s-]?...] *)
Fixpoint phrase (ws : list string) : regex :=
  match ws with
  | [] => REmpty
  | [w] => lit w
  | w :: ws' => RSeq (lit w) (RSeq (ROpt (RClass is_sep)) (phrase ws'))
  end.

(** [r1|r2|...] *)
Fixpoint alts (rs : list regex) : regex :=
  match rs with
  | [] => RNever
  | [r] => r
  | r :: rs' => RAlt r (alts rs')
  end.

(** [\b(phrase1|phrase2|...)\b] *)
Definition keywords (kw : list (list string)) : regex :=
  RSeq RBoundary (RSeq (alts (phrase <$> kw)) RBoundary).

Definition strength_keywords : list (string * list (list string)) :=
  [("light", [["light"]; ["weak"]; ["low"; "alcohol"]; ["session"];
              ["easy"; "drinking"]; ["mild"]]);
   ("medium", [["medium"]; ["moderate"]; ["balanced"]; ["standard"]]);
   ("strong", [["strong"]; ["potent"]; ["boozy"]; ["high"; "proof"]; ["stiff"];
               ["powerful"]])].

Definition flavors_keywords : list (string * list (list string)) :=
  [("bitter", [["bitter"]; ["amaro"]; ["campari"]; ["aperol"]; ["negroni"; "like"]]);
   ("sweet", [["sweet"]; ["dessert"]; ["candy"]; ["sugar"]; ["syrup"]; ["honey"]]);
   ("sour", [["sour"]; ["tart"]; ["acidic"]; ["citrus"]; ["lime"]; ["lemon"]]);
   ("dry", [["dry"]; ["bone"; "dry"]; ["crisp"]; ["clean"]]);
   ("herbal", [["herbal"]; ["botanical"]; ["green"]; ["earthy"]; ["sage"];
               ["rosemary"]]);
   ("fruity", [["fruity"]; ["tropical"]; ["berry"]; ["apple"]; ["pear"];
               ["stone"; "fruit"]]);
   ("spicy", [["spicy"]; ["hot"]; ["pepper"]; ["ginger"]; ["cinnamon"]; ["warming"]]);
   ("smoky", [["smoky"]; ["peated"]; ["mezcal"]; ["smokey"]; ["charred"]]);
   ("refreshing", [["refreshing"]; ["cooling"]; ["crisp"]; ["bright"]; ["zesty"]]);
   ("rich", [["rich"]; ["decadent"]; ["creamy"]; ["luxurious"]; ["indulgent"]])].

Definition spirits_keywords : list (string * list (list string)) :=
  [("gin", [["gin"]; ["juniper"]; ["botanical"]; ["london"; "dry"]]);
   ("whiskey", [["whiskey"]; ["whisky"]; ["bourbon"]; ["rye"]; ["scotch"]; ["irish"];
                ["japanese"]]);
   ("rum", [["rum"]; ["rhum"]; ["cachaca"]; ["sugarcane"]]);
   ("vodka", [["vodka"]; ["potato"]; ["grain"; "spirit"]]);
   ("tequila", [["tequila"]; ["agave"]; ["mezcal"]; ["blanco"]; ["reposado"]]);
   ("brandy", [["brandy"]; ["cognac"]; ["armagnac"]; ["grape"; "spirit"]])].

Definition glass_keywords : list (string * list (list string)) :=
  [("martini", [["martini"]; ["cocktail"; "glass"]; ["up"]]);
   ("rocks", [["rocks"]; ["old"; "fashioned"]; ["lowball"]; ["on"; "the"; "rocks"]]);
   ("coupe", [["coupe"]; ["champagne"; "coupe"]]);
   ("highball", [["highball"]; ["collins"]; ["tall"; "glass"]]);
   ("nick", [["nick"; "and"; "nora"]; ["small"; "coupe"]])].

Definition methods_keywords : list (string * list (list string)) :=
  [("shake", [["shake"]; ["shaken"]; ["vigorous"]]);
   ("stir", [["stir"]; ["stirred"]; ["gentle"]; ["elegant"]]);
   ("build", [["build"]; ["built"]; ["simple"]; ["easy"]]);
   ("muddle", [["muddle"]; ["muddled"]; ["crush"]; ["fresh"]])].

Definition difficulty_keywords : list (string * list (list string)) :=
  [("easy", [["easy"]; ["simple"]; ["basic"]; ["quick"]; ["beginner"]]);
   ("medium", [["medium"]; ["intermediate"]; ["moderate"]]);
   ("hard", [["hard"]; ["complex"]; ["advanced"]; ["challenging"]; ["craft"]])].

Definition mood_keywords : list (string * list (list string)) :=
  [("romantic", [["romantic"]; ["date"]; ["intimate"]; ["elegant"]]);
   ("party", [["party"]; ["crowd"]; ["celebration"]; ["fun"]; ["festive"]]);
   ("relaxing", [["relaxing"]; ["chill"]; ["unwind"]; ["calm"]; ["peaceful"]]);
   ("sophisticated", [["sophisticated"]; ["classy"]; ["upscale"]; ["refined"]])].

Definition occasion_keywords : list (string * list (list string)) :=
  [("dinner", [["dinner"]; ["meal"]; ["food"]; ["pairing"]]);
   ("brunch", [["brunch"]; ["morning"]; ["breakfast"]; ["daytime"]]);
   ("nightcap", [["nightcap"]; ["bedtime"]; ["digestif"]; ["after"; "dinner"]]);
   ("summer", [["summer"]; ["hot"]; ["beach"]; ["poolside"]; ["warm"; "weather"]]);
   ("winter", [["winter"]; ["cold"]; ["holiday"]; ["warming"]; ["cozy"]])].

Definition ingredients_keywords : list (list string) :=
  [["campari"]; ["aperol"]; ["vermouth"]; ["bitters"]; ["cointreau"];
   ["triple"; "sec"]; ["chartreuse"]; ["benedictine"]; ["maraschino"];
   ["elderflower"]; ["st"; "germain"]].

(** [\b(without|no|avoid|except|not|skip|minus)\s+], the part of the
    exclusion pattern before its second group. *)
Definition exclude_intro : regex :=
  RSeq RBoundary
    (RSeq (alts (lit <$> ["without"; "no"; "avoid"; "except"; "not"; "skip"; "minus"]))
          (RPlus is_space)).

(** [\w+(?:\s+\w+)?], the second group of the exclusion pattern. *)
Definition exclude_term : regex :=
  RSeq (RPlus is_word) (ROpt (RSeq (RPlus is_space) (RPlus is_word))).

(** *** [parse] *)

(** The loop over a single-valued category: the tag of the first pattern
    that [test]s true. *)
Fixpoint first_match (table : list (string * list (list string)))
    (s : list ascii) : option string :=
  match table with
  | [] => None
  | (tag, kw) :: table' =>
      if test (keywords kw) s then Some tag else first_match table' s
  end.

(** The loop over the flavor category: each tag whose pattern has a match. *)
Fixpoint all_matches (table : list (string * list (list string)))
    (s : list ascii) : list string :=
  match table with
  | [] => []
  | (tag, kw) :: table' =>
      match match_all (exec_at (keywords kw)) 0 None s with
      | [] => all_matches table' s
      | _ :: _ => tag :: all_matches table' s
      end
  end.

Definition parse (query : string) : ParsedQuery :=
  let query := chars query in
  let lowerQuery := toLowerCase query in
  {| strength := first_match strength_keywords lowerQuery;
     flavors := all_matches flavors_keywords query;
     spirit := first_match spirits_keywords lowerQuery;
     glass := first_match glass_keywords lowerQuery;
     method := first_match methods_keywords lowerQuery;
     difficulty := first_match difficulty_keywords lowerQuery;
     mood := first_match mood_keywords lowerQuery;
     occasion := first_match occasion_keywords lowerQuery;
     excludes :=
       (λ m, String.string_of_list_ascii (toLowerCase m))
         <$> match_all (exec_group_at exclude_intro exclude_term) 0 None query;
     ingredients :=
       (λ m, String.string_of_list_ascii (collapse false (toLowerCase m)))
         <$> match_all (exec_at (keywords ingredients_keywords)) 0 None query |}.

(** ** Vocabulary of the statements *)

(** The order of scores: [-Infinity] below every finite value, [Infinity]
    above; NaN is not comparable. *)
Definition num_le (a b : Num) : Prop :=
  match a, b with
  | NaN, _ | _, NaN => False
  | NegInf, _ => True
  | _, PosInf => True
  | Fin p, Fin q => p ≤ q
  | _, _ => False
  end.


(** Scores of entries counted at least once: anything but NaN. *)
Definition num_proper (a : Num) : Prop :=
  match a with
  | NaN => False
  | _ => True
  end.

(** The first [n] entries in ascending score order at [now]: what an
    eviction of [n] entries takes. *)
Definition coldest {K T} (n : nat) (now : Z) (cache : list (K * CacheEntry T))
    : list (K * CacheEntry T) :=
  take n (Array_sort (compareFn now) cache).

(** [cache.delete] of each key of [rs] in turn. *)
Definition delete_all {K V} `{EqDecision K} (rs m : list (K * V)) : list (K * V) :=
  foldl (λ c e, Map_delete e.1 c) m rs.

(** The four output fields that [enhanceSearchArgs] fills from a parsed
    facet when the caller's value is falsy, with the value it writes. *)
Definition filled_fields (parsedQuery : ParsedQuery) : list (string * value) :=
  [("preferred_strength", opt_str (strength parsedQuery));
   ("preferred_flavors", str_arr (flavors parsedQuery));
   ("glass_type", opt_str (glass parsedQuery));
   ("preparation_method", opt_str (method parsedQuery))].

(** All output fields that [enhanceSearchArgs] may write. *)
Definition written_fields : list string :=
  ["preferred_strength"; "preferred_flavors"; "must_include"; "must_exclude";
   "glass_type"; "preparation_method"].

(** [own || []] can be spread: [own] is falsy, an array or a string. *)
Definition spreadable (own : value) : Prop :=
  is_Some (spread (js_or own (VArr []))).

(** ** Vocabulary of the statements about patterns *)

(** The character before the position that follows the text [m]. *)
Definition prev_after (prev : option ascii) (m : list ascii) : option ascii :=
  match last m with
  | Some c => Some c
  | None => prev
  end.

(** [matches r prev m s]: the pattern [r] matches the text [m] when [prev]
    is the character before [m] and [s] is the text after it. *)
Fixpoint matches (r : regex) (prev : option ascii) (m s : list ascii) : Prop :=
  match r with
  | REmpty => m = []
  | RNever => False
  | RChar c => ∃ ch, m = [ch] ∧ lit_match c ch = true
  | RClass f => ∃ ch, m = [ch] ∧ f ch = true
  | RSeq r1 r2 =>
      ∃ m1 m2, m = m1 ++ m2 ∧ matches r1 prev m1 (m2 ++ s) ∧
               matches r2 (prev_after prev m1) m2 s
  | RAlt r1 r2 => matches r1 prev m s ∨ matches r2 prev m s
  | ROpt r' => m = [] ∨ matches r' prev m s
  | RPlus f => m ≠ [] ∧ Forall (λ c, f c = true) m
  | RBoundary => m = [] ∧ xorb (is_word_at prev) (is_word_at (head s)) = true
  end.

(** Every class of the pattern treats a character and its lower-case form
    alike. *)
Fixpoint case_blind (r : regex) : Prop :=
  match r with
  | RClass f | RPlus f => ∀ c, f (toLowerChar c) = f c
  | RSeq r1 r2 | RAlt r1 r2 => case_blind r1 ∧ case_blind r2
  | ROpt r' => case_blind r'
  | _ => True
  end.

(** Every match of the pattern contains a letter. *)
Fixpoint needs_letter (r : regex) : bool :=
  match r with
  | RNever => true
  | RChar c => is_letter c
  | RSeq r1 r2 => needs_letter r1 || needs_letter r2
  | RAlt r1 r2 => needs_letter r1 && needs_letter r2
  | _ => false
  end.

(** What [collapse] makes of the lower-cased matches of [phrase ws]: the
    words joined directly or by one space. *)
Fixpoint phrase_forms (ws : list string) : list (list ascii) :=
  match ws with
  | [] => [[]]
  | [w] => [chars w]
  | w :: ws' =>
      f ← phrase_forms ws';
      [chars w ++ f; chars w ++ " "%char :: f]
  end.

(** A keyword as the table writes it: not empty, lower-case letters only. *)
Definition plain_word (w : string) : bool :=
  match chars w with
  | [] => false
  | cs => forallb is_lower cs
  end.

(** The parse of a text that matches nothing. *)
Definition no_facets : ParsedQuery :=
  mkParsedQuery None [] None None [] [] None None None None.

(** A code unit with the case of the letters [A-Z] taken away: an upper-case
    letter of [A-Z] becomes its lower-case letter, and every other code unit
    stays as it is. Two texts with the same image differ in the case of
    letters [A-Z] at most. *)
Definition lower_AZ (c : ascii) : ascii :=
  if is_upper c then ascii_of_N (code c + 32) else c.

(** A value that [...] can spread: a string or an array. *)
Definition iterable (v : value) : bool :=
  match v with
  | VStr _ | VArr _ => true
  | _ => false
  end.

(** ** Sample data *)

(** A manager at capacity: four recipes, one search, a TTL of one second. *)
Definition demo : CacheManager string string :=
  {| recipeCache := [(1, mkEntry "Negroni" 100 3); (2, mkEntry "Daiquiri" 200 1);
                     (3, mkEntry "Mojito" 250 2); (4, mkEntry "Martini" 300 1)];
     searchCache := [("gin sour", mkEntry "2 results" 150 2)];
     cacheExpiry := 1000;
     maxCacheSize := 4 |}.

(** The same manager with room for ten entries per collection. *)
Definition demo_roomy : CacheManager string string :=
  {| recipeCache := recipeCache demo; searchCache := searchCache demo;
     cacheExpiry := 1000; maxCacheSize := 10 |}.

(** A parsed query: [strength = "light"], one flavor, one ingredient. *)
Definition demo_parsed : ParsedQuery :=
  mkParsedQuery (Some "light") ["bitter"] None None [] ["campari"]
                None None None None.

Definition demo_args : gmap string value :=
  {[ "preferred_strength" := VStr "strong" ]}.

(** Four recipes of an age of some 37 hours at clock reading 134217730;
    the quotients of the first two round to the same score. *)
Definition demo_rounding : list (Z * CacheEntry string) :=
  [(1, mkEntry "Negroni" 1 134217728); (2, mkEntry "Daiquiri" 2 134217727);
   (3, mkEntry "Mojito" 3 134217727); (4, mkEntry "Martini" 4 134217726)].


(** A manager configured for one entry that holds two. *)
Definition demo_small : CacheManager string string :=
  {| recipeCache := [(1, mkEntry "Negroni" 100 1); (2, mkEntry "Daiquiri" 200 1)];
     searchCache := [];
     cacheExpiry := 1000;
     maxCacheSize := 1 |}.

(** A manager whose entries are never served. *)
Definition demo_stale : CacheManager string string :=
  {| recipeCache := []; searchCache := []; cacheExpiry := -1; maxCacheSize := 1000 |}.

(** Calls on a new manager, and the manager they leave. *)
Definition demo_calls : list (Z * Call string string) :=
  [(1, SetRecipe 1 "Negroni"); (2, GetRecipe 1); (3, SetSearch "rum" "5 results");
   (4, GetStats); (5, SetRecipe 2 "Daiquiri")].

Definition demo_after_calls : CacheManager string string :=
  {| recipeCache := [(1, mkEntry "Negroni" 1 2); (2, mkEntry "Daiquiri" 5 1)];
     searchCache := [("rum", mkEntry "5 results" 3 1)];
     cacheExpiry := 300000;
     maxCacheSize := 1000 |}.

(** ** Proof automation *)

(** Looks a field up in a map built by conditional inserts. *)
Ltac lookup_written :=
  repeat match goal with
         | |- context [if ?b then _ else _] => destruct b
         end;
  repeat first
    [ rewrite lookup_insert_eq
    | rewrite lookup_insert_ne by (first [done | congruence]) ].

(** Settles an equation between two tests of one character by trying all
    characters. *)
Ltac all_chars c := destruct c as [[] [] [] [] [] [] [] []]; reflexivity.

(** * Properties *)

(** ** Facts about insertion-ordered maps *)

Section JsMapFacts.
Context {K V : Type} `{EqDecision K}.
Implicit Types (k : K) (v : V) (m : list (K * V)).

Lemma Map_get_None k m : Map_get k m = None ↔ k ∉ Map_keys m.
Proof.
  unfold Map_keys. induction m as [|[k' v'] m IH]; csimpl.
  - split; [intros _; apply not_elem_of_nil | done].
  - rewrite not_elem_of_cons. destruct (decide (k = k')) as [->|Hne].
    + split; [done|]. intros [Hk _]. by destruct Hk.
    + rewrite IH. tauto.
Qed.

Lemma Map_get_Some_elem k v m : Map_get k m = Some v → (k, v) ∈ m.
Proof.
  induction m as [|[k' v'] m IH]; csimpl; [done|].
  destruct (decide (k = k')) as [->|]; intros Hg.
  - injection Hg as ->. apply elem_of_cons; by left.
  - apply elem_of_cons; right; auto.
Qed.

Lemma Map_get_elem k v m : Map_ok m → (k, v) ∈ m → Map_get k m = Some v.
Proof.
  unfold Map_ok, Map_keys. induction m as [|[k' v'] m IH]; csimpl.
  - intros _ Hin. by apply elem_of_nil in Hin.
  - rewrite NoDup_cons. intros [Hk' Hnd] Hin.
    apply elem_of_cons in Hin as [Heq|Hin].
    + injection Heq as -> ->. by rewrite decide_True.
    + destruct (decide (k = k')) as [->|]; [|by apply IH].
      exfalso. apply Hk'. apply (list_elem_of_fmap_2 fst) in Hin. done.
Qed.

Lemma Map_get_set_eq k v m : Map_get k (Map_set k v m) = Some v.
Proof.
  induction m as [|[k' v'] m IH]; csimpl.
  - by rewrite decide_True.
  - destruct (decide (k = k')) as [->|Hne]; csimpl.
    + by rewrite decide_True.
    + by rewrite decide_False.
Qed.

Lemma Map_get_set_ne k k' v m : k ≠ k' → Map_get k' (Map_set k v m) = Map_get k' m.
Proof.
  intros Hne. induction m as [|[k0 v0] m IH]; csimpl.
  - by rewrite decide_False.
  - destruct (decide (k = k0)) as [->|]; csimpl.
    + by rewrite !decide_False.
    + by rewrite IH.
Qed.

Lemma Map_get_mutate_eq k f m : Map_get k (Map_mutate k f m) = f <$> Map_get k m.
Proof.
  induction m as [|[k' v'] m IH]; csimpl; [done|].
  destruct (decide (k = k')) as [->|Hne]; csimpl.
  - by rewrite decide_True.
  - by rewrite decide_False.
Qed.

Lemma Map_get_mutate_ne k k' f m :
  k ≠ k' → Map_get k' (Map_mutate k f m) = Map_get k' m.
Proof.
  intros Hne. induction m as [|[k0 v0] m IH]; csimpl; [done|].
  destruct (decide (k = k0)) as [->|]; csimpl.
  - by rewrite !decide_False.
  - by rewrite IH.
Qed.

Lemma Map_keys_mutate k f m : Map_keys (Map_mutate k f m) = Map_keys m.
Proof.
  unfold Map_keys. induction m as [|[k' v'] m IH]; csimpl; [done|].
  destruct (decide (k = k')); csimpl; by rewrite ?IH.
Qed.

Lemma Map_keys_set k v m :
  Map_keys (Map_set k v m) =
    if Map_get k m is Some _ then Map_keys m else Map_keys m ++ [k].
Proof.
  unfold Map_keys. induction m as [|[k' v'] m IH]; csimpl; [done|].
  destruct (decide (k = k')); csimpl; [done|].
  rewrite IH. by destruct (Map_get k m).
Qed.

Lemma filter_Forall_id (P : K * V → Prop) `{!∀ p, Decision (P p)} m :
  Forall P m → filter P m = m.
Proof.
  induction 1 as [|p m Hp _ IH]; [done|].
  by rewrite filter_cons_True, IH.
Qed.

Lemma filter_Forall_nil (P : K * V → Prop) `{!∀ p, Decision (P p)} m :
  Forall (λ p, ¬ P p) m → filter P m = [].
Proof.
  induction 1 as [|p m Hp _ IH]; [done|].
  by rewrite filter_cons_False, IH.
Qed.

Lemma Map_delete_filter k m :
  Map_ok m → Map_delete k m = filter (λ p, p.1 ≠ k) m.
Proof.
  unfold Map_ok, Map_keys. induction m as [|[k' v'] m IH]; csimpl; [done|].
  rewrite NoDup_cons. intros [Hk' Hnd].
  destruct (decide (k = k')) as [->|Hne].
  - rewrite filter_cons_False by (csimpl; intros Hn; by apply Hn).
    symmetry. apply filter_Forall_id. apply Forall_forall.
    intros [k0 v0] Hin Heq. apply Hk'.
    apply (list_elem_of_fmap_2 fst) in Hin. by rewrite <-Heq.
  - rewrite filter_cons_True by (csimpl; congruence). by rewrite IH.
Qed.

Lemma Map_keys_delete_subseteq k m : Map_keys (Map_delete k m) ⊆ Map_keys m.
Proof.
  unfold Map_keys. induction m as [|[k' v'] m IH]; csimpl; [done|].
  destruct (decide (k = k')); csimpl.
  - intros x Hx. apply elem_of_cons. by right.
  - intros x. rewrite !elem_of_cons. intros [->|Hx]; [by left|right; by apply IH].
Qed.

Lemma Map_ok_delete k m : Map_ok m → Map_ok (Map_delete k m).
Proof.
  unfold Map_ok, Map_keys. induction m as [|[k' v'] m IH]; csimpl; [done|].
  rewrite NoDup_cons. intros [Hk' Hnd].
  destruct (decide (k = k')); csimpl; [done|].
  apply NoDup_cons. split; [|auto].
  intros Hin. apply Hk'. by apply (Map_keys_delete_subseteq k).
Qed.

Lemma Map_ok_mutate k f m : Map_ok m → Map_ok (Map_mutate k f m).
Proof. unfold Map_ok. by rewrite Map_keys_mutate. Qed.

Lemma Map_ok_set k v m : Map_ok m → Map_ok (Map_set k v m).
Proof.
  unfold Map_ok. rewrite Map_keys_set. intros Hnd.
  destruct (Map_get k m) eqn:Hg; [done|].
  apply Map_get_None in Hg.
  apply NoDup_app. split_and!; [done| |apply NoDup_singleton].
  intros x Hx Hx'. apply list_elem_of_singleton in Hx' as ->. done.
Qed.

Lemma Map_get_delete_eq k m : Map_ok m → Map_get k (Map_delete k m) = None.
Proof.
  intros Hok. apply Map_get_None. unfold Map_keys.
  rewrite Map_delete_filter by done.
  intros Hin. apply list_elem_of_fmap in Hin as ([k' v'] & -> & Hin).
  apply list_elem_of_filter in Hin as [Hne _]. done.
Qed.

Lemma Map_get_delete_ne k k' m :
  k ≠ k' → Map_get k' (Map_delete k m) = Map_get k' m.
Proof.
  intros Hne. induction m as [|[k0 v0] m IH]; csimpl; [done|].
  destruct (decide (k = k0)) as [->|]; csimpl.
  - by rewrite decide_False.
  - by rewrite IH.
Qed.

Lemma Map_size_delete k m :
  is_Some (Map_get k m) → Map_size (Map_delete k m) = Map_size m - 1.
Proof.
  unfold Map_size. induction m as [|[k' v'] m IH]; simpl length.
  - intros [? ?]; done.
  - csimpl. destruct (decide (k = k')); simpl length; [lia|].
    intros Hs. specialize (IH Hs). lia.
Qed.

Lemma Map_size_mutate k f m : Map_size (Map_mutate k f m) = Map_size m.
Proof.
  unfold Map_size. f_equal.
  rewrite <-(length_fmap fst), <-(length_fmap fst m).
  f_equal. apply Map_keys_mutate.
Qed.

Lemma Map_size_set k v m :
  Map_size (Map_set k v m) =
    if Map_get k m is Some _ then Map_size m else Map_size m + 1.
Proof.
  unfold Map_size.
  rewrite <-(length_fmap fst), <-(length_fmap fst m).
  pose proof (Map_keys_set k v m) as Hk. unfold Map_keys in Hk. rewrite Hk.
  destruct (Map_get k m); [done|]. rewrite length_app. csimpl. lia.
Qed.
End JsMapFacts.

(** ** Facts about the stable sort *)

Section SortFacts.
Context {A : Type} (cmp : A → A → comparison).

Lemma sort_insert_perm x l : sort_insert cmp x l ≡ₚ x :: l.
Proof.
  induction l as [|y l IH]; simpl; [done|].
  destruct (cmp y x); [done| |done].
  rewrite IH. apply Permutation_swap.
Qed.

Lemma Array_sort_perm l : Array_sort cmp l ≡ₚ l.
Proof.
  induction l as [|x l IH]; simpl; [done|].
  by rewrite sort_insert_perm, IH.
Qed.

Lemma Array_sort_length l : length (Array_sort cmp l) = length l.
Proof. by rewrite Array_sort_perm. Qed.

(** Insertion passes exactly the elements that the comparator puts strictly
    before the new one. *)
Lemma sort_insert_split x l :
  ∃ l1 l2, l = l1 ++ l2 ∧ sort_insert cmp x l = l1 ++ x :: l2 ∧
           Forall (λ y, cmp y x = Lt) l1.
Proof.
  induction l as [|y l (l1 & l2 & Hl & Hins & Hlt)]; simpl.
  - by exists [], [].
  - destruct (cmp y x) eqn:Hc; [by exists [], (y :: l)| |by exists [], (y :: l)].
    exists (y :: l1), l2. rewrite Hins, Hl. split_and!; [done|done|].
    by apply Forall_cons.
Qed.

(** The sort is stable: elements that the comparator never puts strictly
    before one another keep their relative order. *)
Lemma Array_sort_stable (P : A → Prop) `{!∀ a, Decision (P a)} l :
  (∀ a b, P a → P b → cmp a b ≠ Lt) →
  filter P (Array_sort cmp l) = filter P l.
Proof.
  intros Htie. induction l as [|x l IH]; simpl; [done|].
  destruct (sort_insert_split x (Array_sort cmp l)) as (l1 & l2 & Hl & -> & Hlt).
  rewrite filter_app, !filter_cons, <-IH, Hl, filter_app.
  destruct (decide (P x)) as [Hx|Hx]; [|done].
  assert (filter P l1 = []) as ->; [|done].
  clear Hl. induction Hlt as [|y l1 Hy _ IH1]; [done|].
  rewrite filter_cons_False; [done|].
  intros HPy. by apply (Htie y x).
Qed.

(** Sortedness, for a comparator that is a total preorder on the elements
    satisfying [P]. *)
Context (P : A → Prop) (le : A → A → Prop).
Hypothesis le_trans : ∀ x y z, P x → P y → P z → le x y → le y z → le x z.
Hypothesis cmp_Lt_le : ∀ x y, P x → P y → cmp x y = Lt → le x y.
Hypothesis cmp_not_Lt_le : ∀ x y, P x → P y → cmp y x ≠ Lt → le x y.


End SortFacts.

(** ** Facts about scores *)

Lemma rne_bounds p q : 0 < q → p / q ≤ rne p q ≤ p / q + 1.
Proof.
  intros Hq. unfold rne.
  destruct (2 * (p mod q) ?= q); [destruct (Z.even (p / q))|..]; lia.
Qed.

Lemma rne_ge p q N : 0 < q → N * q ≤ p → N ≤ rne p q.
Proof.
  intros Hq Hp. pose proof (rne_bounds p q Hq).
  assert (N ≤ p / q) by (apply Z.div_le_lower_bound; lia). lia.
Qed.

Lemma rne_exact q N : 0 < q → rne (N * q) q = N.
Proof.
  intros Hq. unfold rne. rewrite Z.mod_mul, Z.div_mul by lia.
  destruct (Z.compare_spec (2 * 0) q); lia.
Qed.

Lemma rne_le p q N : 0 < q → p ≤ N * q → rne p q ≤ N.
Proof.
  intros Hq Hp. destruct (decide (p = N * q)) as [->|Hne].
  - by rewrite rne_exact.
  - pose proof (rne_bounds p q Hq).
    assert (p / q < N) by (apply Z.div_lt_upper_bound; lia). lia.
Qed.

Lemma rne_mono p1 q1 p2 q2 :
  0 < q1 → 0 < q2 → p1 * q2 ≤ p2 * q1 → rne p1 q1 ≤ rne p2 q2.
Proof.
  intros Hq1 Hq2 Hle. unfold rne.
  pose proof (Z.div_mod p1 q1 ltac:(lia)) as E1.
  pose proof (Z.div_mod p2 q2 ltac:(lia)) as E2.
  pose proof (Z.mod_pos_bound p1 q1 Hq1) as B1.
  pose proof (Z.mod_pos_bound p2 q2 Hq2) as B2.
  set (f1 := p1 / q1) in *. set (r1 := p1 mod q1) in *.
  set (f2 := p2 / q2) in *. set (r2 := p2 mod q2) in *.
  assert (f1 ≤ f2) as Hf.
  { destruct (Z.le_gt_cases f1 f2) as [|Hgt]; [done|exfalso].
    assert (q1 * q2 * (f2 + 1) ≤ q1 * q2 * f1) by nia.
    assert (r2 * q1 < q2 * q1) by nia. nia. }
  destruct (decide (f1 = f2)) as [Heq|Hne].
  - rewrite <-Heq in *. assert (r1 * q2 ≤ r2 * q1) as Hr by nia.
    destruct (Z.compare_spec (2 * r1) q1), (Z.compare_spec (2 * r2) q2),
      (Z.even f1); try lia; nia.
  - destruct (2 * r1 ?= q1), (2 * r2 ?= q2), (Z.even f1), (Z.even f2); lia.
Qed.

Lemma div_le_cross p1 q1 p2 q2 :
  0 < q1 → 0 < q2 → p1 * q2 ≤ p2 * q1 → p1 / q1 ≤ p2 / q2.
Proof.
  intros Hq1 Hq2 Hle.
  pose proof (Z.div_mod p1 q1 ltac:(lia)) as E1.
  pose proof (Z.div_mod p2 q2 ltac:(lia)) as E2.
  pose proof (Z.mod_pos_bound p1 q1 Hq1) as B1.
  pose proof (Z.mod_pos_bound p2 q2 Hq2) as B2.
  set (f1 := p1 / q1) in *. set (r1 := p1 mod q1) in *.
  set (f2 := p2 / q2) in *. set (r2 := p2 mod q2) in *.
  destruct (Z.le_gt_cases f1 f2) as [|Hgt]; [done|exfalso].
  assert (q1 * q2 * (f2 + 1) ≤ q1 * q2 * f1) by nia.
  assert (r2 * q1 < q2 * q1) by nia. nia.
Qed.

Lemma shift_nonneg n : 0 ≤ shift n.
Proof. unfold shift. lia. Qed.

Lemma shift_mono n1 n2 : n1 ≤ n2 → shift n1 ≤ shift n2.
Proof. intros H. unfold shift. pose proof (Z.log2_le_mono _ _ H). lia. Qed.

Lemma shift_upper n : n < 2 ^ (53 + shift n).
Proof.
  unfold shift. destruct (Z.le_gt_cases n 0) as [H|H].
  - pose proof (Z.pow_pos_nonneg 2 (53 + Z.max 0 (Z.log2 n - 52))). lia.
  - pose proof (Z.log2_spec n H) as [_ Hlt].
    eapply Z.lt_le_trans; [exact Hlt|].
    apply Z.pow_le_mono_r; lia.
Qed.

Lemma shift_lower n : 0 < shift n → 2 ^ (52 + shift n) ≤ n.
Proof.
  unfold shift. intros Hs.
  assert (0 < n) as Hn.
  { destruct (Z.le_gt_cases n 0) as [H|H]; [|lia].
    rewrite (Z.log2_nonpos n H) in Hs. lia. }
  pose proof (Z.log2_spec n Hn) as [Hle _].
  replace (52 + Z.max 0 (Z.log2 n - 52)) with (Z.log2 n) by lia. done.
Qed.

Lemma round_val_eq p q :
  round_val p q = rne p (q * 2 ^ shift (p / q)) * 2 ^ shift (p / q).
Proof. done. Qed.

Lemma div_upper p q N : 0 < q → p / q < N → p < N * q.
Proof.
  intros Hq H. pose proof (Z.div_mod p q ltac:(lia)).
  pose proof (Z.mod_pos_bound p q Hq). nia.
Qed.

Lemma div_lower p q N : 0 < q → N ≤ p / q → N * q ≤ p.
Proof.
  intros Hq H. pose proof (Z.div_mod p q ltac:(lia)).
  pose proof (Z.mod_pos_bound p q Hq). nia.
Qed.

Lemma round_val_upper p q : 0 < q → round_val p q ≤ 2 ^ (53 + shift (p / q)).
Proof.
  intros Hq. rewrite round_val_eq. set (s := shift (p / q)).
  pose proof (shift_nonneg (p / q)) as Hs. fold s in Hs.
  assert (0 < 2 ^ s) as Hpow by (apply Z.pow_pos_nonneg; lia).
  rewrite Z.pow_add_r by lia.
  apply Z.mul_le_mono_nonneg_r; [lia|].
  apply rne_le; [lia|].
  pose proof (shift_upper (p / q)) as Hup. fold s in Hup.
  apply (div_upper _ _ _ Hq) in Hup. rewrite Z.pow_add_r in Hup by lia. nia.
Qed.

Lemma round_val_lower p q :
  0 < q → 0 < shift (p / q) → 2 ^ (52 + shift (p / q)) ≤ round_val p q.
Proof.
  intros Hq Hs. rewrite round_val_eq. set (s := shift (p / q)) in *.
  assert (0 < 2 ^ s) as Hpow by (apply Z.pow_pos_nonneg; lia).
  rewrite Z.pow_add_r by lia.
  apply Z.mul_le_mono_nonneg_r; [lia|].
  apply rne_ge; [lia|].
  pose proof (shift_lower (p / q) Hs) as Hlo. fold s in Hlo.
  apply (div_lower _ _ _ Hq) in Hlo. rewrite Z.pow_add_r in Hlo by lia. nia.
Qed.

(** Rounding is monotone. *)
Lemma round_val_mono p1 q1 p2 q2 :
  0 < q1 → 0 < q2 → p1 * q2 ≤ p2 * q1 → round_val p1 q1 ≤ round_val p2 q2.
Proof.
  intros Hq1 Hq2 Hle.
  pose proof (div_le_cross _ _ _ _ Hq1 Hq2 Hle) as Hn.
  pose proof (shift_mono _ _ Hn) as Hs.
  destruct (decide (shift (p1 / q1) = shift (p2 / q2))) as [Heq|Hne].
  - rewrite !round_val_eq, Heq. set (s := shift (p2 / q2)).
    assert (0 < 2 ^ s) as Hpow
      by (apply Z.pow_pos_nonneg; [lia|apply shift_nonneg]).
    apply Z.mul_le_mono_nonneg_r; [lia|].
    apply rne_mono; nia.
  - pose proof (shift_nonneg (p1 / q1)).
    etrans; [by apply round_val_upper|].
    etrans; [|apply round_val_lower; [done|lia]].
    apply Z.pow_le_mono_r; lia.
Qed.

(** Rounding keeps binary64 values: [m * 2 ^ t] with [m] of 53 bits. *)
Lemma round_val_fixes m t :
  0 ≤ m < 2 ^ 53 → 0 ≤ t → round_val (m * 2 ^ t) 1 = m * 2 ^ t.
Proof.
  intros Hm Ht. rewrite round_val_eq, Z.div_1_r, Z.mul_1_l.
  set (s := shift (m * 2 ^ t)).
  assert (s ≤ t) as Hst.
  { destruct (Z.le_gt_cases s t) as [|Hgt]; [done|exfalso].
    assert (0 < s) as Hs by lia.
    pose proof (shift_lower _ Hs) as Hlo. fold s in Hlo.
    assert (2 ^ (52 + s) = 2 ^ t * 2 ^ (52 + s - t)) as E
      by (rewrite <-Z.pow_add_r by lia; f_equal; lia).
    assert (2 ^ 53 ≤ 2 ^ (52 + s - t)) by (apply Z.pow_le_mono_r; lia).
    assert (0 < 2 ^ t) by (apply Z.pow_pos_nonneg; lia). nia. }
  pose proof (shift_nonneg (m * 2 ^ t)) as Hs. fold s in Hs.
  assert (2 ^ t = 2 ^ (t - s) * 2 ^ s) as E
    by (rewrite <-Z.pow_add_r by lia; f_equal; lia).
  rewrite E, Z.mul_assoc, rne_exact; [done|].
  apply Z.pow_pos_nonneg; lia.
Qed.




(** The difference of two binary64 values is rounded, and the rounding
    keeps its sign: a difference that is not zero is one unit or more. *)
Lemma round_pos_sign d : 0 < d → num_sign (round_pos d 1) = Gt.
Proof.
  intros Hd. unfold round_pos.
  assert (1 ≤ round_val d 1) as Hr.
  { rewrite <-(round_val_fixes 1 0) at 1 by lia.
    apply round_val_mono; lia. }
  destruct (_ <? _); [|done]. simpl. by apply Z.compare_gt_iff; lia.
Qed.

Lemma round64_sign d : num_sign (round64 d 1) = (d ?= 0).
Proof.
  unfold round64. change (Z.abs 1) with 1. change (1 <? 0) with false.
  rewrite xorb_false_r. destruct (Z.compare_spec d 0) as [->|Hd|Hd].
  - done.
  - destruct (Z.ltb_spec d 0); [|lia].
    pose proof (round_pos_sign (Z.abs d) ltac:(lia)) as Hs.
    destruct (round_pos (Z.abs d) 1) as [| |k|]; simpl in *; try done.
    apply Z.compare_gt_iff in Hs. apply Z.compare_lt_iff. lia.
  - destruct (Z.ltb_spec d 0); [lia|].
    rewrite Z.abs_eq by lia. by apply round_pos_sign.
Qed.



(** On proper scores the sign of the difference decides [num_le]. *)
Lemma num_sign_sub_le a b :
  num_proper a → num_proper b →
  (num_sign (num_sub a b) ≠ Gt ↔ num_le a b).
Proof.
  destruct a as [| |p|], b as [| |q|]; simpl; try done.
  intros _ _. rewrite round64_sign.
  destruct (Z.compare_spec (p - q) 0); split; (done || lia).
Qed.




(** ** Facts about one collection *)

Section CollectionFacts.
Context {K T : Type} `{EqDecision K}.
Implicit Types (cache entries rs : list (K * CacheEntry T)).

Lemma evictLoop_take entries i n cache :
  (i + n ≤ length entries)%nat →
  evictLoop entries i n cache = Some (delete_all (take n (drop i entries)) cache).
Proof.
  revert i cache. induction n as [|n IH]; intros i cache Hle; simpl.
  - reflexivity.
  - destruct (lookup_lt_is_Some_2 entries i) as [e He]; [lia|].
    rewrite He. rewrite IH by lia.
    by rewrite (drop_S _ _ _ He).
Qed.

Lemma evictLoop_throws entries i n cache :
  (i ≤ length entries < i + n)%nat → evictLoop entries i n cache = None.
Proof.
  revert i cache. induction n as [|n IH]; intros i cache Hlt; simpl; [lia|].
  destruct (entries !! i) as [e|] eqn:He; [|done].
  apply lookup_lt_Some in He. apply IH. lia.
Qed.

Lemma delete_all_ok rs cache : Map_ok cache → Map_ok (delete_all rs cache).
Proof.
  unfold delete_all. revert cache.
  induction rs as [|r rs IH]; intros cache Hok; simpl; [done|].
  apply IH. by apply Map_ok_delete.
Qed.

Lemma delete_all_filter rs cache :
  Map_ok cache → delete_all rs cache = filter (λ p, p.1 ∉ rs.*1) cache.
Proof.
  unfold delete_all. revert cache.
  induction rs as [|r rs IH]; intros cache Hok; csimpl.
  - symmetry. apply filter_Forall_id, Forall_forall.
    intros p _. apply not_elem_of_nil.
  - rewrite IH by by apply Map_ok_delete.
    rewrite Map_delete_filter by done. rewrite list_filter_filter.
    apply list_filter_iff. intros p. rewrite not_elem_of_cons. tauto.
Qed.

Lemma toRemove_le_size maxSz cache :
  maxSz ≤ Map_size cache → (Z.to_nat (toRemove maxSz) ≤ length cache)%nat.
Proof.
  unfold toRemove, Map_size. intros Hle.
  destruct (decide (maxSz < 0)) as [Hneg|Hpos].
  - assert (maxSz / 4 < 0) by (apply Z.div_lt_upper_bound; lia). lia.
  - assert (maxSz / 4 ≤ maxSz) by (apply Z.div_le_upper_bound; lia). lia.
Qed.

Lemma evictIfNeeded_below maxSz now cache :
  Map_size cache < maxSz → evictIfNeeded maxSz now cache = Some cache.
Proof.
  intros Hlt. unfold evictIfNeeded.
  destruct (Z.geb_spec (Map_size cache) maxSz); [lia|done].
Qed.

Lemma evictIfNeeded_full maxSz now cache :
  maxSz ≤ Map_size cache →
  evictIfNeeded maxSz now cache =
    Some (delete_all (coldest (Z.to_nat (toRemove maxSz)) now cache) cache).
Proof.
  intros Hle. unfold evictIfNeeded, coldest.
  destruct (Z.geb_spec (Map_size cache) maxSz); [|lia].
  rewrite evictLoop_take; [done|].
  rewrite Array_sort_length. simpl. by apply toRemove_le_size.
Qed.

Lemma evictIfNeeded_total maxSz now cache :
  is_Some (evictIfNeeded maxSz now cache).
Proof.
  destruct (decide (maxSz ≤ Map_size cache)).
  - rewrite evictIfNeeded_full by done. eauto.
  - rewrite evictIfNeeded_below by lia. eauto.
Qed.

Lemma sorted_keys_NoDup now cache :
  Map_ok cache → NoDup (Array_sort (compareFn now) cache).*1.
Proof. unfold Map_ok, Map_keys. by rewrite Array_sort_perm. Qed.

(** What survives the deletion of the [n] coldest entries is, up to
    order, the rest of the sorted array. *)
Lemma delete_coldest_perm n now cache :
  Map_ok cache →
  delete_all (coldest n now cache) cache
    ≡ₚ drop n (Array_sort (compareFn now) cache).
Proof.
  intros Hok. rewrite delete_all_filter by done. unfold coldest.
  pose proof (sorted_keys_NoDup now cache Hok) as Hnd.
  set (sorted := Array_sort (compareFn now) cache) in *.
  assert (cache ≡ₚ sorted) as Hperm by (symmetry; apply Array_sort_perm).
  rewrite Hperm. clearbody sorted.
  assert (sorted = take n sorted ++ drop n sorted) as Hsplit
    by (symmetry; apply take_drop).
  rewrite Hsplit, fmap_app in Hnd.
  apply NoDup_app in Hnd as (_ & Hdisj & _).
  set (tk := take n sorted) in *. set (dr := drop n sorted) in *.
  rewrite Hsplit, filter_app.
  assert (filter (λ p, p.1 ∉ tk.*1) tk = []) as ->.
  { apply filter_Forall_nil, Forall_forall. intros p Hp Hn.
    apply Hn. by apply list_elem_of_fmap_2. }
  rewrite filter_Forall_id; [done|].
  apply Forall_forall. intros p Hp Hin.
  apply (Hdisj p.1 Hin). by apply list_elem_of_fmap_2.
Qed.
End CollectionFacts.

(** ** Lookups and stores on one collection *)

Section LookupFacts.
Context {K T : Type} `{EqDecision K}.
Implicit Types (cache : list (K * CacheEntry T)) (e : CacheEntry T).

Lemma getCached_hit expiry now k cache e :
  Map_get k cache = Some e → now - timestamp e < expiry →
  getCached expiry now k cache = (Some (data e), Map_mutate k bump cache).
Proof.
  intros Hg Hv. unfold getCached, isValid. rewrite Hg.
  destruct (Z.ltb_spec (now - timestamp e) expiry); [done|lia].
Qed.

Lemma getCached_expired expiry now k cache e :
  Map_get k cache = Some e → expiry ≤ now - timestamp e →
  getCached expiry now k cache = (None, Map_delete k cache).
Proof.
  intros Hg Hv. unfold getCached, isValid. rewrite Hg.
  destruct (Z.ltb_spec (now - timestamp e) expiry); [lia|done].
Qed.

Lemma getCached_miss expiry now k cache :
  Map_get k cache = None → getCached expiry now k cache = (None, cache).
Proof. intros Hg. unfold getCached. by rewrite Hg. Qed.

(** A lookup of [k] leaves every other key as it was. *)
Lemma getCached_other expiry now k k' cache :
  k ≠ k' →
  Map_get k' (getCached expiry now k cache).2 = Map_get k' cache.
Proof.
  intros Hne. unfold getCached.
  destruct (Map_get k cache) as [e|]; [|done].
  destruct (isValid expiry now e); simpl.
  - by apply Map_get_mutate_ne.
  - by apply Map_get_delete_ne.
Qed.

Lemma getCached_keys expiry now k cache :
  Map_keys (getCached expiry now k cache).2 ⊆ Map_keys cache.
Proof.
  unfold getCached.
  destruct (Map_get k cache) as [e|]; [|done].
  destruct (isValid expiry now e); simpl.
  - by rewrite Map_keys_mutate.
  - apply Map_keys_delete_subseteq.
Qed.

Lemma getCached_size expiry now k cache :
  Map_size (getCached expiry now k cache).2 ≤ Map_size cache.
Proof.
  unfold getCached.
  destruct (Map_get k cache) as [e|] eqn:Hg; [|done].
  destruct (isValid expiry now e); simpl.
  - by rewrite Map_size_mutate.
  - rewrite Map_size_delete by eauto. lia.
Qed.

Lemma setCached_eq maxSz now k d cache :
  ∃ kept, evictIfNeeded maxSz now cache = Some kept ∧
          setCached maxSz now k d cache = Some (Map_set k (mkEntry d now 1) kept).
Proof.
  destruct (evictIfNeeded_total maxSz now cache) as [kept Hk].
  exists kept. split; [done|]. unfold setCached. by rewrite Hk.
Qed.

(** *** Preservation of the representation invariant *)

Lemma entries_ok_delete k cache : entries_ok cache → entries_ok (Map_delete k cache).
Proof.
  unfold entries_ok. induction cache as [|[k' e'] cache IH]; simpl; [done|].
  intros Hok. apply Forall_cons in Hok as [He Hok].
  destruct (decide (k = k')); [done|]. apply Forall_cons. auto.
Qed.

Lemma entries_ok_mutate k cache :
  entries_ok cache → entries_ok (Map_mutate k bump cache).
Proof.
  unfold entries_ok. induction cache as [|[k' e'] cache IH]; simpl; [done|].
  intros Hok. apply Forall_cons in Hok as [He Hok]. simpl in He.
  destruct (decide (k = k')); apply Forall_cons; simpl; auto with lia.
Qed.

Lemma entries_ok_set k d now cache :
  entries_ok cache → entries_ok (Map_set k (mkEntry d now 1) cache).
Proof.
  unfold entries_ok. induction cache as [|[k' e'] cache IH]; simpl.
  - intros _. apply Forall_cons. simpl. split; [lia|done].
  - intros Hok. apply Forall_cons in Hok as [He Hok].
    destruct (decide (k = k')); apply Forall_cons; simpl; auto with lia.
Qed.

Lemma entries_ok_delete_all rs cache :
  entries_ok cache → entries_ok (delete_all rs cache).
Proof.
  unfold delete_all. revert cache.
  induction rs as [|r rs IH]; intros cache Hok; simpl; [done|].
  apply IH. by apply entries_ok_delete.
Qed.

Lemma getCached_ok expiry now k cache :
  Map_ok cache → entries_ok cache →
  Map_ok (getCached expiry now k cache).2 ∧
  entries_ok (getCached expiry now k cache).2.
Proof.
  intros Hm He. unfold getCached.
  destruct (Map_get k cache) as [e|]; [|done].
  destruct (isValid expiry now e); simpl.
  - split; [by apply Map_ok_mutate | by apply entries_ok_mutate].
  - split; [by apply Map_ok_delete | by apply entries_ok_delete].
Qed.

Lemma evictIfNeeded_ok maxSz now cache kept :
  Map_ok cache → entries_ok cache →
  evictIfNeeded maxSz now cache = Some kept →
  Map_ok kept ∧ entries_ok kept.
Proof.
  intros Hm He Hev.
  destruct (decide (maxSz ≤ Map_size cache)).
  - rewrite evictIfNeeded_full in Hev by done. injection Hev as <-.
    split; [by apply delete_all_ok | by apply entries_ok_delete_all].
  - rewrite evictIfNeeded_below in Hev by lia. by injection Hev as <-.
Qed.

Lemma setCached_ok maxSz now k d cache cache' :
  Map_ok cache → entries_ok cache →
  setCached maxSz now k d cache = Some cache' →
  Map_ok cache' ∧ entries_ok cache'.
Proof.
  intros Hm He Hset.
  destruct (setCached_eq maxSz now k d cache) as (kept & Hev & Heq).
  rewrite Heq in Hset. injection Hset as <-.
  destruct (evictIfNeeded_ok _ _ _ _ Hm He Hev).
  split; [by apply Map_ok_set | by apply entries_ok_set].
Qed.
End LookupFacts.

(** ** The cache manager's methods *)

Section ManagerFacts.
Context {R S : Type}.
Implicit Types (c : CacheManager R S).

Lemma getCachedRecipe_eq c now id :
  getCachedRecipe c now id =
    ((getCached (cacheExpiry c) now id (recipeCache c)).1,
     with_recipeCache c (getCached (cacheExpiry c) now id (recipeCache c)).2).
Proof. unfold getCachedRecipe. by destruct (getCached _ _ _ _). Qed.

Lemma getCachedSearch_eq c now q :
  getCachedSearch c now q =
    ((getCached (cacheExpiry c) now q (searchCache c)).1,
     with_searchCache c (getCached (cacheExpiry c) now q (searchCache c)).2).
Proof. unfold getCachedSearch. by destruct (getCached _ _ _ _). Qed.

Lemma setCachedRecipe_eq c now id d :
  ∃ kept, evictIfNeeded (maxCacheSize c) now (recipeCache c) = Some kept ∧
    setCachedRecipe c now id d =
      Some (with_recipeCache c (Map_set id (mkEntry d now 1) kept)).
Proof.
  destruct (setCached_eq (maxCacheSize c) now id d (recipeCache c))
    as (kept & Hev & Heq).
  exists kept. split; [done|]. unfold setCachedRecipe. by rewrite Heq.
Qed.

Lemma setCachedSearch_eq c now q d :
  ∃ kept, evictIfNeeded (maxCacheSize c) now (searchCache c) = Some kept ∧
    setCachedSearch c now q d =
      Some (with_searchCache c (Map_set q (mkEntry d now 1) kept)).
Proof.
  destruct (setCached_eq (maxCacheSize c) now q d (searchCache c))
    as (kept & Hev & Heq).
  exists kept. split; [done|]. unfold setCachedSearch. by rewrite Heq.
Qed.

(** No call raises. *)
Lemma call_total c now op : is_Some (call c now op).
Proof.
  destruct op as [id|id d|q|q d| |]; simpl; eauto.
  - destruct (setCachedRecipe_eq c now id d) as (kept & _ & ->). eauto.
  - destruct (setCachedSearch_eq c now q d) as (kept & _ & ->). eauto.
Qed.

Lemma calls_total c ops : is_Some (calls c ops).
Proof.
  revert c. induction ops as [|[now op] ops IH]; intros c; simpl; [eauto|].
  destruct (call_total c now op) as [c' ->]. simpl. apply IH.
Qed.

(** The representation invariant holds of every manager that the
    constructor and the methods produce. *)
Lemma constructor_ok options : manager_ok (constructor (DetailedRecipe:=R) (MCPResponse:=S) options).
Proof.
  unfold manager_ok, Map_ok, entries_ok. simpl.
  split_and!; (apply NoDup_nil_2 || apply Forall_nil_2).
Qed.

Lemma call_ok c now op c' : manager_ok c → call c now op = Some c' → manager_ok c'.
Proof.
  intros (Hrm & Hre & Hsm & Hse).
  destruct op as [id|id d|q|q d| |]; simpl; intros Hc.
  - injection Hc as <-. rewrite getCachedRecipe_eq. simpl.
    destruct (getCached_ok (cacheExpiry c) now id _ Hrm Hre). by split_and!.
  - unfold setCachedRecipe in Hc.
    destruct (setCached _ _ _ _ _) as [m|] eqn:Hset; [|done].
    injection Hc as <-. simpl.
    destruct (setCached_ok _ _ _ _ _ _ Hrm Hre Hset). by split_and!.
  - injection Hc as <-. rewrite getCachedSearch_eq. simpl.
    destruct (getCached_ok (cacheExpiry c) now q _ Hsm Hse). by split_and!.
  - unfold setCachedSearch in Hc.
    destruct (setCached _ _ _ _ _) as [m|] eqn:Hset; [|done].
    injection Hc as <-. simpl.
    destruct (setCached_ok _ _ _ _ _ _ Hsm Hse Hset). by split_and!.
  - injection Hc as <-. by split_and!.
  - injection Hc as <-. unfold manager_ok, Map_ok, entries_ok. simpl.
    split_and!; (apply NoDup_nil_2 || apply Forall_nil_2).
Qed.

Lemma calls_ok c ops c' : manager_ok c → calls c ops = Some c' → manager_ok c'.
Proof.
  revert c. induction ops as [|[now op] ops IH]; intros c Hok; simpl.
  - by intros [= <-].
  - destruct (call c now op) as [c1|] eqn:Hc; [|done]. simpl.
    apply IH. by eapply call_ok.
Qed.

(** The configuration is read-only. *)
Lemma call_config c now op c' :
  call c now op = Some c' →
  cacheExpiry c' = cacheExpiry c ∧ maxCacheSize c' = maxCacheSize c.
Proof.
  destruct op as [id|id d|q|q d| |]; simpl; intros Hc.
  - injection Hc as <-. by rewrite getCachedRecipe_eq.
  - destruct (setCachedRecipe_eq c now id d) as (kept & _ & Heq).
    rewrite Heq in Hc. by injection Hc as <-.
  - injection Hc as <-. by rewrite getCachedSearch_eq.
  - destruct (setCachedSearch_eq c now q d) as (kept & _ & Heq).
    rewrite Heq in Hc. by injection Hc as <-.
  - by injection Hc as <-.
  - by injection Hc as <-.
Qed.
End ManagerFacts.

(** ** Properties of the specification: the cache manager *)

Section CacheClaims.
Context {R S : Type}.
Implicit Types (c : CacheManager R S).

Lemma getCachedRecipes_hits c id e nows :
  Map_get id (recipeCache c) = Some e →
  Forall (λ t, t - timestamp e < cacheExpiry c) nows →
  ∃ c', getCachedRecipes c id nows = (replicate (length nows) (Some (data e)), c') ∧
        Map_get id (recipeCache c') =
          Some (mkEntry (data e) (timestamp e) (accessCount e + Z.of_nat (length nows))).
Proof.
  revert c e. induction nows as [|t nows IH]; intros c e Hg Hv; simpl.
  - exists c. split; [done|]. rewrite Hg. destruct e; simpl. do 2 f_equal. lia.
  - apply Forall_cons in Hv as [Ht Hv].
    rewrite getCachedRecipe_eq, (getCached_hit _ _ _ _ e) by done. simpl.
    destruct (IH (with_recipeCache c (Map_mutate id bump (recipeCache c))) (bump e))
      as (c' & Hrun & Hc'); [|done|].
    { simpl. by rewrite Map_get_mutate_eq, Hg. }
    exists c'. simpl in Hrun. rewrite Hrun. split; [done|].
    rewrite Hc'. simpl. do 2 f_equal. lia.
Qed.

Lemma getCachedSearches_hits c q e nows :
  Map_get q (searchCache c) = Some e →
  Forall (λ t, t - timestamp e < cacheExpiry c) nows →
  ∃ c', getCachedSearches c q nows = (replicate (length nows) (Some (data e)), c') ∧
        Map_get q (searchCache c') =
          Some (mkEntry (data e) (timestamp e) (accessCount e + Z.of_nat (length nows))).
Proof.
  revert c e. induction nows as [|t nows IH]; intros c e Hg Hv; simpl.
  - exists c. split; [done|]. rewrite Hg. destruct e; simpl. do 2 f_equal. lia.
  - apply Forall_cons in Hv as [Ht Hv].
    rewrite getCachedSearch_eq, (getCached_hit _ _ _ _ e) by done. simpl.
    destruct (IH (with_searchCache c (Map_mutate q bump (searchCache c))) (bump e))
      as (c' & Hrun & Hc'); [|done|].
    { simpl. by rewrite Map_get_mutate_eq, Hg. }
    exists c'. simpl in Hrun. rewrite Hrun. split; [done|].
    rewrite Hc'. simpl. do 2 f_equal. lia.
Qed.

(** C1. In either collection, [set(k, v)] succeeds and stores [v] with
    [accessCount = 1]; every [get(k)] that follows while the age is below
    the TTL returns [v], and after [n] such lookups the entry's
    [accessCount] is [1 + n]. In any state, a [get] that finds an entry
    younger than the TTL returns its data and adds exactly one to its
    [accessCount]. *)
Theorem C1_get_after_set c now :
  (∀ id d nows,
      Forall (λ t, t - now < cacheExpiry c) nows →
      ∃ c1 cn,
        setCachedRecipe c now id d = Some c1 ∧
        Map_get id (recipeCache c1) = Some (mkEntry d now 1) ∧
        getCachedRecipes c1 id nows = (replicate (length nows) (Some d), cn) ∧
        Map_get id (recipeCache cn) =
          Some (mkEntry d now (1 + Z.of_nat (length nows)))) ∧
  (∀ q d nows,
      Forall (λ t, t - now < cacheExpiry c) nows →
      ∃ c1 cn,
        setCachedSearch c now q d = Some c1 ∧
        Map_get q (searchCache c1) = Some (mkEntry d now 1) ∧
        getCachedSearches c1 q nows = (replicate (length nows) (Some d), cn) ∧
        Map_get q (searchCache cn) =
          Some (mkEntry d now (1 + Z.of_nat (length nows)))) ∧
  (∀ id e,
      Map_get id (recipeCache c) = Some e → now - timestamp e < cacheExpiry c →
      ∃ c', getCachedRecipe c now id = (Some (data e), c') ∧
            Map_get id (recipeCache c') =
              Some (mkEntry (data e) (timestamp e) (accessCount e + 1))) ∧
  (∀ q e,
      Map_get q (searchCache c) = Some e → now - timestamp e < cacheExpiry c →
      ∃ c', getCachedSearch c now q = (Some (data e), c') ∧
            Map_get q (searchCache c') =
              Some (mkEntry (data e) (timestamp e) (accessCount e + 1))).
Proof.
  split_and!.
  - intros id d nows Hv.
    destruct (setCachedRecipe_eq c now id d) as (kept & _ & Hset).
    set (c1 := with_recipeCache c (Map_set id (mkEntry d now 1) kept)) in *.
    assert (Map_get id (recipeCache c1) = Some (mkEntry d now 1)) as Hg
      by apply Map_get_set_eq.
    destruct (getCachedRecipes_hits c1 id _ nows Hg Hv) as (cn & Hrun & Hcn).
    by exists c1, cn.
  - intros q d nows Hv.
    destruct (setCachedSearch_eq c now q d) as (kept & _ & Hset).
    set (c1 := with_searchCache c (Map_set q (mkEntry d now 1) kept)) in *.
    assert (Map_get q (searchCache c1) = Some (mkEntry d now 1)) as Hg
      by apply Map_get_set_eq.
    destruct (getCachedSearches_hits c1 q _ nows Hg Hv) as (cn & Hrun & Hcn).
    by exists c1, cn.
  - intros id e Hg Hv. eexists.
    rewrite getCachedRecipe_eq, (getCached_hit _ _ _ _ e) by done.
    split; [done|]. simpl. by rewrite Map_get_mutate_eq, Hg.
  - intros q e Hg Hv. eexists.
    rewrite getCachedSearch_eq, (getCached_hit _ _ _ _ e) by done.
    split; [done|]. simpl. by rewrite Map_get_mutate_eq, Hg.
Qed.

(** C2. A stored entry is served while its age is below the TTL. From age
    TTL on, the lookup itself removes it and returns nothing, and the size
    reported by [getStats] drops by one. Nothing else expires entries:
    looking up other keys, at whatever time, leaves an entry in place. *)
Theorem C2_lazy_expiry c now :
  (∀ id e,
      Map_ok (recipeCache c) → Map_get id (recipeCache c) = Some e →
      let r := getCachedRecipe c now id in
      (now - timestamp e < cacheExpiry c →
         r.1 = Some (data e) ∧
         recipeCacheSize (getStats r.2) = recipeCacheSize (getStats c)) ∧
      (cacheExpiry c ≤ now - timestamp e →
         r.1 = None ∧
         recipeCache r.2 = Map_delete id (recipeCache c) ∧
         Map_get id (recipeCache r.2) = None ∧
         recipeCacheSize (getStats r.2) = recipeCacheSize (getStats c) - 1) ∧
      (∀ id' now', id' ≠ id →
         Map_get id (recipeCache (getCachedRecipe c now' id').2) = Some e) ∧
      (∀ q now', recipeCache (getCachedSearch c now' q).2 = recipeCache c)) ∧
  (∀ q e,
      Map_ok (searchCache c) → Map_get q (searchCache c) = Some e →
      let r := getCachedSearch c now q in
      (now - timestamp e < cacheExpiry c →
         r.1 = Some (data e) ∧
         searchCacheSize (getStats r.2) = searchCacheSize (getStats c)) ∧
      (cacheExpiry c ≤ now - timestamp e →
         r.1 = None ∧
         searchCache r.2 = Map_delete q (searchCache c) ∧
         Map_get q (searchCache r.2) = None ∧
         searchCacheSize (getStats r.2) = searchCacheSize (getStats c) - 1) ∧
      (∀ q' now', q' ≠ q →
         Map_get q (searchCache (getCachedSearch c now' q').2) = Some e) ∧
      (∀ id now', searchCache (getCachedRecipe c now' id).2 = searchCache c)).
Proof.
  split.
  - intros id e Hok Hg r. subst r. split_and!.
    + intros Hv. rewrite getCachedRecipe_eq, (getCached_hit _ _ _ _ e) by done.
      simpl. split; [done|]. apply Map_size_mutate.
    + intros Hv. rewrite getCachedRecipe_eq, (getCached_expired _ _ _ _ e) by done.
      simpl. split_and!; [done|done|by apply Map_get_delete_eq|].
      apply Map_size_delete. eauto.
    + intros id' now' Hne. rewrite getCachedRecipe_eq. simpl.
      by rewrite getCached_other.
    + intros q now'. by rewrite getCachedSearch_eq.
  - intros q e Hok Hg r. subst r. split_and!.
    + intros Hv. rewrite getCachedSearch_eq, (getCached_hit _ _ _ _ e) by done.
      simpl. split; [done|]. apply Map_size_mutate.
    + intros Hv. rewrite getCachedSearch_eq, (getCached_expired _ _ _ _ e) by done.
      simpl. split_and!; [done|done|by apply Map_get_delete_eq|].
      apply Map_size_delete. eauto.
    + intros q' now' Hne. rewrite getCachedSearch_eq. simpl.
      by rewrite getCached_other.
    + intros id now'. by rewrite getCachedRecipe_eq.
Qed.

(** C6. A lookup that finds a non-expired entry changes that entry's
    [accessCount] and nothing else: its [data] and [timestamp], the order
    and the entries of the other keys of the collection, the other
    collection and the configuration stay as they were. The entry expires
    when it would have without the lookup. *)
Theorem C6_valid_get_frame c now :
  (∀ id e,
      Map_get id (recipeCache c) = Some e → now - timestamp e < cacheExpiry c →
      let c' := (getCachedRecipe c now id).2 in
      Map_get id (recipeCache c') =
        Some (mkEntry (data e) (timestamp e) (accessCount e + 1)) ∧
      Map_keys (recipeCache c') = Map_keys (recipeCache c) ∧
      (∀ id', id' ≠ id → Map_get id' (recipeCache c') = Map_get id' (recipeCache c)) ∧
      searchCache c' = searchCache c ∧
      cacheExpiry c' = cacheExpiry c ∧ maxCacheSize c' = maxCacheSize c ∧
      (∀ e' later, Map_get id (recipeCache c') = Some e' →
         isValid (cacheExpiry c') later e' = isValid (cacheExpiry c) later e)) ∧
  (∀ q e,
      Map_get q (searchCache c) = Some e → now - timestamp e < cacheExpiry c →
      let c' := (getCachedSearch c now q).2 in
      Map_get q (searchCache c') =
        Some (mkEntry (data e) (timestamp e) (accessCount e + 1)) ∧
      Map_keys (searchCache c') = Map_keys (searchCache c) ∧
      (∀ q', q' ≠ q → Map_get q' (searchCache c') = Map_get q' (searchCache c)) ∧
      recipeCache c' = recipeCache c ∧
      cacheExpiry c' = cacheExpiry c ∧ maxCacheSize c' = maxCacheSize c ∧
      (∀ e' later, Map_get q (searchCache c') = Some e' →
         isValid (cacheExpiry c') later e' = isValid (cacheExpiry c) later e)).
Proof.
  split.
  - intros id e Hg Hv c'. subst c'.
    rewrite getCachedRecipe_eq, (getCached_hit _ _ _ _ e) by done. simpl.
    assert (Map_get id (Map_mutate id bump (recipeCache c)) = Some (bump e)) as Hm
      by by rewrite Map_get_mutate_eq, Hg.
    split_and!; try done.
    + apply Map_keys_mutate.
    + intros id' Hne. by apply Map_get_mutate_ne.
    + intros e' later He'. rewrite Hm in He'. by injection He' as <-.
  - intros q e Hg Hv c'. subst c'.
    rewrite getCachedSearch_eq, (getCached_hit _ _ _ _ e) by done. simpl.
    assert (Map_get q (Map_mutate q bump (searchCache c)) = Some (bump e)) as Hm
      by by rewrite Map_get_mutate_eq, Hg.
    split_and!; try done.
    + apply Map_keys_mutate.
    + intros q' Hne. by apply Map_get_mutate_ne.
    + intros e' later He'. rewrite Hm in He'. by injection He' as <-.
Qed.

(** C7. [set] on a key that already has an entry leaves exactly one entry
    for the key, with the new data, [timestamp = now] and
    [accessCount = 1], whatever the timestamp and the count of the entry
    it replaces. *)
Theorem C7_overwrite_is_fresh c now :
  (∀ id e d,
      Map_ok (recipeCache c) → Map_get id (recipeCache c) = Some e →
      now - timestamp e < cacheExpiry c →
      ∃ c', setCachedRecipe c now id d = Some c' ∧
            Map_get id (recipeCache c') = Some (mkEntry d now 1) ∧
            (∀ e', (id, e') ∈ recipeCache c' → e' = mkEntry d now 1)) ∧
  (∀ q e d,
      Map_ok (searchCache c) → Map_get q (searchCache c) = Some e →
      now - timestamp e < cacheExpiry c →
      ∃ c', setCachedSearch c now q d = Some c' ∧
            Map_get q (searchCache c') = Some (mkEntry d now 1) ∧
            (∀ e', (q, e') ∈ searchCache c' → e' = mkEntry d now 1)).
Proof.
  assert (∀ (K : Type) `{EqDecision K} maxSz (k : K) (T : Type) (d : T) cache kept,
    Map_ok cache → evictIfNeeded maxSz now cache = Some kept →
    ∀ e', (k, e') ∈ Map_set k (mkEntry d now 1) kept → e' = mkEntry d now 1)
    as Hone.
  { intros K ? maxSz k T d cache kept Hok Hev e' Hin.
    assert (Map_ok (Map_set k (mkEntry d now 1) kept)) as Hok'.
    { apply Map_ok_set.
      destruct (decide (maxSz ≤ Map_size cache)).
      - rewrite evictIfNeeded_full in Hev by done. injection Hev as <-.
        by apply delete_all_ok.
      - rewrite evictIfNeeded_below in Hev by lia. by injection Hev as <-. }
    apply (Map_get_elem _ _ _ Hok') in Hin.
    rewrite Map_get_set_eq in Hin. by injection Hin as <-. }
  split.
  - intros id e d Hok Hg _.
    destruct (setCachedRecipe_eq c now id d) as (kept & Hev & Hset).
    eexists. split; [done|]. simpl. split; [apply Map_get_set_eq|].
    by eapply Hone.
  - intros q e d Hok Hg _.
    destruct (setCachedSearch_eq c now q d) as (kept & Hev & Hset).
    eexists. split; [done|]. simpl. split; [apply Map_get_set_eq|].
    by eapply Hone.
Qed.

(** C9. Below capacity the eviction check changes nothing, and [set] only
    writes its own key: every other key keeps its entry, whether the key
    written is new or already present. *)
Theorem C9_no_eviction_below_capacity c now :
  (∀ id d,
      Map_size (recipeCache c) < maxCacheSize c →
      evictIfNeeded (maxCacheSize c) now (recipeCache c) = Some (recipeCache c) ∧
      ∃ c', setCachedRecipe c now id d = Some c' ∧
            recipeCache c' = Map_set id (mkEntry d now 1) (recipeCache c) ∧
            (∀ id', id' ≠ id →
               Map_get id' (recipeCache c') = Map_get id' (recipeCache c)) ∧
            Map_keys (recipeCache c) ⊆ Map_keys (recipeCache c') ∧
            searchCache c' = searchCache c) ∧
  (∀ q d,
      Map_size (searchCache c) < maxCacheSize c →
      evictIfNeeded (maxCacheSize c) now (searchCache c) = Some (searchCache c) ∧
      ∃ c', setCachedSearch c now q d = Some c' ∧
            searchCache c' = Map_set q (mkEntry d now 1) (searchCache c) ∧
            (∀ q', q' ≠ q →
               Map_get q' (searchCache c') = Map_get q' (searchCache c)) ∧
            Map_keys (searchCache c) ⊆ Map_keys (searchCache c') ∧
            recipeCache c' = recipeCache c).
Proof.
  assert (∀ (K V : Type) `{EqDecision K} (k : K) (v : V) m,
    Map_keys m ⊆ Map_keys (Map_set k v m)) as Hkeys.
  { intros K V ? k v m. rewrite Map_keys_set.
    destruct (Map_get k m); [done|]. by apply list_subseteq_app_l. }
  split.
  - intros id d Hlt.
    pose proof (evictIfNeeded_below _ now _ Hlt) as Hev. split; [done|].
    destruct (setCachedRecipe_eq c now id d) as (kept & Hev' & Hset).
    rewrite Hev in Hev'. injection Hev' as <-.
    eexists. split; [done|]. simpl. split_and!; try done.
    intros id' Hne. by apply Map_get_set_ne.
  - intros q d Hlt.
    pose proof (evictIfNeeded_below _ now _ Hlt) as Hev. split; [done|].
    destruct (setCachedSearch_eq c now q d) as (kept & Hev' & Hset).
    rewrite Hev in Hev'. injection Hev' as <-.
    eexists. split; [done|]. simpl. split_and!; try done.
    intros q' Hne. by apply Map_get_set_ne.
Qed.

(** C10. An explicit [ttl: 0] or [maxSize: 0] is falsy and gives way to the
    default, 300000 ms and 1000 entries; no options object yields a zero
    expiry or a zero capacity. *)
Theorem C10_zero_options_fall_back :
  (∀ m, cacheExpiry (constructor (DetailedRecipe:=R) (MCPResponse:=S)
                       (mkOptions (Some 0) m)) = 300000) ∧
  (∀ t, maxCacheSize (constructor (DetailedRecipe:=R) (MCPResponse:=S)
                        (mkOptions t (Some 0))) = 1000) ∧
  (∀ options,
      cacheExpiry (constructor (DetailedRecipe:=R) (MCPResponse:=S) options) ≠ 0 ∧
      maxCacheSize (constructor (DetailedRecipe:=R) (MCPResponse:=S) options) ≠ 0).
Proof.
  split_and!; [done|done|].
  intros [[t|] [m|]]; unfold constructor, num_or; simpl;
    repeat match goal with
           | |- context [?x =? 0] => destruct (Z.eqb_spec x 0)
           end; split; lia.
Qed.
End CacheClaims.

(** ** Properties of the specification: eviction *)

Section EvictionClaims.
Context {K T : Type} `{EqDecision K}.
Implicit Types (cache kept : list (K * CacheEntry T)).

Lemma delete_all_keys (rs : list (K * CacheEntry T)) cache :
  Map_keys (delete_all rs cache) ⊆ Map_keys cache.
Proof.
  unfold delete_all. revert cache.
  induction rs as [|r rs IH]; intros cache; simpl; [done|].
  etrans; [apply IH|]. apply Map_keys_delete_subseteq.
Qed.

Lemma evictIfNeeded_keys maxSz now cache kept :
  evictIfNeeded maxSz now cache = Some kept → Map_keys kept ⊆ Map_keys cache.
Proof.
  intros Hev. destruct (decide (maxSz ≤ Map_size cache)).
  - rewrite evictIfNeeded_full in Hev by done. injection Hev as <-.
    apply delete_all_keys.
  - rewrite evictIfNeeded_below in Hev by lia. by injection Hev as <-.
Qed.

End EvictionClaims.

(** ** Properties of the specification: sequences of calls *)

Section CallClaims.
Context {R S : Type}.
Implicit Types (c : CacheManager R S).

Lemma with_recipeCache_id c : with_recipeCache c (recipeCache c) = c.
Proof. by destruct c. Qed.

Lemma with_searchCache_id c : with_searchCache c (searchCache c) = c.
Proof. by destruct c. Qed.

Lemma getCached_absent {K T} `{EqDecision K} expiry now (k k' : K)
    (cache : list (K * CacheEntry T)) :
  Map_get k cache = None → Map_get k (getCached expiry now k' cache).2 = None.
Proof.
  rewrite !Map_get_None. intros Hk Hin. apply Hk.
  by apply (getCached_keys expiry now k').
Qed.

Lemma setCached_absent {K T} `{EqDecision K} maxSz now (k k' : K) (d : T)
    (cache cache' : list (K * CacheEntry T)) :
  k' ≠ k → Map_get k cache = None →
  setCached maxSz now k' d cache = Some cache' → Map_get k cache' = None.
Proof.
  intros Hne Hk Hset.
  destruct (setCached_eq maxSz now k' d cache) as (kept & Hev & Heq).
  rewrite Heq in Hset. injection Hset as <-.
  rewrite Map_get_set_ne by done.
  apply Map_get_None. apply Map_get_None in Hk.
  intros Hin. apply Hk. by apply (evictIfNeeded_keys _ _ _ _ Hev).
Qed.

Lemma call_absent_recipe c now op c' id :
  (∀ d, op ≠ SetRecipe id d) → Map_get id (recipeCache c) = None →
  call c now op = Some c' → Map_get id (recipeCache c') = None.
Proof.
  intros Hop Hk. destruct op as [id'|id' d|q|q d| |]; simpl; intros Hc.
  - injection Hc as <-. rewrite getCachedRecipe_eq. simpl.
    by apply getCached_absent.
  - unfold setCachedRecipe in Hc.
    destruct (setCached _ _ _ _ _) as [m|] eqn:Hset; [|done].
    injection Hc as <-. simpl.
    apply (setCached_absent _ _ _ _ _ _ _ (λ Heq, Hop d (f_equal (λ i, SetRecipe i d) Heq)) Hk Hset).
  - injection Hc as <-. by rewrite getCachedSearch_eq.
  - unfold setCachedSearch in Hc.
    destruct (setCached _ _ _ _ _) as [m|] eqn:Hset; [|done].
    by injection Hc as <-.
  - by injection Hc as <-.
  - by injection Hc as <-.
Qed.

Lemma call_absent_search c now op c' q :
  (∀ d, op ≠ SetSearch q d) → Map_get q (searchCache c) = None →
  call c now op = Some c' → Map_get q (searchCache c') = None.
Proof.
  intros Hop Hk. destruct op as [id'|id' d|q'|q' d| |]; simpl; intros Hc.
  - injection Hc as <-. by rewrite getCachedRecipe_eq.
  - unfold setCachedRecipe in Hc.
    destruct (setCached _ _ _ _ _) as [m|] eqn:Hset; [|done].
    by injection Hc as <-.
  - injection Hc as <-. rewrite getCachedSearch_eq. simpl.
    by apply getCached_absent.
  - unfold setCachedSearch in Hc.
    destruct (setCached _ _ _ _ _) as [m|] eqn:Hset; [|done].
    injection Hc as <-. simpl.
    apply (setCached_absent _ _ _ _ _ _ _ (λ Heq, Hop d (f_equal (λ i, SetSearch i d) Heq)) Hk Hset).
  - by injection Hc as <-.
  - by injection Hc as <-.
Qed.

Lemma calls_absent_recipe c ops c' id :
  (∀ t d, (t, SetRecipe id d) ∉ ops) → Map_get id (recipeCache c) = None →
  calls c ops = Some c' → Map_get id (recipeCache c') = None.
Proof.
  revert c. induction ops as [|[now op] ops IH]; intros c Hops Hk; simpl.
  - by intros [= <-].
  - destruct (call c now op) as [c1|] eqn:Hc; [|done]. simpl.
    apply IH.
    + intros t d Hin. apply (Hops t d). apply elem_of_cons. by right.
    + eapply call_absent_recipe; [|done..].
      intros d ->. apply (Hops now d). apply elem_of_cons. by left.
Qed.

Lemma calls_absent_search c ops c' q :
  (∀ t d, (t, SetSearch q d) ∉ ops) → Map_get q (searchCache c) = None →
  calls c ops = Some c' → Map_get q (searchCache c') = None.
Proof.
  revert c. induction ops as [|[now op] ops IH]; intros c Hops Hk; simpl.
  - by intros [= <-].
  - destruct (call c now op) as [c1|] eqn:Hc; [|done]. simpl.
    apply IH.
    + intros t d Hin. apply (Hops t d). apply elem_of_cons. by right.
    + eapply call_absent_search; [|done..].
      intros d ->. apply (Hops now d). apply elem_of_cons. by left.
Qed.

(** C8. No sequence of calls raises: from any manager, every sequence of
    [get], [set], [getStats] and [clear] runs to the end. After any
    sequence of calls on a new manager, a lookup of a key that no call
    has set returns nothing and leaves the manager as it is. *)
Theorem C8_total_and_miss :
  (∀ c ops, is_Some (calls c ops)) ∧
  (∀ options ops,
      ∃ c', calls (constructor (DetailedRecipe:=R) (MCPResponse:=S) options) ops = Some c' ∧
        (∀ id now, (∀ t d, (t, SetRecipe id d) ∉ ops) →
           getCachedRecipe c' now id = (None, c')) ∧
        (∀ q now, (∀ t d, (t, SetSearch q d) ∉ ops) →
           getCachedSearch c' now q = (None, c'))).
Proof.
  split; [apply calls_total|].
  intros options ops.
  destruct (calls_total (constructor options) ops) as [c' Hc']. exists c'.
  split_and!; [done| |].
  - intros id now Hops.
    rewrite getCachedRecipe_eq, getCached_miss; simpl.
    + by rewrite with_recipeCache_id.
    + by apply (calls_absent_recipe (constructor options) ops c' id Hops eq_refl Hc').
  - intros q now Hops.
    rewrite getCachedSearch_eq, getCached_miss; simpl.
    + by rewrite with_searchCache_id.
    + by apply (calls_absent_search (constructor options) ops c' q Hops eq_refl Hc').
Qed.

(** *** The capacity bound *)

Lemma setCached_size_bound {K T} `{EqDecision K} maxSz now (k : K) (d : T)
    (cache cache' : list (K * CacheEntry T)) :
  4 ≤ maxSz → Map_ok cache → Map_size cache ≤ maxSz →
  setCached maxSz now k d cache = Some cache' → Map_size cache' ≤ maxSz.
Proof.
  intros H4 Hok Hsz Hset.
  destruct (setCached_eq maxSz now k d cache) as (kept & Hev & Heq).
  rewrite Heq in Hset. injection Hset as <-.
  assert (Map_size kept ≤ maxSz - 1) as Hkept.
  { destruct (decide (maxSz ≤ Map_size cache)) as [Hfull|Hbelow].
    - rewrite evictIfNeeded_full in Hev by done. injection Hev as <-.
      unfold Map_size in *. rewrite delete_coldest_perm by done.
      rewrite length_drop, Array_sort_length.
      pose proof (toRemove_le_size maxSz cache Hfull) as Hn.
      assert (1 ≤ toRemove maxSz)
        by (unfold toRemove; apply Z.div_le_lower_bound; lia).
      lia.
    - rewrite evictIfNeeded_below in Hev by lia. injection Hev as <-. lia. }
  rewrite Map_size_set. destruct (Map_get k kept); lia.
Qed.

(** From [maxSize = 4] on, where the eviction batch is not empty, no
    sequence of calls takes a collection past [maxSize]. *)
Lemma size_bound_from_4 c ops c' :
  4 ≤ maxCacheSize c → manager_ok c →
  Map_size (recipeCache c) ≤ maxCacheSize c →
  Map_size (searchCache c) ≤ maxCacheSize c →
  calls c ops = Some c' →
  Map_size (recipeCache c') ≤ maxCacheSize c' ∧
  Map_size (searchCache c') ≤ maxCacheSize c'.
Proof.
  revert c. induction ops as [|[now op] ops IH]; intros c H4 Hok Hr Hs; simpl.
  - by intros [= <-].
  - destruct (call c now op) as [c1|] eqn:Hc; [|done]. simpl.
    pose proof (call_ok _ _ _ _ Hok Hc) as Hok1.
    destruct (call_config _ _ _ _ Hc) as [_ Hmax].
    destruct Hok as (Hrm & _ & Hsm & _).
    apply IH; [by rewrite Hmax|done|rewrite Hmax..]; clear IH.
    + destruct op as [id|id d|q|q d| |]; simpl in Hc.
      * injection Hc as <-. rewrite getCachedRecipe_eq. simpl.
        etrans; [apply getCached_size|done].
      * unfold setCachedRecipe in Hc.
        destruct (setCached _ _ _ _ _) as [m|] eqn:Hset; [|done].
        injection Hc as <-. simpl. by eapply setCached_size_bound.
      * injection Hc as <-. by rewrite getCachedSearch_eq.
      * unfold setCachedSearch in Hc.
        destruct (setCached _ _ _ _ _) as [m|] eqn:Hset; [|done].
        by injection Hc as <-.
      * by injection Hc as <-.
      * injection Hc as <-. unfold Map_size. simpl. lia.
    + destruct op as [id|id d|q|q d| |]; simpl in Hc.
      * injection Hc as <-. by rewrite getCachedRecipe_eq.
      * unfold setCachedRecipe in Hc.
        destruct (setCached _ _ _ _ _) as [m|] eqn:Hset; [|done].
        by injection Hc as <-.
      * injection Hc as <-. rewrite getCachedSearch_eq. simpl.
        etrans; [apply getCached_size|done].
      * unfold setCachedSearch in Hc.
        destruct (setCached _ _ _ _ _) as [m|] eqn:Hset; [|done].
        injection Hc as <-. simpl. by eapply setCached_size_bound.
      * by injection Hc as <-.
      * injection Hc as <-. unfold Map_size. simpl. lia.
Qed.
End CallClaims.

(** C4. With [maxSize: 1] the eviction batch is [floor(0.25) = 0] entries:
    the second [set] of a new key finds the collection at capacity, removes
    nothing and takes it to two entries. *)
Theorem C4_capacity_exceeded :
  ∃ c',
    calls (constructor (DetailedRecipe:=string) (MCPResponse:=string)
             (mkOptions None (Some 1)))
          [(1, SetRecipe 1 "Negroni"); (2, SetRecipe 2 "Daiquiri")] = Some c' ∧
    maxCacheSize c' = 1 ∧
    recipeCacheSize (getStats c') = 2.
Proof. eexists. split_and!; reflexivity. Qed.

(** ** Properties of the specification: merging parsed facets *)

Lemma enhanceSearchArgs_eq args p :
  enhanceSearchArgs args p =
    own_inc ← (if (0 <? length (ingredients p))%nat
               then spread (js_or (prop args "must_include") (VArr []))
               else Some []);
    own_exc ← (if (0 <? length (excludes p))%nat
               then spread (js_or (prop args "must_exclude") (VArr []))
               else Some []);
    let e1 := if truthy (opt_str (strength p))
                 && negb (truthy (prop args "preferred_strength"))
              then <["preferred_strength" := opt_str (strength p)]> args else args in
    let e2 := if (0 <? length (flavors p))%nat
                 && negb (truthy (prop args "preferred_flavors"))
              then <["preferred_flavors" := str_arr (flavors p)]> e1 else e1 in
    let e3 := if (0 <? length (ingredients p))%nat
              then <["must_include" := VArr (own_inc ++ (VStr <$> ingredients p))]> e2
              else e2 in
    let e4 := if (0 <? length (excludes p))%nat
              then <["must_exclude" := VArr (own_exc ++ (VStr <$> excludes p))]> e3
              else e3 in
    let e5 := if truthy (opt_str (glass p)) && negb (truthy (prop args "glass_type"))
              then <["glass_type" := opt_str (glass p)]> e4 else e4 in
    let e6 := if truthy (opt_str (method p))
                 && negb (truthy (prop args "preparation_method"))
              then <["preparation_method" := opt_str (method p)]> e5 else e5 in
    Some e6.
Proof.
  unfold enhanceSearchArgs.
  destruct (0 <? length (ingredients p))%nat, (0 <? length (excludes p))%nat;
    simpl; repeat (destruct (spread _); simpl); reflexivity.
Qed.

Lemma enhanceSearchArgs_fields args p out :
  enhanceSearchArgs args p = Some out →
  ∃ own_inc own_exc,
    (if (0 <? length (ingredients p))%nat
     then spread (js_or (prop args "must_include") (VArr []))
     else Some []) = Some own_inc ∧
    (if (0 <? length (excludes p))%nat
     then spread (js_or (prop args "must_exclude") (VArr []))
     else Some []) = Some own_exc ∧
    out !! "preferred_strength" =
      (if truthy (opt_str (strength p)) && negb (truthy (prop args "preferred_strength"))
       then Some (opt_str (strength p)) else args !! "preferred_strength") ∧
    out !! "preferred_flavors" =
      (if (0 <? length (flavors p))%nat && negb (truthy (prop args "preferred_flavors"))
       then Some (str_arr (flavors p)) else args !! "preferred_flavors") ∧
    out !! "must_include" =
      (if (0 <? length (ingredients p))%nat
       then Some (VArr (own_inc ++ (VStr <$> ingredients p)))
       else args !! "must_include") ∧
    out !! "must_exclude" =
      (if (0 <? length (excludes p))%nat
       then Some (VArr (own_exc ++ (VStr <$> excludes p)))
       else args !! "must_exclude") ∧
    out !! "glass_type" =
      (if truthy (opt_str (glass p)) && negb (truthy (prop args "glass_type"))
       then Some (opt_str (glass p)) else args !! "glass_type") ∧
    out !! "preparation_method" =
      (if truthy (opt_str (method p)) && negb (truthy (prop args "preparation_method"))
       then Some (opt_str (method p)) else args !! "preparation_method") ∧
    (∀ name, name ∉ written_fields → out !! name = args !! name).
Proof.
  rewrite enhanceSearchArgs_eq. intros Hout.
  destruct (if (0 <? length (ingredients p))%nat then _ else _) as [own_inc|];
    [|done].
  destruct (if (0 <? length (excludes p))%nat then _ else _) as [own_exc|];
    [|done].
  simpl in Hout. injection Hout as <-. exists own_inc, own_exc.
  split; [done|]. split; [done|].
  split_and!.
  - lookup_written; reflexivity.
  - lookup_written; reflexivity.
  - lookup_written; reflexivity.
  - lookup_written; reflexivity.
  - lookup_written; reflexivity.
  - lookup_written; reflexivity.
  - intros name Hname. unfold written_fields in Hname.
    repeat (apply not_elem_of_cons in Hname as [? Hname]).
    lookup_written; reflexivity.
Qed.

Lemma fill_rule (wanted supplied : bool) (o a : option value) (v : value) :
  o = (if wanted && negb supplied then Some v else a) →
  (supplied = true → o = a) ∧ (o ≠ a → supplied = false ∧ o = Some v).
Proof. destruct wanted, supplied; simpl; intros ->; split; done. Qed.

Lemma nonempty_length (l : list string) : (0 <? length l)%nat = bool_decide (l ≠ []).
Proof. by destruct l. Qed.

(** C5, as the code has it. Each of [preferred_strength],
    [preferred_flavors], [glass_type] and [preparation_method] keeps the
    caller's value whenever that value is truthy, and differs from the
    caller's only by taking the parsed facet over an absent or falsy value.
    [must_include] and [must_exclude] are the caller's entries followed by
    the parsed ingredients and excludes whenever the parsed list is not
    empty. Every other field is copied. The merge returns whenever the
    caller's [must_include] and [must_exclude] can be spread. In particular
    a caller's [preferred_strength: "strong"] survives a parsed ["light"]. *)
Theorem C5_explicit_wins_when_truthy :
  (∀ args p out,
      enhanceSearchArgs args p = Some out →
      (∀ name v, (name, v) ∈ filled_fields p →
         (truthy (prop args name) = true → out !! name = args !! name) ∧
         (out !! name ≠ args !! name →
            truthy (prop args name) = false ∧ out !! name = Some v)) ∧
      (ingredients p = [] → out !! "must_include" = args !! "must_include") ∧
      (ingredients p ≠ [] →
         ∃ own, spread (js_or (prop args "must_include") (VArr [])) = Some own ∧
                out !! "must_include" = Some (VArr (own ++ (VStr <$> ingredients p)))) ∧
      (excludes p = [] → out !! "must_exclude" = args !! "must_exclude") ∧
      (excludes p ≠ [] →
         ∃ own, spread (js_or (prop args "must_exclude") (VArr [])) = Some own ∧
                out !! "must_exclude" = Some (VArr (own ++ (VStr <$> excludes p)))) ∧
      (∀ name, name ∉ written_fields → out !! name = args !! name)) ∧
  (∀ args p,
      ingredients p = [] ∨ spreadable (prop args "must_include") →
      excludes p = [] ∨ spreadable (prop args "must_exclude") →
      is_Some (enhanceSearchArgs args p)) ∧
  (∀ p, strength p = Some "light" →
      ∃ out, enhanceSearchArgs {[ "preferred_strength" := VStr "strong" ]} p = Some out ∧
             out !! "preferred_strength" = Some (VStr "strong")).
Proof.
  split_and!.
  - intros args p out Hout.
    destruct (enhanceSearchArgs_fields args p out Hout)
      as (own_inc & own_exc & Hinc & Hexc & Hs & Hf & Hi & He & Hg & Hm & Hrest).
    rewrite nonempty_length in Hinc, Hexc, Hi, He.
    split_and!; [|..|done].
    + intros name v Hin. unfold filled_fields in Hin.
      repeat (apply elem_of_cons in Hin as [[= -> ->]|Hin]);
        [by eapply fill_rule..|by apply elem_of_nil in Hin].
    + intros Hnil. by rewrite bool_decide_eq_false_2 in Hi by by intros ?.
    + intros Hne. rewrite bool_decide_eq_true_2 in Hinc, Hi by done. eauto.
    + intros Hnil. by rewrite bool_decide_eq_false_2 in He by by intros ?.
    + intros Hne. rewrite bool_decide_eq_true_2 in Hexc, He by done. eauto.
  - intros args p Hinc Hexc. rewrite enhanceSearchArgs_eq.
    rewrite !nonempty_length.
    assert (is_Some (if bool_decide (ingredients p ≠ [])
                     then spread (js_or (prop args "must_include") (VArr []))
                     else Some [])) as [own_inc ->].
    { case_bool_decide as Hne; [|eauto]. by destruct Hinc. }
    assert (is_Some (if bool_decide (excludes p ≠ [])
                     then spread (js_or (prop args "must_exclude") (VArr []))
                     else Some [])) as [own_exc ->].
    { case_bool_decide as Hne; [|eauto]. by destruct Hexc. }
    simpl. eauto.
  - intros p Hlight.
    set (args := {[ "preferred_strength" := VStr "strong" ]} : gmap string value).
    assert (∀ name, name ≠ "preferred_strength" → spreadable (prop args name))
      as Hspread.
    { intros name Hne. unfold spreadable, prop, args.
      rewrite lookup_singleton_ne by done. simpl. eauto. }
    assert (is_Some (enhanceSearchArgs args p)) as [out Hout].
    { rewrite enhanceSearchArgs_eq, !nonempty_length.
      destruct (Hspread "must_include") as [own_inc Hi]; [done|].
      destruct (Hspread "must_exclude") as [own_exc He]; [done|].
      rewrite Hi, He.
      destruct (bool_decide (ingredients p ≠ [])),
               (bool_decide (excludes p ≠ [])); simpl; eauto. }
    exists out. split; [done|].
    destruct (enhanceSearchArgs_fields args p out Hout)
      as (_ & _ & _ & _ & Hs & _).
    rewrite Hs. unfold prop, args. rewrite lookup_singleton_eq. simpl.
    by rewrite andb_false_r.
Qed.

(** The general form of C5 fails on one input in two ways. The caller
    supplies [must_include: ["gin"]] and [preferred_strength: ""]; the query
    is light and mentions Campari. The merged [must_include] is the caller's
    list extended by the parsed ingredient, and the merged
    [preferred_strength] is the parsed one, because the caller's empty
    string is falsy. *)
Lemma C5_supplied_fields_overwritten :
  let args : gmap string value :=
    <["must_include" := VArr [VStr "gin"]]> {[ "preferred_strength" := VStr "" ]} in
  let parsed :=
    mkParsedQuery (Some "light") [] None None [] ["campari"] None None None None in
  args !! "must_include" = Some (VArr [VStr "gin"]) ∧
  args !! "preferred_strength" = Some (VStr "") ∧
  ∃ out, enhanceSearchArgs args parsed = Some out ∧
         out !! "must_include" = Some (VArr [VStr "gin"; VStr "campari"]) ∧
         out !! "must_include" ≠ args !! "must_include" ∧
         out !! "preferred_strength" = Some (VStr "light") ∧
         out !! "preferred_strength" ≠ args !! "preferred_strength".
Proof.
  intros args parsed. split; [done|]. split; [done|].
  eexists. split; [reflexivity|]. split_and!; done.
Qed.

(** ** The properties at sample data *)

Lemma demo_ok : manager_ok demo.
Proof.
  unfold manager_ok, Map_ok, entries_ok, Map_keys. simpl.
  split_and!;
    [apply (bool_decide_unpack _); vm_compute; exact I| |
     apply (bool_decide_unpack _); vm_compute; exact I|];
    repeat (apply Forall_cons; split; [simpl; lia|]); apply Forall_nil_2.
Defined.

Example demo_eviction :
  evictIfNeeded 4 400 (recipeCache demo)
    = Some [(1, mkEntry "Negroni" 100 3); (3, mkEntry "Mojito" 250 2);
            (4, mkEntry "Martini" 300 1)].
Proof. vm_compute. reflexivity. Qed.

(** An entry stored at the current clock reading has age 0 and scores
    [Infinity]: it sorts behind every older entry. *)
Example fresh_entry_sorts_last :
  compareFn (K:=Z) 400 (1, mkEntry "Spritz" 400 1) (2, mkEntry "Negroni" 100 50) = Gt ∧
  compareFn (K:=Z) 400 (1, mkEntry "Spritz" 400 1) (2, mkEntry "Mojito" 400 7) = Eq.
Proof. split; vm_compute; reflexivity. Qed.

(** Entries with equal scores leave the array in insertion order. *)
Example ties_keep_insertion_order :
  Array_sort (compareFn (K:=Z) 400)
    [(1, mkEntry "Negroni" 100 3); (2, mkEntry "Martini" 300 1);
     (3, mkEntry "Daiquiri" 200 2)]
  = [(1, mkEntry "Negroni" 100 3); (2, mkEntry "Martini" 300 1);
     (3, mkEntry "Daiquiri" 200 2)].
Proof. vm_compute. reflexivity. Qed.

(** Two quotients that differ can round to the same binary64 score. The
    first entry below has the higher quotient, [134217728 / 134217729]
    against [134217727 / 134217728]; both are the score
    [0.9999999925494194], the comparator returns zero, and the eviction
    takes the entry that was inserted first. *)
Example rounding_tie_evicts_first_inserted :
  134217727 * 134217729 < 134217728 * 134217728 ∧
  score 134217730 (mkEntry "Negroni" 1 134217728)
    = score 134217730 (mkEntry "Daiquiri" 2 134217727) ∧
  compareFn 134217730 (1, mkEntry "Negroni" 1 134217728)
                      (2, mkEntry "Daiquiri" 2 134217727) = Eq ∧
  evictIfNeeded 4 134217730 demo_rounding
    = Some [(2, mkEntry "Daiquiri" 2 134217727);
            (3, mkEntry "Mojito" 3 134217727);
            (4, mkEntry "Martini" 4 134217726)].
Proof. split; [lia|]. split_and!; vm_compute; reflexivity. Qed.

(** Reading past the end of [entries] is the one place where the manager
    could throw. *)
Example evictLoop_past_the_end :
  evictLoop (K:=Z) (T:=string) [] 0 1 [] = None.
Proof. reflexivity. Qed.

Lemma C1_get_after_set_witness :
  (∃ c1 cn,
      setCachedRecipe demo 400 7 "Spritz" = Some c1 ∧
      Map_get 7 (recipeCache c1) = Some (mkEntry "Spritz" 400 1) ∧
      getCachedRecipes c1 7 [500; 1399] = ([Some "Spritz"; Some "Spritz"], cn) ∧
      Map_get 7 (recipeCache cn) = Some (mkEntry "Spritz" 400 3)) ∧
  (∃ c1 cn,
      setCachedSearch demo 400 "rum" "5 results" = Some c1 ∧
      Map_get "rum" (searchCache c1) = Some (mkEntry "5 results" 400 1) ∧
      getCachedSearches c1 "rum" [401] = ([Some "5 results"], cn) ∧
      Map_get "rum" (searchCache cn) = Some (mkEntry "5 results" 400 2)).
Proof.
  split.
  - apply (proj1 (C1_get_after_set demo 400) 7 "Spritz" [500; 1399]).
    repeat (apply Forall_cons; split; [simpl; lia|]). apply Forall_nil_2.
  - apply (proj1 (proj2 (C1_get_after_set demo 400)) "rum" "5 results" [401]).
    repeat (apply Forall_cons; split; [simpl; lia|]). apply Forall_nil_2.
Defined.

Lemma C2_lazy_expiry_witness :
  ((getCachedRecipe demo 1150 2).1 = Some "Daiquiri" ∧
   recipeCacheSize (getStats (getCachedRecipe demo 1150 2).2) = 4) ∧
  ((getCachedRecipe demo 1150 1).1 = None ∧
   Map_get 1 (recipeCache (getCachedRecipe demo 1150 1).2) = None ∧
   recipeCacheSize (getStats (getCachedRecipe demo 1150 1).2) = 3) ∧
  (getCachedSearch demo 1150 "gin sour").1 = None.
Proof.
  destruct demo_ok as (Hrm & _ & Hsm & _).
  split; [|split].
  - apply (proj1 (C2_lazy_expiry demo 1150) 2 (mkEntry "Daiquiri" 200 1) Hrm eq_refl).
    simpl. lia.
  - destruct (proj1 (C2_lazy_expiry demo 1150) 1 (mkEntry "Negroni" 100 3) Hrm eq_refl)
      as (_ & Hexp & _).
    destruct Hexp as (Hr & _ & Hg & Hsz); [simpl; lia|].
    split_and!; [exact Hr|exact Hg|exact Hsz].
  - destruct (proj2 (C2_lazy_expiry demo 1150) "gin sour" (mkEntry "2 results" 150 2)
                Hsm eq_refl) as (_ & Hexp & _).
    apply Hexp. simpl. lia.
Defined.


Lemma C5_explicit_wins_when_truthy_witness :
  let out := <["must_include" := VArr [VStr "campari"]]>
               (<["preferred_flavors" := VArr [VStr "bitter"]]> demo_args) in
  enhanceSearchArgs demo_args demo_parsed = Some out ∧
  out !! "preferred_strength" = demo_args !! "preferred_strength".
Proof.
  intros out.
  assert (enhanceSearchArgs demo_args demo_parsed = Some out) as Hout
    by reflexivity.
  split; [exact Hout|].
  destruct (proj1 C5_explicit_wins_when_truthy demo_args demo_parsed out Hout)
    as (Hfilled & _).
  apply (Hfilled "preferred_strength" (VStr "light")).
  - apply elem_of_cons. left. reflexivity.
  - reflexivity.
Defined.

Lemma C6_valid_get_frame_witness :
  (Map_get 1 (recipeCache (getCachedRecipe demo 400 1).2)
     = Some (mkEntry "Negroni" 100 4) ∧
   Map_keys (recipeCache (getCachedRecipe demo 400 1).2) = [1; 2; 3; 4] ∧
   searchCache (getCachedRecipe demo 400 1).2 = searchCache demo) ∧
  (Map_get "gin sour" (searchCache (getCachedSearch demo 400 "gin sour").2)
     = Some (mkEntry "2 results" 150 3) ∧
   recipeCache (getCachedSearch demo 400 "gin sour").2 = recipeCache demo).
Proof.
  split.
  - destruct (proj1 (C6_valid_get_frame demo 400) 1 (mkEntry "Negroni" 100 3) eq_refl)
      as (Hg & Hk & _ & Hs & _); [simpl; lia|].
    split_and!; [exact Hg|exact Hk|exact Hs].
  - destruct (proj2 (C6_valid_get_frame demo 400) "gin sour"
                (mkEntry "2 results" 150 2) eq_refl)
      as (Hg & _ & _ & Hr & _); [simpl; lia|].
    split; [exact Hg|exact Hr].
Defined.

Lemma C7_overwrite_is_fresh_witness :
  (∃ c', setCachedRecipe demo_roomy 400 1 "Boulevardier" = Some c' ∧
         Map_get 1 (recipeCache c') = Some (mkEntry "Boulevardier" 400 1)) ∧
  (∃ c', setCachedSearch demo 400 "gin sour" "7 results" = Some c' ∧
         Map_get "gin sour" (searchCache c') = Some (mkEntry "7 results" 400 1)).
Proof.
  destruct demo_ok as (Hrm & _ & Hsm & _).
  split.
  - destruct (proj1 (C7_overwrite_is_fresh demo_roomy 400) 1
                (mkEntry "Negroni" 100 3) "Boulevardier" Hrm eq_refl)
      as (c' & Hset & Hg & _); [simpl; lia|].
    exists c'. split; [exact Hset|exact Hg].
  - destruct (proj2 (C7_overwrite_is_fresh demo 400) "gin sour"
                (mkEntry "2 results" 150 2) "7 results" Hsm eq_refl)
      as (c' & Hset & Hg & _); [simpl; lia|].
    exists c'. split; [exact Hset|exact Hg].
Defined.

Lemma C8_total_and_miss_witness :
  ∃ c',
    calls (constructor (DetailedRecipe:=string) (MCPResponse:=string)
             (mkOptions (Some 1000) None))
          [(1, SetRecipe 1 "Negroni"); (2, GetRecipe 1); (3, SetSearch "rum" "5 results");
           (4, GetStats); (2000, GetRecipe 1)] = Some c' ∧
    getCachedRecipe c' 2001 2 = (None, c') ∧
    getCachedSearch c' 2001 "gin" = (None, c').
Proof.
  destruct (proj2 (C8_total_and_miss (R:=string) (S:=string))
              (mkOptions (Some 1000) None)
              [(1, SetRecipe 1 "Negroni"); (2, GetRecipe 1);
               (3, SetSearch "rum" "5 results"); (4, GetStats); (2000, GetRecipe 1)])
    as (c' & Hc' & Hr & Hs).
  exists c'. split_and!; [exact Hc'| |].
  - apply Hr. intros t d Hin.
    repeat (apply elem_of_cons in Hin as [Heq|Hin]; [congruence|]).
    by apply elem_of_nil in Hin.
  - apply Hs. intros t d Hin.
    repeat (apply elem_of_cons in Hin as [Heq|Hin]; [congruence|]).
    by apply elem_of_nil in Hin.
Defined.

Lemma C9_no_eviction_below_capacity_witness :
  (∃ c', setCachedRecipe demo_roomy 400 9 "Spritz" = Some c' ∧
         recipeCache c' = recipeCache demo ++ [(9, mkEntry "Spritz" 400 1)]) ∧
  (∃ c', setCachedSearch demo 400 "gin sour" "7 results" = Some c' ∧
         searchCache c' = [("gin sour", mkEntry "7 results" 400 1)]).
Proof.
  split.
  - destruct (proj1 (C9_no_eviction_below_capacity demo_roomy 400) 9 "Spritz")
      as (_ & c' & Hset & Hm & _); [unfold Map_size; simpl; lia|].
    exists c'. split; [exact Hset|exact Hm].
  - destruct (proj2 (C9_no_eviction_below_capacity demo 400) "gin sour" "7 results")
      as (_ & c' & Hset & Hm & _); [unfold Map_size; simpl; lia|].
    exists c'. split; [exact Hset|exact Hm].
Defined.

(** * Further properties of the cache manager *)

Section StatsFacts.
Context {K T : Type} `{EqDecision K}.
Implicit Types (cache : list (K * CacheEntry T)) (e : CacheEntry T).

Lemma hits_foldl (l : list (CacheEntry T)) (acc : Z) :
  foldl (λ sum entry, sum + accessCount entry) acc l
  = acc + foldl (λ sum entry, sum + accessCount entry) 0 l.
Proof.
  revert acc. induction l as [|e l IH]; intros acc; simpl; [lia|].
  rewrite (IH (acc + accessCount e)), (IH (0 + accessCount e)). lia.
Qed.

Lemma hits_cons k e cache : hits ((k, e) :: cache) = accessCount e + hits cache.
Proof. unfold hits. csimpl. rewrite hits_foldl. lia. Qed.

Lemma hits_mutate k cache e :
  Map_get k cache = Some e → hits (Map_mutate k bump cache) = hits cache + 1.
Proof.
  induction cache as [|[k' e'] cache IH]; simpl; [done|].
  destruct (decide (k = k')) as [->|Hne]; intros Hg.
  - rewrite !hits_cons. simpl. lia.
  - rewrite !hits_cons, IH by done. lia.
Qed.

Lemma hits_delete k cache e :
  Map_get k cache = Some e → hits (Map_delete k cache) = hits cache - accessCount e.
Proof.
  induction cache as [|[k' e'] cache IH]; simpl; [done|].
  destruct (decide (k = k')) as [->|Hne]; intros Hg.
  - injection Hg as ->. rewrite hits_cons. lia.
  - rewrite !hits_cons, IH by done. lia.
Qed.

Lemma hits_set_new k d now cache :
  Map_get k cache = None → hits (Map_set k (mkEntry d now 1) cache) = hits cache + 1.
Proof.
  induction cache as [|[k' e'] cache IH]; simpl.
  - intros _. rewrite hits_cons. unfold hits. simpl. lia.
  - destruct (decide (k = k')) as [->|Hne]; [done|]. intros Hg.
    rewrite !hits_cons, IH by done. lia.
Qed.

Lemma hits_ge_size cache : entries_ok cache → Map_size cache ≤ hits cache.
Proof.
  unfold entries_ok, Map_size.
  induction 1 as [|[k e] cache He _ IH]; [done|].
  rewrite hits_cons. simpl in *. lia.
Qed.

(** With a batch of zero entries the eviction check keeps everything. *)
Lemma evictIfNeeded_small maxSz now cache :
  maxSz < 4 → evictIfNeeded maxSz now cache = Some cache.
Proof.
  intros Hsmall. destruct (decide (maxSz ≤ Map_size cache)).
  - rewrite evictIfNeeded_full by done.
    assert (toRemove maxSz ≤ 0) as Hn
      by (unfold toRemove; apply Z.lt_succ_r, Z.div_lt_upper_bound; lia).
    replace (Z.to_nat (toRemove maxSz)) with 0%nat by lia. done.
  - by apply evictIfNeeded_below; lia.
Qed.


End StatsFacts.

Section EvictionOrder.
Context {K T : Type} `{EqDecision K}.
Implicit Types (cache kept : list (K * CacheEntry T)).





End EvictionOrder.

Section ExtraCache.
Context {R S : Type}.
Implicit Types (c : CacheManager R S).

Lemma calls_config c ops c' :
  calls c ops = Some c' →
  cacheExpiry c' = cacheExpiry c ∧ maxCacheSize c' = maxCacheSize c.
Proof.
  revert c. induction ops as [|[now op] ops IH]; intros c; simpl.
  - by intros [= <-].
  - destruct (call c now op) as [c1|] eqn:Hc; [|done]. simpl. intros Hcs.
    destruct (call_config _ _ _ _ Hc) as [He Hm]. rewrite <-He, <-Hm. by apply IH.
Qed.

(** X3: the representation invariant. Whatever calls a new manager has
    served, no key occurs twice in a collection, every stored entry has
    [accessCount >= 1], and the configuration is the constructor's. *)
Theorem reachable_manager_ok options ops c' :
  calls (constructor (DetailedRecipe:=R) (MCPResponse:=S) options) ops = Some c' →
  manager_ok c' ∧
  cacheExpiry c' = num_or (ttl options) 300000 ∧
  maxCacheSize c' = num_or (maxSize options) 1000.
Proof.
  intros Hc. split.
  - eapply calls_ok; [apply constructor_ok|done].
  - by destruct (calls_config _ _ _ Hc) as [-> ->].
Qed.

(** X4: the capacity bound. With [maxSize >= 4] (the default included) the
    sizes that [getStats] reports never exceed [maxSize]. *)
Theorem capacity_bound_from_4 options ops c' :
  4 ≤ num_or (maxSize options) 1000 →
  calls (constructor (DetailedRecipe:=R) (MCPResponse:=S) options) ops = Some c' →
  recipeCacheSize (getStats c') ≤ num_or (maxSize options) 1000 ∧
  searchCacheSize (getStats c') ≤ num_or (maxSize options) 1000.
Proof.
  intros H4 Hc.
  destruct (calls_config _ _ _ Hc) as [_ Hmax]. simpl in Hmax. rewrite <-Hmax.
  apply (size_bound_from_4 (constructor options) ops); try done.
  - apply constructor_ok.
  - unfold Map_size. simpl. lia.
  - unfold Map_size. simpl. lia.
Qed.

(** X5: no eviction below four. With [maxCacheSize < 4] the batch is empty:
    [set] never removes an entry, and every [set] of a key that is not
    stored makes the collection one entry larger, at any size. *)
Theorem no_eviction_below_4 c now :
  maxCacheSize c < 4 →
  (∀ id d, ∃ c',
      setCachedRecipe c now id d = Some c' ∧
      recipeCache c' = Map_set id (mkEntry d now 1) (recipeCache c) ∧
      (Map_get id (recipeCache c) = None →
       recipeCacheSize (getStats c') = recipeCacheSize (getStats c) + 1)) ∧
  (∀ q d, ∃ c',
      setCachedSearch c now q d = Some c' ∧
      searchCache c' = Map_set q (mkEntry d now 1) (searchCache c) ∧
      (Map_get q (searchCache c) = None →
       searchCacheSize (getStats c') = searchCacheSize (getStats c) + 1)).
Proof.
  intros Hsmall. split.
  - intros id d. destruct (setCachedRecipe_eq c now id d) as (kept & Hev & Hset).
    rewrite evictIfNeeded_small in Hev by done. injection Hev as <-.
    eexists. split; [done|]. split; [done|].
    intros Hnew. simpl. by rewrite Map_size_set, Hnew.
  - intros q d. destruct (setCachedSearch_eq c now q d) as (kept & Hev & Hset).
    rewrite evictIfNeeded_small in Hev by done. injection Hev as <-.
    eexists. split; [done|]. split; [done|].
    intros Hnew. simpl. by rewrite Map_size_set, Hnew.
Qed.

(** X6: hit counters. [recipeCacheHits] and [searchCacheHits] are the sums of
    the stored [accessCount]s: a lookup that finds a live entry adds one to
    the counter of its collection, and a lookup that finds an expired entry
    takes that entry's whole count off it. The other collection's counter and
    size do not move. *)
Theorem stats_follow_lookups c now :
  (∀ id e,
      Map_get id (recipeCache c) = Some e →
      let s := getStats c in
      let s' := getStats (getCachedRecipe c now id).2 in
      (now - timestamp e < cacheExpiry c →
         recipeCacheHits s' = recipeCacheHits s + 1 ∧
         recipeCacheSize s' = recipeCacheSize s) ∧
      (cacheExpiry c ≤ now - timestamp e →
         recipeCacheHits s' = recipeCacheHits s - accessCount e ∧
         recipeCacheSize s' = recipeCacheSize s - 1) ∧
      searchCacheHits s' = searchCacheHits s ∧
      searchCacheSize s' = searchCacheSize s) ∧
  (∀ q e,
      Map_get q (searchCache c) = Some e →
      let s := getStats c in
      let s' := getStats (getCachedSearch c now q).2 in
      (now - timestamp e < cacheExpiry c →
         searchCacheHits s' = searchCacheHits s + 1 ∧
         searchCacheSize s' = searchCacheSize s) ∧
      (cacheExpiry c ≤ now - timestamp e →
         searchCacheHits s' = searchCacheHits s - accessCount e ∧
         searchCacheSize s' = searchCacheSize s - 1) ∧
      recipeCacheHits s' = recipeCacheHits s ∧
      recipeCacheSize s' = recipeCacheSize s).
Proof.
  split.
  - intros id e Hg s s'. subst s s'. rewrite getCachedRecipe_eq. simpl.
    split_and!; [| |done|done].
    + intros Hv. rewrite (getCached_hit _ _ _ _ e) by done. simpl.
      split; [by apply (hits_mutate _ _ e)|apply Map_size_mutate].
    + intros Hv. rewrite (getCached_expired _ _ _ _ e) by done. simpl.
      split; [by apply (hits_delete _ _ e)|apply Map_size_delete; eauto].
  - intros q e Hg s s'. subst s s'. rewrite getCachedSearch_eq. simpl.
    split_and!; [| |done|done].
    + intros Hv. rewrite (getCached_hit _ _ _ _ e) by done. simpl.
      split; [by apply (hits_mutate _ _ e)|apply Map_size_mutate].
    + intros Hv. rewrite (getCached_expired _ _ _ _ e) by done. simpl.
      split; [by apply (hits_delete _ _ e)|apply Map_size_delete; eauto].
Qed.

(** X7: hits count the write. After any calls on a new manager each hit
    counter is at least the size of its collection: an entry that was
    stored and never read already counts as one hit. *)
Theorem hits_at_least_size options ops c' :
  calls (constructor (DetailedRecipe:=R) (MCPResponse:=S) options) ops = Some c' →
  recipeCacheSize (getStats c') ≤ recipeCacheHits (getStats c') ∧
  searchCacheSize (getStats c') ≤ searchCacheHits (getStats c').
Proof.
  intros Hc.
  destruct (calls_ok _ _ _ (constructor_ok options) Hc) as (_ & Hr & _ & Hs).
  split; by apply hits_ge_size.
Qed.

(** X8: a TTL that is not positive. The constructor keeps a negative [ttl]
    as it is, and with [cacheExpiry <= 0] an entry is never served at or
    after the clock reading of its [set]: the lookup returns nothing and
    removes it. *)
Theorem nonpositive_ttl_never_hits :
  (∀ t m, t < 0 →
     cacheExpiry (constructor (DetailedRecipe:=R) (MCPResponse:=S)
                    (mkOptions (Some t) m)) = t) ∧
  (∀ c now now',
     cacheExpiry c ≤ 0 → now ≤ now' →
     (∀ id d, ∃ c1,
         setCachedRecipe c now id d = Some c1 ∧
         (getCachedRecipe c1 now' id).1 = None ∧
         recipeCache (getCachedRecipe c1 now' id).2 = Map_delete id (recipeCache c1)) ∧
     (∀ q d, ∃ c1,
         setCachedSearch c now q d = Some c1 ∧
         (getCachedSearch c1 now' q).1 = None ∧
         searchCache (getCachedSearch c1 now' q).2 = Map_delete q (searchCache c1))).
Proof.
  split.
  - intros t m Ht. unfold constructor, num_or. simpl.
    destruct (Z.eqb_spec t 0); [lia|done].
  - intros c now now' Httl Hnow. split.
    + intros id d. destruct (setCachedRecipe_eq c now id d) as (kept & _ & Hset).
      eexists. split; [done|].
      rewrite getCachedRecipe_eq, (getCached_expired _ _ _ _ (mkEntry d now 1)); simpl;
        [done|apply Map_get_set_eq|lia].
    + intros q d. destruct (setCachedSearch_eq c now q d) as (kept & _ & Hset).
      eexists. split; [done|].
      rewrite getCachedSearch_eq, (getCached_expired _ _ _ _ (mkEntry d now 1)); simpl;
        [done|apply Map_get_set_eq|lia].
Qed.
End ExtraCache.

(** * Properties of the query parser *)

(** ** Characters *)

Lemma toLowerChar_idemp c : toLowerChar (toLowerChar c) = toLowerChar c.
Proof. all_chars c. Qed.

Lemma is_word_lower c : is_word (toLowerChar c) = is_word c.
Proof. all_chars c. Qed.

Lemma is_space_lower c : is_space (toLowerChar c) = is_space c.
Proof. all_chars c. Qed.

Lemma is_sep_lower c : is_sep (toLowerChar c) = is_sep c.
Proof. all_chars c. Qed.

Lemma is_lower_lower c : is_lower (toLowerChar c) = is_letter c.
Proof. all_chars c. Qed.

Lemma is_letter_lower c : is_letter (toLowerChar c) = is_letter c.
Proof. all_chars c. Qed.

Lemma is_lower_fixed c : is_lower c = true → toLowerChar c = c.
Proof. destruct c as [[] [] [] [] [] [] [] []]; (reflexivity || discriminate). Qed.

Lemma is_lower_word c : is_lower c = true → is_word c = true.
Proof. destruct c as [[] [] [] [] [] [] [] []]; (reflexivity || discriminate). Qed.

Lemma is_lower_not_sep c : is_lower c = true → is_sep c = false.
Proof. destruct c as [[] [] [] [] [] [] [] []]; (reflexivity || discriminate). Qed.

Lemma is_word_not_sep c : is_word c = true → is_sep c = false.
Proof. destruct c as [[] [] [] [] [] [] [] []]; (reflexivity || discriminate). Qed.

Lemma is_space_not_word c : is_space c = true → is_word c = false.
Proof. destruct c as [[] [] [] [] [] [] [] []]; (reflexivity || discriminate). Qed.

Lemma is_sep_fixed c : is_sep c = true → toLowerChar c = c.
Proof. destruct c as [[] [] [] [] [] [] [] []]; (reflexivity || discriminate). Qed.

Lemma toLowerCase_idemp s : toLowerCase (toLowerCase s) = toLowerCase s.
Proof.
  unfold toLowerCase. rewrite <-list_fmap_compose.
  apply list_fmap_ext. intros _ c _. apply toLowerChar_idemp.
Qed.

Lemma lit_match_lower c ch : lit_match c (toLowerChar ch) = lit_match c ch.
Proof. unfold lit_match. by rewrite toLowerChar_idemp. Qed.

Lemma lit_match_letter c ch :
  is_letter c = true → lit_match c ch = true → is_letter ch = true.
Proof.
  unfold lit_match. intros Hc Hm. apply bool_decide_eq_true in Hm.
  rewrite <-is_lower_lower, Hm, is_lower_lower. done.
Qed.

(** ** The matcher against the declarative reading of a pattern *)

Lemma prev_after_nil prev : prev_after prev [] = prev.
Proof. done. Qed.

Lemma prev_after_app prev m1 m2 :
  prev_after prev (m1 ++ m2) = prev_after (prev_after prev m1) m2.
Proof.
  unfold prev_after. destruct m2 as [|c m2 _] using rev_ind.
  - rewrite app_nil_r. simpl. by destruct (last m1).
  - by rewrite app_assoc, !last_snoc.
Qed.

Lemma prev_after_cons prev c m : prev_after prev (c :: m) = prev_after (Some c) m.
Proof. apply (prev_after_app prev [c] m). Qed.

Lemma plus_k_sound {A} f s0 (k : option ascii → list ascii → option A) x :
  plus_k f s0 k = Some x →
  ∃ m s, s0 = m ++ s ∧ m ≠ [] ∧ Forall (λ c, f c = true) m ∧
         k (last m) s = Some x.
Proof.
  revert x. induction s0 as [|c s0 IH]; intros x; simpl; [done|].
  destruct (f c) eqn:Hf; [|done].
  destruct (plus_k f s0 k) as [y|] eqn:Hin.
  - intros [= ->]. destruct (IH x eq_refl) as (m & s & -> & Hne & Hall & Hk).
    exists (c :: m), s. split_and!; [done|done|by apply Forall_cons|].
    destruct m; [done|]. done.
  - intros Hk. exists [c], s0. split_and!; [done|done| |done].
    by apply Forall_singleton.
Qed.

Lemma plus_k_complete {A} f prev m s (k : option ascii → list ascii → option A) :
  m ≠ [] → Forall (λ c, f c = true) m →
  is_Some (k (prev_after prev m) s) → is_Some (plus_k f (m ++ s) k).
Proof.
  revert prev. induction m as [|c m IH]; intros prev Hne Hall Hk; [done|].
  apply Forall_cons in Hall as [Hc Hall]. simpl. rewrite Hc.
  rewrite prev_after_cons in Hk.
  destruct m as [|c' m].
  - simpl in *. destruct (plus_k f s k); eauto.
  - destruct (IH (Some c)) as [y ->]; [done|done|done|]. eauto.
Qed.

Lemma run_sound {A} r prev s0 (k : option ascii → list ascii → option A) x :
  run r prev s0 k = Some x →
  ∃ m s, s0 = m ++ s ∧ matches r prev m s ∧ k (prev_after prev m) s = Some x.
Proof.
  revert prev s0 k x.
  induction r as [| |c|f|r1 IH1 r2 IH2|r1 IH1 r2 IH2|r IH|f|];
    intros prev s0 k x; simpl.
  - intros Hk. by exists [], s0.
  - done.
  - destruct s0 as [|ch s0]; [done|]. destruct (lit_match c ch) eqn:Hm; [|done].
    intros Hk. exists [ch], s0. split_and!; [done|by exists ch|done].
  - destruct s0 as [|ch s0]; [done|]. destruct (f ch) eqn:Hm; [|done].
    intros Hk. exists [ch], s0. split_and!; [done|by exists ch|done].
  - intros Hrun.
    destruct (IH1 _ _ _ _ Hrun) as (m1 & s1 & -> & Hm1 & Hrun2).
    destruct (IH2 _ _ _ _ Hrun2) as (m2 & s & -> & Hm2 & Hk).
    exists (m1 ++ m2), s. split_and!.
    + by rewrite app_assoc.
    + by exists m1, m2.
    + by rewrite prev_after_app.
  - destruct (run r1 prev s0 k) as [y|] eqn:H1.
    + intros [= ->]. destruct (IH1 _ _ _ _ H1) as (m & s & -> & Hm & Hk).
      exists m, s. split_and!; [done|by left|done].
    + intros H2. destruct (IH2 _ _ _ _ H2) as (m & s & -> & Hm & Hk).
      exists m, s. split_and!; [done|by right|done].
  - destruct (run r prev s0 k) as [y|] eqn:H1.
    + intros [= ->]. destruct (IH _ _ _ _ H1) as (m & s & -> & Hm & Hk).
      exists m, s. split_and!; [done|by right|done].
    + intros Hk. exists [], s0. split_and!; [done|by left|done].
  - intros Hrun.
    destruct (plus_k_sound _ _ _ _ Hrun) as (m & s & -> & Hne & Hall & Hk).
    exists m, s. split_and!; [done|done|done|].
    unfold prev_after. destruct (last m) eqn:Hl; [done|].
    apply last_None in Hl. done.
  - destruct (xorb _ _) eqn:Hb; [|done].
    intros Hk. by exists [], s0.
Qed.

Lemma run_complete {A} r prev m s (k : option ascii → list ascii → option A) :
  matches r prev m s → is_Some (k (prev_after prev m) s) →
  is_Some (run r prev (m ++ s) k).
Proof.
  revert prev m s k.
  induction r as [| |c|f|r1 IH1 r2 IH2|r1 IH1 r2 IH2|r IH|f|];
    intros prev m s k; simpl.
  - by intros ->.
  - done.
  - intros (ch & -> & Hm). simpl. by rewrite Hm.
  - intros (ch & -> & Hm). simpl. by rewrite Hm.
  - intros (m1 & m2 & -> & Hm1 & Hm2) Hk. rewrite <-app_assoc.
    apply IH1; [done|]. apply IH2; [done|]. by rewrite <-prev_after_app.
  - intros [Hm|Hm] Hk.
    + destruct (IH1 _ _ _ k Hm Hk) as [y ->]. eauto.
    + destruct (run r1 prev (m ++ s) k); [eauto|]. by apply IH2.
  - intros [->|Hm] Hk.
    + simpl in *. destruct (run r prev s k); eauto.
    + destruct (IH _ _ _ k Hm Hk) as [y ->]. eauto.
  - intros [Hne Hall] Hk. by apply (plus_k_complete f prev).
  - intros [-> Hb] Hk. simpl in *. by rewrite Hb.
Qed.

(** ** Searching and collecting matches *)

Lemma prev_after_None pre : prev_after None pre = last pre.
Proof. unfold prev_after. by destruct (last pre). Qed.

Lemma search_sound {A} (try : option ascii → list ascii → option A) prev s0 x :
  search try prev s0 = Some x →
  ∃ pre s, s0 = pre ++ s ∧ try (prev_after prev pre) s = Some x.
Proof.
  revert prev. induction s0 as [|c s0 IH]; intros prev; simpl.
  - destruct (try prev []) eqn:Ht; [|done]. intros [= ->]. by exists [], [].
  - destruct (try prev (c :: s0)) eqn:Ht.
    + intros [= ->]. by exists [], (c :: s0).
    + intros Hs. destruct (IH _ Hs) as (pre & s & -> & Hx).
      exists (c :: pre), s. split; [done|]. by rewrite prev_after_cons.
Qed.

Lemma search_complete {A} (try : option ascii → list ascii → option A) prev pre s :
  is_Some (try (prev_after prev pre) s) → is_Some (search try prev (pre ++ s)).
Proof.
  revert prev. induction pre as [|c pre IH]; intros prev Ht; simpl.
  - change (is_Some (try prev s)) in Ht.
    destruct s; simpl; by destruct Ht as [y ->].
  - destruct (try prev (c :: pre ++ s)); [eauto|].
    apply IH. by rewrite <-(prev_after_cons prev).
Qed.

Lemma exec_at_sound r prev s0 n m :
  exec_at r prev s0 = Some (n, m) →
  ∃ s, s0 = m ++ s ∧ n = length m ∧ matches r prev m s.
Proof.
  unfold exec_at. intros Hrun.
  destruct (run_sound _ _ _ _ _ Hrun) as (m' & s & Hs0 & Hm & Hk).
  simpl in Hk. subst s0. rewrite length_app in Hk.
  replace (length m' + length s - length s)%nat with (length m') in Hk by lia.
  rewrite take_app_length in Hk. injection Hk as <- <-. by exists s.
Qed.

Lemma exec_at_complete r prev m s :
  matches r prev m s → is_Some (exec_at r prev (m ++ s)).
Proof. intros Hm. unfold exec_at. apply run_complete; [done|eauto]. Qed.

(** [test] succeeds exactly when the pattern matches somewhere. *)
Lemma test_spec r q :
  test r q = true ↔ ∃ pre m s, q = pre ++ m ++ s ∧ matches r (last pre) m s.
Proof.
  unfold test. rewrite bool_decide_eq_true. split.
  - intros [[n m] Hs].
    destruct (search_sound _ _ _ _ Hs) as (pre & s0 & -> & Hx).
    destruct (exec_at_sound _ _ _ _ _ Hx) as (s & -> & _ & Hm).
    exists pre, m, s. by rewrite prev_after_None in Hm.
  - intros (pre & m & s & -> & Hm). apply search_complete.
    rewrite prev_after_None. by apply exec_at_complete.
Qed.

Lemma match_all_sound {M} (try : option ascii → list ascii → option (nat * M))
    skip prev s0 x :
  x ∈ match_all try skip prev s0 →
  ∃ pre s n, s0 = pre ++ s ∧ try (prev_after prev pre) s = Some (n, x).
Proof.
  revert skip prev. induction s0 as [|c s0 IH]; intros skip prev; simpl.
  - destruct skip; [|by intros ?%elem_of_nil].
    destruct (try prev []) as [[n m]|] eqn:Ht; [|by intros ?%elem_of_nil].
    intros Hx. apply list_elem_of_singleton in Hx as ->. by exists [], [], n.
  - assert (∀ skip', x ∈ match_all try skip' (Some c) s0 →
      ∃ pre s n, c :: s0 = pre ++ s ∧ try (prev_after prev pre) s = Some (n, x))
      as Hrest.
    { intros skip' Hx. destruct (IH _ _ Hx) as (pre & s & n & -> & Ht).
      exists (c :: pre), s, n. split; [done|]. by rewrite prev_after_cons. }
    destruct skip; [|by apply Hrest].
    destruct (try prev (c :: s0)) as [[n m]|] eqn:Ht; [|by apply Hrest].
    intros Hx. apply elem_of_cons in Hx as [->|Hx]; [|by apply (Hrest _ Hx)].
    by exists [], (c :: s0), n.
Qed.

(** A [g] pattern has a match exactly when the search finds one. *)
Lemma match_all_nil {M} (try : option ascii → list ascii → option (nat * M)) prev s :
  match_all try 0 prev s = [] ↔ search try prev s = None.
Proof.
  revert prev. induction s as [|c s IH]; intros prev; simpl.
  - by destruct (try prev []) as [[n m]|].
  - destruct (try prev (c :: s)) as [[n m]|]; [done|]. apply IH.
Qed.

Lemma first_match_elem table s tag :
  first_match table s = Some tag →
  ∃ kw, (tag, kw) ∈ table ∧ test (keywords kw) s = true.
Proof.
  induction table as [|[t kw] table IH]; simpl; [done|].
  destruct (test (keywords kw) s) eqn:Ht.
  - intros [= ->]. exists kw. split; [by apply elem_of_cons; left|done].
  - intros Hf. destruct (IH Hf) as (kw' & Hin & Ht'). exists kw'.
    split; [by apply elem_of_cons; right|done].
Qed.

Lemma first_match_None table s :
  first_match table s = None ↔
  ∀ tag kw, (tag, kw) ∈ table → test (keywords kw) s = false.
Proof.
  induction table as [|[t kw] table IH]; simpl.
  - split; [|done]. by intros _ tag kw ?%elem_of_nil.
  - destruct (test (keywords kw) s) eqn:Ht.
    + split; [done|]. intros Hall. specialize (Hall t kw).
      rewrite Ht in Hall. assert (true = false); [|done].
      apply Hall. by apply elem_of_cons; left.
    + rewrite IH. split.
      * intros Hall tag kw' [[= -> ->]|Hin]%elem_of_cons; [done|by apply (Hall tag)].
      * intros Hall tag kw' Hin. apply (Hall tag). by apply elem_of_cons; right.
Qed.

(** A flavor tag is reported exactly when one of its table rows matches. *)
Lemma all_matches_elem table q tag :
  tag ∈ all_matches table q ↔
  ∃ kw, (tag, kw) ∈ table ∧ test (keywords kw) q = true.
Proof.
  assert (∀ kw, test (keywords kw) q = true ↔
                match_all (exec_at (keywords kw)) 0 None q ≠ []) as Htest.
  { intros kw. rewrite match_all_nil. unfold test. rewrite bool_decide_eq_true.
    by rewrite <-not_eq_None_Some. }
  induction table as [|[t kw] table IH]; simpl.
  - split; [by intros ?%elem_of_nil|]. by intros (kw & ?%elem_of_nil & _).
  - destruct (match_all (exec_at (keywords kw)) 0 None q) as [|x xs] eqn:Hm.
    + rewrite IH. split; intros (kw' & Hin & Ht); exists kw'.
      * split; [by apply elem_of_cons; right|done].
      * split; [|done]. apply elem_of_cons in Hin as [[= -> ->]|Hin]; [|done].
        apply Htest in Ht. by rewrite Hm in Ht.
    + rewrite elem_of_cons, IH. split.
      * intros [->|(kw' & Hin & Ht)].
        -- exists kw. split; [by apply elem_of_cons; left|].
           apply Htest. by rewrite Hm.
        -- exists kw'. split; [by apply elem_of_cons; right|done].
      * intros (kw' & Hin & Ht).
        apply elem_of_cons in Hin as [[= -> ->]|Hin]; [by left|].
        right. by exists kw'.
Qed.

Lemma all_matches_sublist table q : all_matches table q `sublist_of` table.*1.
Proof.
  induction table as [|[t kw] table IH]; csimpl; [done|].
  destruct (match_all _ _ _ _); by constructor.
Qed.

Lemma exec_group_at_sound pre grp prev s0 n g :
  exec_group_at pre grp prev s0 = Some (n, g) →
  ∃ mi s, s0 = mi ++ g ++ s ∧ matches pre prev mi (g ++ s) ∧
          matches grp (prev_after prev mi) g s.
Proof.
  unfold exec_group_at. intros Hrun.
  destruct (run_sound _ _ _ _ _ Hrun) as (mi & s1 & Hs0 & Hpre & Hrun2).
  destruct (run_sound _ _ _ _ _ Hrun2) as (g' & s & Hs1 & Hgrp & Hk).
  simpl in Hk. subst s1. rewrite length_app in Hk.
  replace (length g' + length s - length s)%nat with (length g') in Hk by lia.
  rewrite take_app_length in Hk. injection Hk as _ <-. by exists mi, s.
Qed.

(** ** The shape of the table's patterns *)

Lemma matches_alts rs prev m s :
  matches (alts rs) prev m s ↔ ∃ r, r ∈ rs ∧ matches r prev m s.
Proof.
  induction rs as [|r rs IH]; simpl.
  - split; [done|]. by intros (r & ?%elem_of_nil & _).
  - destruct rs as [|r' rs].
    + split.
      * intros Hm. exists r. split; [by apply elem_of_cons; left|done].
      * intros (r0 & Hin & Hm). by apply list_elem_of_singleton in Hin as ->.
    + change (matches r prev m s ∨ matches (alts (r' :: rs)) prev m s ↔
              ∃ r0, r0 ∈ r :: r' :: rs ∧ matches r0 prev m s).
      rewrite IH. split.
      * intros [Hm|(r0 & Hin & Hm)].
        -- exists r. split; [by apply elem_of_cons; left|done].
        -- exists r0. split; [by apply elem_of_cons; right|done].
      * intros (r0 & Hin & Hm).
        apply elem_of_cons in Hin as [->|Hin]; [by left|right; by exists r0].
Qed.

Lemma matches_keywords kw prev m s :
  matches (keywords kw) prev m s ↔
  xorb (is_word_at prev) (is_word_at (head (m ++ s))) = true ∧
  (∃ ws, ws ∈ kw ∧ matches (phrase ws) prev m s) ∧
  xorb (is_word_at (prev_after prev m)) (is_word_at (head s)) = true.
Proof.
  unfold keywords. simpl. setoid_rewrite matches_alts. split.
  - intros (m1 & m2 & -> & [-> Hb1] & m3 & m4 & -> & (r & Hr & Hm) & -> & Hb2).
    simpl in *. rewrite app_nil_r in *.
    apply list_elem_of_fmap in Hr as (ws & -> & Hws).
    split_and!; [done|by exists ws|done].
  - intros (Hb1 & (ws & Hws & Hm) & Hb2).
    exists [], m. split_and!; [done|done|done|].
    exists m, []. simpl. rewrite app_nil_r. split_and!; [done| |done|done].
    exists (phrase ws). split; [|done]. apply list_elem_of_fmap. by exists ws.
Qed.

Lemma matches_lit w prev m s :
  matches (lit w) prev m s ↔ toLowerCase m = toLowerCase (chars w).
Proof.
  unfold lit. revert prev m. induction (chars w) as [|c cs IH]; intros prev m; simpl.
  - split; [by intros ->|]. by destruct m.
  - split.
    + intros (m1 & m2 & -> & (ch & -> & Hc) & Hm2). simpl.
      apply bool_decide_eq_true in Hc. rewrite Hc. f_equal. by eapply IH.
    + destruct m as [|ch m]; [done|]. simpl. intros [= Hc Hm].
      exists [ch], m. split_and!; [done| |by apply (IH (Some ch))].
      exists ch. split; [done|]. by apply bool_decide_eq_true.
Qed.

Lemma needs_letter_sound r prev m s :
  needs_letter r = true → matches r prev m s →
  Exists (λ c, is_letter c = true) m.
Proof.
  revert prev m s.
  induction r as [| |c|f|r1 IH1 r2 IH2|r1 IH1 r2 IH2|r IH|f|];
    intros prev m s; simpl; try done.
  - intros Hc (ch & -> & Hm). apply Exists_cons_hd. by eapply lit_match_letter.
  - intros Hn (m1 & m2 & -> & Hm1 & Hm2). apply Exists_app.
    apply orb_true_iff in Hn as [Hn|Hn]; [left; by eapply IH1|right; by eapply IH2].
  - intros [Hn1 Hn2]%andb_true_iff [Hm|Hm]; [by eapply IH1|by eapply IH2].
Qed.

Lemma letterless_no_match r q pre m s :
  needs_letter r = true → Forall (λ c, is_letter c = false) q →
  q = pre ++ m ++ s → ¬ matches r (last pre) m s.
Proof.
  intros Hn Hq -> Hm.
  apply (needs_letter_sound _ _ _ _ Hn) in Hm.
  apply Forall_app in Hq as [_ [Hq _]%Forall_app].
  apply Exists_exists in Hm as (c & Hc & Hl).
  rewrite Forall_forall in Hq. specialize (Hq c Hc). congruence.
Qed.

Lemma letterless_test r q :
  needs_letter r = true → Forall (λ c, is_letter c = false) q → test r q = false.
Proof.
  intros Hn Hq. apply not_true_is_false. rewrite test_spec.
  intros (pre & m & s & Heq & Hm). by eapply letterless_no_match.
Qed.

Lemma letterless_first_match table q :
  forallb (λ row, needs_letter (keywords row.2)) table = true →
  Forall (λ c, is_letter c = false) q → first_match table q = None.
Proof.
  intros Htab Hq. apply first_match_None. intros tag kw Hin.
  apply letterless_test; [|done].
  rewrite forallb_forall in Htab. apply (Htab (tag, kw)).
  by apply list_elem_of_In.
Qed.

Lemma letterless_all_matches table q :
  forallb (λ row, needs_letter (keywords row.2)) table = true →
  Forall (λ c, is_letter c = false) q → all_matches table q = [].
Proof.
  intros Htab Hq.
  destruct (all_matches table q) as [|tag l] eqn:Hall; [done|].
  assert (tag ∈ all_matches table q) as Hin by (rewrite Hall; by apply elem_of_cons; left).
  apply all_matches_elem in Hin as (kw & Hin & Ht).
  rewrite letterless_test in Ht; [done| |done].
  rewrite forallb_forall in Htab. apply (Htab (tag, kw)).
  by apply list_elem_of_In.
Qed.

(** X9: nothing to find. A query without a letter of [A-Z] or [a-z]
    (the empty query among them) parses to no facet at all. *)
Theorem parse_without_letters q :
  Forall (λ c, is_letter c = false) (chars q) → parse q = no_facets.
Proof.
  intros Hq.
  assert (Forall (λ c, is_letter c = false) (toLowerCase (chars q))) as Hlq.
  { unfold toLowerCase. apply Forall_fmap. eapply Forall_impl; [done|].
    intros c Hc. simpl. by rewrite is_letter_lower. }
  unfold parse, no_facets.
  rewrite !letterless_first_match, letterless_all_matches by done.
  assert (match_all (exec_group_at exclude_intro exclude_term) 0 None (chars q) = [])
    as ->.
  { apply match_all_nil. apply eq_None_not_Some. intros [[n g] Hs].
    destruct (search_sound _ _ _ _ Hs) as (pre & s0 & Heq & Hx).
    destruct (exec_group_at_sound _ _ _ _ _ _ Hx) as (mi & s & -> & Hpre & _).
    rewrite prev_after_None in Hpre.
    by eapply (letterless_no_match exclude_intro (chars q) pre mi (g ++ s)). }
  assert (match_all (exec_at (keywords ingredients_keywords)) 0 None (chars q) = [])
    as ->.
  { apply match_all_nil. apply eq_None_not_Some. intros [[n m] Hs].
    destruct (search_sound _ _ _ _ Hs) as (pre & s0 & Heq & Hx).
    destruct (exec_at_sound _ _ _ _ _ Hx) as (s & -> & _ & Hm).
    rewrite prev_after_None in Hm.
    by eapply (letterless_no_match (keywords ingredients_keywords) (chars q) pre m s). }
  done.
Qed.

(** ** Letter case *)

Lemma is_word_at_lower prev : is_word_at (toLowerChar <$> prev) = is_word_at prev.
Proof. destruct prev; simpl; [apply is_word_lower|done]. Qed.

Lemma head_toLowerCase s : head (toLowerCase s) = toLowerChar <$> head s.
Proof. by destruct s. Qed.

Lemma plus_k_lower {A B} f s (k : option ascii → list ascii → option A)
    (k' : option ascii → list ascii → option B) (h : A → B) :
  (∀ c, f (toLowerChar c) = f c) →
  (∀ p1 s1, k' (toLowerChar <$> p1) (toLowerCase s1) = h <$> k p1 s1) →
  plus_k f (toLowerCase s) k' = h <$> plus_k f s k.
Proof.
  intros Hf Hk. induction s as [|c s IH]; simpl; [done|].
  rewrite Hf. destruct (f c); [|done].
  rewrite IH. destruct (plus_k f s k); simpl; [done|].
  apply (Hk (Some c) s).
Qed.

(** The matcher takes the same decisions on a text and on its lower-case
    form. *)
Lemma run_lower {A B} r prev s (k : option ascii → list ascii → option A)
    (k' : option ascii → list ascii → option B) (h : A → B) :
  case_blind r →
  (∀ p1 s1, k' (toLowerChar <$> p1) (toLowerCase s1) = h <$> k p1 s1) →
  run r (toLowerChar <$> prev) (toLowerCase s) k' = h <$> run r prev s k.
Proof.
  revert A B prev s k k' h.
  induction r as [| |c|f|r1 IH1 r2 IH2|r1 IH1 r2 IH2|r IH|f|];
    intros A B prev s k k' h Hcb Hk; simpl in *.
  - apply Hk.
  - done.
  - destruct s as [|ch s]; simpl; [done|]. rewrite lit_match_lower.
    destruct (lit_match c ch); [|done]. apply (Hk (Some ch) s).
  - destruct s as [|ch s]; simpl; [done|]. rewrite Hcb.
    destruct (f ch); [|done]. apply (Hk (Some ch) s).
  - destruct Hcb as [Hcb1 Hcb2]. apply IH1; [done|].
    intros p1 s1. by apply IH2.
  - destruct Hcb as [Hcb1 Hcb2].
    rewrite (IH1 _ _ prev s k k' h), (IH2 _ _ prev s k k' h) by done.
    by destruct (run r1 prev s k).
  - rewrite (IH _ _ prev s k k' h), Hk by done.
    by destruct (run r prev s k).
  - by apply plus_k_lower.
  - rewrite is_word_at_lower, head_toLowerCase, is_word_at_lower.
    destruct (xorb _ _); [apply Hk|done].
Qed.

Lemma exec_at_lower r prev s :
  case_blind r →
  exec_at r (toLowerChar <$> prev) (toLowerCase s)
  = prod_map id toLowerCase <$> exec_at r prev s.
Proof.
  intros Hcb. unfold exec_at. apply run_lower; [done|].
  intros p1 s1. simpl. unfold toLowerCase. rewrite !length_fmap.
  by rewrite fmap_take.
Qed.

Lemma exec_group_at_lower pre grp prev s :
  case_blind pre → case_blind grp →
  exec_group_at pre grp (toLowerChar <$> prev) (toLowerCase s)
  = prod_map id toLowerCase <$> exec_group_at pre grp prev s.
Proof.
  intros Hpre Hgrp. unfold exec_group_at. apply run_lower; [done|].
  intros p1 s1. apply run_lower; [done|].
  intros p2 s2. simpl. unfold toLowerCase. rewrite !length_fmap.
  by rewrite fmap_take.
Qed.

Lemma search_lower {A B} (try : option ascii → list ascii → option A)
    (try' : option ascii → list ascii → option B) (h : A → B) prev s :
  (∀ p1 s1, try' (toLowerChar <$> p1) (toLowerCase s1) = h <$> try p1 s1) →
  search try' (toLowerChar <$> prev) (toLowerCase s) = h <$> search try prev s.
Proof.
  intros Htry. revert prev. induction s as [|c s IH]; intros prev.
  - pose proof (Htry prev []) as H0. simpl in *. rewrite H0.
    by destruct (try prev []).
  - pose proof (Htry prev (c :: s)) as H0. pose proof (IH (Some c)) as H1.
    simpl in *. rewrite H0. destruct (try prev (c :: s)); [done|]. apply H1.
Qed.

Lemma match_all_lower {M} (try try' : option ascii → list ascii → option (nat * M))
    (h : M → M) skip prev s :
  (∀ p1 s1, try' (toLowerChar <$> p1) (toLowerCase s1) = prod_map id h <$> try p1 s1) →
  match_all try' skip (toLowerChar <$> prev) (toLowerCase s)
  = h <$> match_all try skip prev s.
Proof.
  intros Htry. revert skip prev. induction s as [|c s IH]; intros skip prev.
  - pose proof (Htry prev []) as H0. simpl in *.
    destruct skip; [|done]. rewrite H0.
    by destruct (try prev []) as [[n m]|].
  - pose proof (Htry prev (c :: s)) as H0.
    pose proof (λ skip', IH skip' (Some c)) as H1. simpl in *.
    destruct skip; [|apply H1].
    rewrite H0. destruct (try prev (c :: s)) as [[n m]|]; simpl.
    + f_equal. apply H1.
    + apply H1.
Qed.

Lemma case_blind_lit w : case_blind (lit w).
Proof. unfold lit. induction (chars w); simpl; done. Qed.

Lemma case_blind_phrase ws : case_blind (phrase ws).
Proof.
  induction ws as [|w ws IH]; simpl; [done|].
  destruct ws as [|w' ws]; [apply case_blind_lit|].
  split; [apply case_blind_lit|]. split; [exact is_sep_lower|done].
Qed.

Lemma case_blind_alts rs : Forall case_blind rs → case_blind (alts rs).
Proof.
  induction 1 as [|r rs Hr Hrs IH]; simpl; [done|].
  destruct rs; [done|]. by split.
Qed.

Lemma case_blind_keywords kw : case_blind (keywords kw).
Proof.
  unfold keywords. simpl. split_and!; [done| |done].
  apply case_blind_alts, Forall_fmap, Forall_forall.
  intros ws _. apply case_blind_phrase.
Qed.

Lemma case_blind_exclude : case_blind exclude_intro ∧ case_blind exclude_term.
Proof.
  split.
  - split; [done|]. split; [|exact is_space_lower].
    apply case_blind_alts, Forall_fmap, Forall_forall.
    intros w _. apply case_blind_lit.
  - split; [exact is_word_lower|].
    split; [exact is_space_lower|exact is_word_lower].
Qed.

Lemma search_lower_start r q :
  case_blind r →
  search (exec_at r) None (toLowerCase q)
  = prod_map id toLowerCase <$> search (exec_at r) None q.
Proof.
  intros Hcb.
  apply (search_lower (exec_at r) (exec_at r) (prod_map id toLowerCase) None q).
  intros. by apply exec_at_lower.
Qed.

Lemma match_all_lower_start (try : option ascii → list ascii → option (nat * list ascii)) q :
  (∀ p1 s1, try (toLowerChar <$> p1) (toLowerCase s1)
            = prod_map id toLowerCase <$> try p1 s1) →
  match_all try 0 None (toLowerCase q) = toLowerCase <$> match_all try 0 None q.
Proof. intros Htry. by apply (match_all_lower try try toLowerCase 0 None q). Qed.

Lemma test_lower r q : case_blind r → test r (toLowerCase q) = test r q.
Proof.
  intros Hcb. unfold test. rewrite search_lower_start by done.
  apply bool_decide_ext. by rewrite fmap_is_Some.
Qed.

Lemma all_matches_lower table q :
  all_matches table (toLowerCase q) = all_matches table q.
Proof.
  induction table as [|[t kw] table IH]; simpl; [done|].
  rewrite match_all_lower_start
    by (intros; apply exec_at_lower, case_blind_keywords).
  rewrite IH. by destruct (match_all _ _ _ _).
Qed.

(** X10: letter case. Two queries that differ only in the case of letters
    [A-Z], and agree on every other code unit, parse to the same result:
    the patterns that run on the query itself carry the [i] flag, and the
    others run on the lower-cased query. *)
Theorem parse_ignores_case q q' :
  lower_AZ <$> chars q = lower_AZ <$> chars q' → parse q = parse q'.
Proof.
  assert (∀ q,
    parse q =
      let lq := toLowerCase (chars q) in
      {| strength := first_match strength_keywords lq;
         flavors := all_matches flavors_keywords lq;
         spirit := first_match spirits_keywords lq;
         glass := first_match glass_keywords lq;
         method := first_match methods_keywords lq;
         difficulty := first_match difficulty_keywords lq;
         mood := first_match mood_keywords lq;
         occasion := first_match occasion_keywords lq;
         excludes :=
           String.string_of_list_ascii
             <$> match_all (exec_group_at exclude_intro exclude_term) 0 None lq;
         ingredients :=
           (λ m, String.string_of_list_ascii (collapse false m))
             <$> match_all (exec_at (keywords ingredients_keywords)) 0 None lq |})
    as Hparse.
  { intros q0. unfold parse. cbv zeta. f_equal.
    - by rewrite all_matches_lower.
    - destruct case_blind_exclude as [Hi Ht].
      rewrite match_all_lower_start by (intros; by apply exec_group_at_lower).
      by rewrite <-list_fmap_compose.
    - rewrite match_all_lower_start
        by (intros; apply exec_at_lower, case_blind_keywords).
      by rewrite <-list_fmap_compose. }
  intros Heq. rewrite (Hparse q), (Hparse q'). cbv zeta.
  assert (∀ s, toLowerCase s = toLowerCase (lower_AZ <$> s)) as Hlow.
  { intros s. unfold toLowerCase. rewrite <-list_fmap_compose.
    apply list_fmap_ext. intros _ c _. simpl. all_chars c. }
  by rewrite (Hlow (chars q)), (Hlow (chars q')), Heq.
Qed.

(** ** The fields of [parse] *)

Lemma parse_flavors q : flavors (parse q) = all_matches flavors_keywords (chars q).
Proof. reflexivity. Qed.

Lemma parse_excludes q :
  excludes (parse q)
  = (λ m, String.string_of_list_ascii (toLowerCase m))
      <$> match_all (exec_group_at exclude_intro exclude_term) 0 None (chars q).
Proof. reflexivity. Qed.

Lemma parse_ingredients q :
  ingredients (parse q)
  = (λ m, String.string_of_list_ascii (collapse false (toLowerCase m)))
      <$> match_all (exec_at (keywords ingredients_keywords)) 0 None (chars q).
Proof. reflexivity. Qed.

(** ** What the list-valued facets can hold *)

Lemma plain_word_spec w :
  plain_word w = true →
  chars w ≠ [] ∧ Forall (λ c, is_lower c = true) (chars w).
Proof.
  unfold plain_word. destruct (chars w) as [|c cs] eqn:Hw; [done|].
  intros Hall. split; [done|]. apply Forall_forall. intros c' Hc'.
  rewrite forallb_forall in Hall. apply Hall. by apply list_elem_of_In.
Qed.

Lemma toLowerCase_plain w : plain_word w = true → toLowerCase (chars w) = chars w.
Proof.
  intros [_ Hall]%plain_word_spec. unfold toLowerCase.
  induction Hall as [|c cs Hc _ IH]; csimpl; [done|].
  by rewrite is_lower_fixed, IH.
Qed.

Lemma collapse_app_plain b w t :
  Forall (λ c, is_sep c = false) w →
  collapse b (w ++ t) = w ++ collapse (if w is [] then b else false) t.
Proof.
  intros Hall. revert b. induction Hall as [|c w Hc _ IH]; intros b; simpl; [done|].
  rewrite Hc, IH. by destruct w.
Qed.

Lemma collapse_plain_word w t :
  plain_word w = true → collapse false (chars w ++ t) = chars w ++ collapse false t.
Proof.
  intros [Hne Hall]%plain_word_spec. rewrite collapse_app_plain.
  - by destruct (chars w).
  - eapply Forall_impl; [done|]. intros c. apply is_lower_not_sep.
Qed.

Lemma collapse_after_sep s c rest :
  s = c :: rest → is_sep c = false → collapse true s = collapse false s.
Proof. intros -> Hc. simpl. by rewrite Hc. Qed.

Lemma matches_phrase_forms ws prev m s :
  ws ≠ [] → forallb plain_word ws = true → matches (phrase ws) prev m s →
  collapse false (toLowerCase m) ∈ phrase_forms ws ∧
  ∃ c rest, toLowerCase m = c :: rest ∧ is_sep c = false.
Proof.
  revert prev m. induction ws as [|w ws IH]; intros prev m Hne Hplain; [done|].
  apply andb_true_iff in Hplain as [Hw Hws].
  destruct ws as [|w' ws].
  - simpl. rewrite matches_lit, toLowerCase_plain by done. intros ->.
    split.
    + rewrite <-(app_nil_r (chars w)), collapse_plain_word by done. simpl.
      rewrite app_nil_r. by apply list_elem_of_singleton.
    + destruct (plain_word_spec w Hw) as [Hnil Hall].
      destruct (chars w) as [|c cs]; [done|]. exists c, cs. split; [done|].
      apply Forall_cons in Hall as [Hc _]. by apply is_lower_not_sep.
  - change (phrase (w :: w' :: ws))
      with (RSeq (lit w) (RSeq (ROpt (RClass is_sep)) (phrase (w' :: ws)))).
    intros (m1 & m2 & -> & Hm1 & m3 & m4 & -> & Hm3 & Hm4).
    apply matches_lit in Hm1. rewrite toLowerCase_plain in Hm1 by done.
    destruct (IH _ _ ltac:(done) Hws Hm4) as (Hform & c4 & rest4 & Hhead & Hc4).
    unfold toLowerCase in *. rewrite !fmap_app, Hm1.
    split.
    + rewrite collapse_plain_word by done.
      change (phrase_forms (w :: w' :: ws))
        with (f ← phrase_forms (w' :: ws); [chars w ++ f; chars w ++ " "%char :: f]).
      apply list_elem_of_bind. eexists. split; [|exact Hform].
      destruct Hm3 as [->|(ch & -> & Hch)]; simpl.
      * apply elem_of_cons. by left.
      * rewrite is_sep_lower, Hch.
        rewrite (collapse_after_sep _ _ _ Hhead Hc4).
        apply elem_of_cons. right. by apply elem_of_cons; left.
    + destruct (plain_word_spec w Hw) as [Hnil Hall].
      destruct (chars w) as [|c cs]; [done|]. eexists c, _. split; [done|].
      apply Forall_cons in Hall as [Hc _]. by apply is_lower_not_sep.
Qed.

(** X11: the ingredient vocabulary. Every recognised ingredient is one of
    thirteen normalised names. The two-word names come with a space when
    the text had a space or a hyphen between the words, and run together when
    it had nothing. *)
Theorem ingredients_in_vocabulary q x :
  x ∈ ingredients (parse q) →
  x ∈ ["campari"; "aperol"; "vermouth"; "bitters"; "cointreau"; "triplesec";
       "triple sec"; "chartreuse"; "benedictine"; "maraschino"; "elderflower";
       "stgermain"; "st germain"].
Proof.
  rewrite parse_ingredients. intros Hx.
  apply list_elem_of_fmap in Hx as (m & -> & Hm).
  destruct (match_all_sound _ _ _ _ _ Hm) as (pre & s0 & n & _ & Hexec).
  destruct (exec_at_sound _ _ _ _ _ Hexec) as (s & _ & _ & Hmatch).
  apply matches_keywords in Hmatch as (_ & (ws & Hws & Hphrase) & _).
  assert (ws ≠ [] ∧ forallb plain_word ws = true) as [Hne Hplain].
  { unfold ingredients_keywords in Hws.
    repeat (apply elem_of_cons in Hws as [->|Hws]; [by split|]).
    by apply elem_of_nil in Hws. }
  destruct (matches_phrase_forms _ _ _ _ Hne Hplain Hphrase) as [Hform _].
  assert (collapse false (toLowerCase m)
          ∈ (ws' ← ingredients_keywords; phrase_forms ws')) as Hvoc.
  { apply list_elem_of_bind. by exists ws. }
  apply (list_elem_of_fmap_2 String.string_of_list_ascii) in Hvoc.
  exact Hvoc.
Qed.

(** X12: the shape of an exclusion. Every exclusion term is one word, or two
    words with white space between them; it consists of word characters and
    white space only, and has no upper-case letter. *)
Theorem excludes_are_one_or_two_words q x :
  x ∈ excludes (parse q) →
  ∃ w1 rest,
    chars x = w1 ++ rest ∧
    w1 ≠ [] ∧ Forall (λ c, is_word c = true) w1 ∧
    (rest = [] ∨
     ∃ sp w2, rest = sp ++ w2 ∧
              sp ≠ [] ∧ Forall (λ c, is_space c = true) sp ∧
              w2 ≠ [] ∧ Forall (λ c, is_word c = true) w2) ∧
    toLowerCase (chars x) = chars x.
Proof.
  rewrite parse_excludes. intros Hx.
  apply list_elem_of_fmap in Hx as (g & -> & Hg).
  destruct (match_all_sound _ _ _ _ _ Hg) as (pre & s0 & n & _ & Hexec).
  destruct (exec_group_at_sound _ _ _ _ _ _ Hexec) as (mi & s & _ & _ & Hterm).
  unfold chars. rewrite String.list_ascii_of_string_of_list_ascii.
  rewrite toLowerCase_idemp.
  assert (∀ (f : ascii → bool) l,
    (∀ c, f (toLowerChar c) = f c) → Forall (λ c, f c = true) l →
    Forall (λ c, f c = true) (toLowerCase l)) as Hkeep.
  { intros f l Hf Hl. unfold toLowerCase. apply Forall_fmap.
    eapply Forall_impl; [done|]. intros c Hc. simpl. by rewrite Hf. }
  destruct Hterm as (g1 & g2 & -> & [Hne1 Hw1] & Hopt).
  exists (toLowerCase g1), (toLowerCase g2).
  unfold toLowerCase at 1. rewrite fmap_app.
  split_and!; [done| |by apply Hkeep; [exact is_word_lower|]| |done].
  - by destruct g1.
  - destruct Hopt as [->|(sp & w2 & -> & [Hnes Hsp] & [Hne2 Hw2])]; [by left|].
    right. exists (toLowerCase sp), (toLowerCase w2).
    unfold toLowerCase at 1. rewrite fmap_app.
    split_and!; [done| | | |].
    + by destruct sp.
    + by apply Hkeep; [exact is_space_lower|].
    + by destruct w2.
    + by apply Hkeep; [exact is_word_lower|].
Qed.

Lemma first_match_tag table s tag :
  first_match table s = Some tag → tag ∈ table.*1.
Proof.
  intros (kw & Hin & _)%first_match_elem.
  by apply (list_elem_of_fmap_2 fst) in Hin.
Qed.

(** X13: facet values come from the table. Each single-valued facet holds a
    tag of its category, and the flavors are tags of the flavor category in
    the order of the table, none twice. *)
Theorem parse_facets_in_table q :
  (∀ t, strength (parse q) = Some t → t ∈ ["light"; "medium"; "strong"]) ∧
  (∀ t, spirit (parse q) = Some t →
        t ∈ ["gin"; "whiskey"; "rum"; "vodka"; "tequila"; "brandy"]) ∧
  (∀ t, glass (parse q) = Some t →
        t ∈ ["martini"; "rocks"; "coupe"; "highball"; "nick"]) ∧
  (∀ t, method (parse q) = Some t → t ∈ ["shake"; "stir"; "build"; "muddle"]) ∧
  (∀ t, difficulty (parse q) = Some t → t ∈ ["easy"; "medium"; "hard"]) ∧
  (∀ t, mood (parse q) = Some t →
        t ∈ ["romantic"; "party"; "relaxing"; "sophisticated"]) ∧
  (∀ t, occasion (parse q) = Some t →
        t ∈ ["dinner"; "brunch"; "nightcap"; "summer"; "winter"]) ∧
  flavors (parse q) `sublist_of`
    ["bitter"; "sweet"; "sour"; "dry"; "herbal"; "fruity"; "spicy"; "smoky";
     "refreshing"; "rich"] ∧
  NoDup (flavors (parse q)).
Proof.
  unfold parse. cbv zeta.
  split_and!; try (intros t Ht; exact (first_match_tag _ _ _ Ht)).
  - apply (all_matches_sublist flavors_keywords).
  - eapply sublist_NoDup; [|apply (all_matches_sublist flavors_keywords)].
    apply (bool_decide_unpack _). vm_compute. exact I.
Qed.

(** ** Facets that follow from other facets *)

Lemma test_intro r q pre m s :
  q = pre ++ m ++ s → matches r (last pre) m s → test r q = true.
Proof. intros Hq Hm. apply test_spec. by exists pre, m, s. Qed.

(** X14: bitter liqueurs. A query in which Campari or Aperol is recognised as
    an ingredient also has the flavor [bitter]. *)
Theorem bitter_liqueur_sets_bitter q :
  "campari" ∈ ingredients (parse q) ∨ "aperol" ∈ ingredients (parse q) →
  "bitter" ∈ flavors (parse q).
Proof.
  assert (∀ x, x = "campari" ∨ x = "aperol" → x ∈ ingredients (parse q) →
               "bitter" ∈ flavors (parse q)) as Hmain.
  { intros x Hname. rewrite parse_ingredients, parse_flavors.
    intros Hx. apply list_elem_of_fmap in Hx as (m & Hxm & Hm).
    destruct (match_all_sound _ _ _ _ _ Hm) as (pre & s0 & n & Hq & Hexec).
    destruct (exec_at_sound _ _ _ _ _ Hexec) as (s & -> & _ & Hmatch).
    rewrite prev_after_None in Hmatch.
    apply matches_keywords in Hmatch as (Hb1 & (ws & Hws & Hphrase) & Hb2).
    apply all_matches_elem.
    exists [["bitter"]; ["amaro"]; ["campari"]; ["aperol"]; ["negroni"; "like"]].
    split; [unfold flavors_keywords; by apply elem_of_cons; left|].
    apply (test_intro _ _ pre m s Hq). apply matches_keywords.
    split_and!; [done| |done].
    exists ws. split; [|done].
    assert (ws ≠ [] ∧ forallb plain_word ws = true) as [Hne Hplain].
    { unfold ingredients_keywords in Hws.
      repeat (apply elem_of_cons in Hws as [->|Hws]; [by split|]).
      by apply elem_of_nil in Hws. }
    destruct (matches_phrase_forms _ _ _ _ Hne Hplain Hphrase) as [Hform _].
    apply (f_equal chars) in Hxm. unfold chars at 2 in Hxm.
    rewrite String.list_ascii_of_string_of_list_ascii in Hxm.
    rewrite <-Hxm in Hform. clear -Hname Hws Hform.
    unfold ingredients_keywords in Hws.
    repeat (apply elem_of_cons in Hws as [->|Hws];
            [first [ by apply elem_of_cons; right; apply elem_of_cons; right;
                        apply elem_of_cons; left
                   | by apply elem_of_cons; right; apply elem_of_cons; right;
                        apply elem_of_cons; right; apply elem_of_cons; left
                   | exfalso; destruct Hname as [-> | ->]; simpl in Hform;
                     repeat (apply elem_of_cons in Hform as [Hform|Hform];
                             [discriminate Hform|]);
                     by apply elem_of_nil in Hform ]|]).
    by apply elem_of_nil in Hws. }
  intros [H|H]; [by apply (Hmain "campari"); [left|]|by apply (Hmain "aperol"); [right|]].
Qed.

(** When the continuation cannot fail, [class+] takes the whole run. *)
Lemma plus_k_greedy {A} f s0 (k : option ascii → list ascii → option A) x :
  (∀ p s, is_Some (k p s)) →
  plus_k f s0 k = Some x →
  ∃ m s, s0 = m ++ s ∧ m ≠ [] ∧ Forall (λ c, f c = true) m ∧
         (∀ c, head s = Some c → f c = false) ∧
         k (last m) s = Some x.
Proof.
  intros Hk. revert x. induction s0 as [|c s0 IH]; intros x; simpl; [done|].
  destruct (f c) eqn:Hf; [|done].
  destruct (plus_k f s0 k) as [y|] eqn:Hin.
  - intros [= ->]. destruct (IH x eq_refl) as (m & s & -> & Hne & Hall & Hnext & Hx).
    exists (c :: m), s. split_and!; [done|done|by apply Forall_cons|done|].
    by destruct m.
  - intros Hx. exists [c], s0. split_and!; [done|done|by apply Forall_singleton| |done].
    intros c' Hc'. destruct s0 as [|c0 s0]; [done|]. injection Hc' as ->.
    simpl in Hin. destruct (f c') eqn:Hf'; [|done].
    destruct (plus_k f s0 k); [done|].
    by destruct (Hk (Some c') s0) as [? ?]; congruence.
Qed.

(** A match of the exclusion pattern, with the first word of its term: the
    character before the word is white space, the word is a whole run of
    word characters. *)
Lemma exclude_first_word prev s0 n g :
  exec_group_at exclude_intro exclude_term prev s0 = Some (n, g) →
  ∃ mi sp0 g1 g2 s,
    s0 = mi ++ g ++ s ∧ g = g1 ++ g2 ∧
    last mi = Some sp0 ∧ is_space sp0 = true ∧
    g1 ≠ [] ∧ Forall (λ c, is_word c = true) g1 ∧
    (∀ c, head (g2 ++ s) = Some c → is_word c = false) ∧
    (g2 = [] ∨ ∃ c rest, g2 = c :: rest ∧ is_space c = true).
Proof.
  unfold exec_group_at. intros Hrun.
  destruct (run_sound _ _ _ _ _ Hrun) as (mi & s1 & -> & Hintro & Hterm).
  destruct Hintro as (m1 & m2 & -> & _ & m3 & m4 & -> & _ & [Hne4 Hsp4]).
  assert (∃ sp0, last (m1 ++ m3 ++ m4) = Some sp0 ∧ is_space sp0 = true)
    as (sp0 & Hlast & Hsp0).
  { destruct m4 as [|c m4 _] using rev_ind; [done|].
    exists c. rewrite !app_assoc, last_snoc. split; [done|].
    rewrite Forall_app, Forall_singleton in Hsp4. by destruct Hsp4. }
  unfold exclude_term in Hterm. simpl in Hterm.
  apply plus_k_greedy in Hterm as (g1 & s2 & -> & Hne1 & Hw1 & Hnext & Hopt).
  2:{ intros p s. destruct (plus_k is_space s _); eauto. }
  destruct (plus_k is_space s2 _) as [y|] eqn:Hplus.
  - injection Hopt as ->.
    apply plus_k_sound in Hplus as (sp & s3 & -> & Hnes & Hsps & Hw2).
    apply plus_k_sound in Hw2 as (w2 & s & -> & Hne2 & Hw2 & Hfin).
    rewrite !length_app in Hfin.
    replace (length g1 + (length sp + (length w2 + length s)) - length s)%nat
      with (length (g1 ++ sp ++ w2)) in Hfin by (rewrite !length_app; lia).
    rewrite (app_assoc sp w2 s), (app_assoc g1 (sp ++ w2) s) in Hfin.
    rewrite take_app_length in Hfin. injection Hfin as _ <-.
    exists (m1 ++ m3 ++ m4), sp0, g1, (sp ++ w2), s.
    split_and!; try done.
    + by rewrite <-!app_assoc.
    + intros c Hc. apply Hnext. by rewrite <-app_assoc in Hc.
    + right. destruct sp as [|c sp]; [done|]. exists c, (sp ++ w2).
      split; [done|]. by apply Forall_cons in Hsps as [? _].
  - rewrite (length_app g1 s2) in Hopt.
    replace (length g1 + length s2 - length s2)%nat with (length g1) in Hopt by lia.
    rewrite take_app_length in Hopt. injection Hopt as _ <-.
    exists (m1 ++ m3 ++ m4), sp0, g1, [], s2.
    rewrite app_nil_r. split_and!; try done. by left.
Qed.

Lemma word_prefix_unique (a b ra rb : list ascii) :
  a ++ ra = b ++ rb →
  Forall (λ c, is_word c = true) a → Forall (λ c, is_word c = true) b →
  (∀ c, head ra = Some c → is_word c = false) →
  (∀ c, head rb = Some c → is_word c = false) →
  a = b.
Proof.
  revert b. induction a as [|x a IH]; intros b Heq Ha Hb Hra Hrb.
  - destruct b as [|y b]; [done|]. exfalso. simpl in Heq. subst ra.
    apply Forall_cons in Hb as [Hy _]. specialize (Hra y eq_refl). congruence.
  - apply Forall_cons in Ha as [Hx Ha]. destruct b as [|y b].
    + exfalso. simpl in Heq. subst rb. specialize (Hrb x eq_refl). congruence.
    + injection Heq as -> Heq. apply Forall_cons in Hb as [_ Hb].
      f_equal. by apply IH.
Qed.

(** X15: an excluded flavor still counts. When the first or only word of an
    exclusion term is a one-word keyword of a flavor, the query has that
    flavor: [without lime] excludes [lime] and reports [sour]. *)
Theorem excluded_flavor_word_sets_flavor q x tag kw w :
  (tag, kw) ∈ flavors_keywords → [w] ∈ kw → plain_word w = true →
  x ∈ excludes (parse q) →
  (chars x = chars w ∨
   ∃ c rest, chars x = chars w ++ c :: rest ∧ is_space c = true) →
  tag ∈ flavors (parse q).
Proof.
  intros Hrow Hkw Hplain Hx Hfirst.
  rewrite parse_excludes in Hx. rewrite parse_flavors.
  apply list_elem_of_fmap in Hx as (g & -> & Hg).
  unfold chars at 1 3 in Hfirst.
  rewrite String.list_ascii_of_string_of_list_ascii in Hfirst.
  destruct (match_all_sound _ _ _ _ _ Hg) as (pre & s0 & n & Hq & Hexec).
  rewrite prev_after_None in Hexec.
  destruct (exclude_first_word _ _ _ _ Hexec)
    as (mi & sp0 & g1 & g2 & s & -> & -> & Hlast & Hsp0 & Hne1 & Hw1 & Hnext & Hg2).
  destruct (plain_word_spec w Hplain) as [Hnew Hloww].
  assert (Forall (λ c, is_word c = true) (chars w)) as Hww.
  { eapply Forall_impl; [done|]. intros c. apply is_lower_word. }
  assert (toLowerCase g1 = chars w) as Hg1.
  { unfold toLowerCase in *. rewrite fmap_app in Hfirst.
    assert (Forall (λ c, is_word c = true) (toLowerChar <$> g1)) as Hlw1.
    { apply Forall_fmap. eapply Forall_impl; [done|].
      intros c Hc. simpl. by rewrite is_word_lower. }
    assert (∀ c, head (toLowerChar <$> g2) = Some c → is_word c = false) as Hl2.
    { intros c Hc. destruct Hg2 as [->|(c2 & rest2 & -> & Hc2)]; [done|].
      injection Hc as <-. rewrite is_word_lower. by apply is_space_not_word. }
    destruct Hfirst as [Hfirst|(c & rest & Hfirst & Hc)].
    - apply (word_prefix_unique _ _ (toLowerChar <$> g2) []); try done.
      by rewrite app_nil_r.
    - apply (word_prefix_unique _ _ (toLowerChar <$> g2) (c :: rest)); try done.
      intros c' [= <-]. by apply is_space_not_word. }
  apply all_matches_elem. exists kw. split; [done|].
  apply (test_intro _ _ (pre ++ mi) g1 (g2 ++ s)).
  { rewrite Hq. by rewrite <-!app_assoc. }
  assert (last (pre ++ mi) = Some sp0) as Hprev.
  { destruct mi as [|c mi _] using rev_ind; [done|].
    rewrite last_snoc in Hlast. injection Hlast as ->.
    by rewrite app_assoc, last_snoc. }
  rewrite Hprev. apply matches_keywords. split_and!.
  - simpl. rewrite (is_space_not_word _ Hsp0).
    destruct g1 as [|c g1]; [done|]. simpl.
    by apply Forall_cons in Hw1 as [-> _].
  - exists [w]. split; [done|]. simpl. apply matches_lit.
    by rewrite Hg1, toLowerCase_plain.
  - unfold prev_after. destruct g1 as [|c g1 _] using rev_ind; [done|].
    rewrite last_snoc. simpl.
    rewrite Forall_app, Forall_singleton in Hw1. destruct Hw1 as [_ Hc]. rewrite Hc.
    destruct (head (g2 ++ s)) as [c'|] eqn:Hh; [|done].
    simpl. by rewrite (Hnext c' eq_refl).
Qed.

(** * Further properties of the merge *)

(** X16: unused facets. The merge reads the parsed strength, flavors, glass,
    method, ingredients and excludes only: two parses that agree on these
    six give the same result, whatever their spirit, difficulty, mood and
    occasion. *)
Theorem enhance_ignores_four_facets args p p' :
  strength p = strength p' → flavors p = flavors p' → glass p = glass p' →
  method p = method p' → ingredients p = ingredients p' →
  excludes p = excludes p' →
  enhanceSearchArgs args p = enhanceSearchArgs args p'.
Proof.
  destruct p, p'. simpl. intros -> -> -> -> -> ->. reflexivity.
Qed.

Lemma truthy_tag (table : list (string * list (list string))) s t :
  forallb (λ row, negb (String.eqb row.1 "")) table = true →
  first_match table s = Some t → truthy (opt_str (Some t)) = true.
Proof.
  intros Htab (kw & Hin & _)%first_match_elem. simpl.
  rewrite forallb_forall in Htab. apply (Htab (t, kw)). by apply list_elem_of_In.
Qed.

Lemma nonempty_length_values (l : list string) :
  (0 <? length l)%nat = bool_decide (l ≠ []).
Proof. by destruct l. Qed.

Lemma enhance_on_empty_args p :
  (∀ t, strength p = Some t → truthy (VStr t) = true) →
  (∀ t, glass p = Some t → truthy (VStr t) = true) →
  (∀ t, method p = Some t → truthy (VStr t) = true) →
  ∃ out,
    enhanceSearchArgs ∅ p = Some out ∧
    out !! "preferred_strength" = VStr <$> strength p ∧
    out !! "glass_type" = VStr <$> glass p ∧
    out !! "preparation_method" = VStr <$> method p ∧
    out !! "preferred_flavors"
      = (if flavors p is [] then None else Some (str_arr (flavors p))) ∧
    out !! "must_include"
      = (if ingredients p is [] then None else Some (str_arr (ingredients p))) ∧
    out !! "must_exclude"
      = (if excludes p is [] then None else Some (str_arr (excludes p))) ∧
    (∀ name, name ∉ written_fields → out !! name = None).
Proof.
  intros Hts Htg Htm.
  assert (∀ name, prop ∅ name = VUndefined) as Hprop
    by (intros name; unfold prop; by rewrite lookup_empty).
  assert (is_Some (enhanceSearchArgs ∅ p)) as [out Hout].
  { rewrite enhanceSearchArgs_eq, !Hprop. simpl.
    destruct (0 <? length (ingredients p))%nat,
             (0 <? length (excludes p))%nat; simpl; eauto. }
  exists out. split; [done|].
  destruct (enhanceSearchArgs_fields _ _ _ Hout)
    as (own_inc & own_exc & Hinc & Hexc & Hs & Hf & Hi & He & Hg & Hm & Hrest).
  rewrite !Hprop in *. simpl in Hinc, Hexc.
  assert (own_inc = []) as ->
    by (destruct (0 <? length (ingredients p))%nat; congruence).
  assert (own_exc = []) as ->
    by (destruct (0 <? length (excludes p))%nat; congruence).
  rewrite lookup_empty in *. simpl in Hs, Hf, Hi, He, Hg, Hm.
  rewrite andb_true_r in Hs, Hf, Hg, Hm.
  split_and!.
  - rewrite Hs. destruct (strength p) as [t|] eqn:Ht; [|done].
    simpl opt_str. by rewrite (Hts t).
  - rewrite Hg. destruct (glass p) as [t|] eqn:Ht; [|done].
    simpl opt_str. by rewrite (Htg t).
  - rewrite Hm. destruct (method p) as [t|] eqn:Ht; [|done].
    simpl opt_str. by rewrite (Htm t).
  - rewrite Hf. by destruct (flavors p).
  - rewrite Hi. by destruct (ingredients p).
  - rewrite He. by destruct (excludes p).
  - intros name Hname. rewrite (Hrest name Hname). apply lookup_empty.
Qed.

(** X17: parse, then merge into no arguments. With an empty argument object
    the merge never throws, and its result holds exactly the parsed
    strength, flavors, glass, method, ingredients and excludes, each under
    its field name and only if the parse found one; no other field exists. *)
Theorem enhance_of_parse_on_empty_args q :
  ∃ out,
    enhanceSearchArgs ∅ (parse q) = Some out ∧
    out !! "preferred_strength" = VStr <$> strength (parse q) ∧
    out !! "glass_type" = VStr <$> glass (parse q) ∧
    out !! "preparation_method" = VStr <$> method (parse q) ∧
    out !! "preferred_flavors"
      = (if flavors (parse q) is [] then None else Some (str_arr (flavors (parse q)))) ∧
    out !! "must_include"
      = (if ingredients (parse q) is [] then None
         else Some (str_arr (ingredients (parse q)))) ∧
    out !! "must_exclude"
      = (if excludes (parse q) is [] then None
         else Some (str_arr (excludes (parse q)))) ∧
    (∀ name, name ∉ written_fields → out !! name = None).
Proof.
  apply enhance_on_empty_args.
  - intros t Ht. exact (truthy_tag strength_keywords _ _ eq_refl Ht).
  - intros t Ht. exact (truthy_tag glass_keywords _ _ eq_refl Ht).
  - intros t Ht. exact (truthy_tag methods_keywords _ _ eq_refl Ht).
Qed.

(** X18: merging twice. Merging the same parse into the result of a merge
    does not throw and changes only the two lists: the parsed ingredients
    and excludes are appended a second time. *)
Theorem enhance_twice_appends_again args p out :
  enhanceSearchArgs args p = Some out →
  ∃ out2,
    enhanceSearchArgs out p = Some out2 ∧
    (∀ name, name ≠ "must_include" → name ≠ "must_exclude" →
       out2 !! name = out !! name) ∧
    (ingredients p ≠ [] →
       ∃ own, out !! "must_include" = Some (VArr own) ∧
              out2 !! "must_include" = Some (VArr (own ++ (VStr <$> ingredients p)))) ∧
    (ingredients p = [] → out2 !! "must_include" = out !! "must_include") ∧
    (excludes p ≠ [] →
       ∃ own, out !! "must_exclude" = Some (VArr own) ∧
              out2 !! "must_exclude" = Some (VArr (own ++ (VStr <$> excludes p)))) ∧
    (excludes p = [] → out2 !! "must_exclude" = out !! "must_exclude").
Proof.
  intros Hout.
  destruct (enhanceSearchArgs_fields _ _ _ Hout)
    as (own_inc & own_exc & Hinc & Hexc & Hs & Hf & Hi & He & Hg & Hm & Hrest).
  rewrite nonempty_length_values in Hinc, Hexc, Hi, He.
  assert (is_Some (enhanceSearchArgs out p)) as [out2 Hout2].
  { rewrite enhanceSearchArgs_eq, !nonempty_length_values. unfold prop.
    rewrite Hi, He.
    destruct (bool_decide (ingredients p ≠ [])), (bool_decide (excludes p ≠ []));
      simpl; eauto;
      repeat match goal with
             | |- context [spread (js_or ?v _)] =>
                 destruct (spread (js_or v (VArr []))) eqn:?; simpl
             end; eauto. }
  exists out2. split; [done|].
  destruct (enhanceSearchArgs_fields _ _ _ Hout2)
    as (own_inc2 & own_exc2 & Hinc2 & Hexc2 & Hs2 & Hf2 & Hi2 & He2 & Hg2 & Hm2 & Hrest2).
  rewrite nonempty_length_values in Hinc2, Hexc2, Hi2, He2.
  assert (∀ (wanted : bool) (v : value) (a o o2 : option value),
    (wanted = true → truthy v = true) →
    o = (if wanted && negb (truthy (default VUndefined a)) then Some v else a) →
    o2 = (if wanted && negb (truthy (default VUndefined o)) then Some v else o) →
    o2 = o) as Hstable.
  { intros wanted v a o o2 Hv -> ->.
    destruct wanted; simpl; [|done]. specialize (Hv eq_refl).
    destruct (truthy (default VUndefined a)) eqn:Ha; simpl; [by rewrite Ha|].
    by rewrite Hv. }
  split_and!.
  - intros name Hni Hne.
    destruct (decide (name = "preferred_strength")) as [->|?].
    { exact (Hstable (truthy (opt_str (strength p))) (opt_str (strength p))
               (args !! "preferred_strength") _ _ (λ H, H) Hs Hs2). }
    destruct (decide (name = "preferred_flavors")) as [->|?].
    { exact (Hstable (0 <? length (flavors p))%nat (str_arr (flavors p))
               (args !! "preferred_flavors") _ _ (λ _, eq_refl) Hf Hf2). }
    destruct (decide (name = "glass_type")) as [->|?].
    { exact (Hstable (truthy (opt_str (glass p))) (opt_str (glass p))
               (args !! "glass_type") _ _ (λ H, H) Hg Hg2). }
    destruct (decide (name = "preparation_method")) as [->|?].
    { exact (Hstable (truthy (opt_str (method p))) (opt_str (method p))
               (args !! "preparation_method") _ _ (λ H, H) Hm Hm2). }
    apply Hrest2. unfold written_fields.
    repeat (apply not_elem_of_cons; split; [done|]). apply not_elem_of_nil.
  - intros Hne. rewrite bool_decide_eq_true_2 in Hi, Hi2, Hinc2 by done.
    eexists. split; [done|]. rewrite Hi2. unfold prop in Hinc2.
    rewrite Hi in Hinc2. simpl in Hinc2. by injection Hinc2 as <-.
  - intros Hnil. by rewrite bool_decide_eq_false_2 in Hi2 by by intros ?.
  - intros Hne. rewrite bool_decide_eq_true_2 in He, He2, Hexc2 by done.
    eexists. split; [done|]. rewrite He2. unfold prop in Hexc2.
    rewrite He in Hexc2. simpl in Hexc2. by injection Hexc2 as <-.
  - intros Hnil. by rewrite bool_decide_eq_false_2 in He2 by by intros ?.
Qed.

(** X19: when the merge throws. The merge throws exactly when it has parsed
    ingredients to add to a [must_include], or parsed excludes to add to a
    [must_exclude], that is truthy and cannot be spread: a non-zero number or
    [true]. A string in that place does not throw; it is spread into its
    characters. *)
Theorem enhance_throws_iff args p :
  (enhanceSearchArgs args p = None ↔
   (ingredients p ≠ [] ∧
    truthy (prop args "must_include") = true ∧
    iterable (prop args "must_include") = false) ∨
   (excludes p ≠ [] ∧
    truthy (prop args "must_exclude") = true ∧
    iterable (prop args "must_exclude") = false)) ∧
  (∀ v, truthy v = true ∧ iterable v = false ↔
        (∃ n, v = VNum n ∧ n ≠ 0) ∨ v = VBool true) ∧
  (∀ s out,
     prop args "must_include" = VStr s → s ≠ "" → ingredients p ≠ [] →
     enhanceSearchArgs args p = Some out →
     out !! "must_include"
     = Some (VArr (((λ a, VStr (String a EmptyString)) <$> chars s)
                   ++ (VStr <$> ingredients p)))).
Proof.
  assert (∀ v, spread (js_or v (VArr [])) = None ↔
               truthy v = true ∧ iterable v = false) as Hspread.
  { intros v. unfold js_or. destruct (truthy v) eqn:Hv.
    - destruct v; simpl; split; try done; by intros [_ ?].
    - simpl. split; [done|by intros [? _]]. }
  split; [|split].
  2:{ intros v. destruct v as [| |[]|n|s|l]; simpl.
      - split; [by intros [? _]|]. by intros [(n' & ? & _)|?].
      - split; [by intros [? _]|]. by intros [(n' & ? & _)|?].
      - split; [by right|done].
      - split; [by intros [? _]|]. by intros [(n' & ? & _)|?].
      - destruct (Z.eqb_spec n 0) as [->|Hn]; simpl.
        + split; [by intros [? _]|]. by intros [(n' & [= <-] & ?)|?].
        + split; [|done]. intros _. left. by exists n.
      - split; [by intros [_ ?]|]. by intros [(n' & ? & _)|?].
      - split; [by intros [_ ?]|]. by intros [(n' & ? & _)|?]. }
  - rewrite enhanceSearchArgs_eq, !nonempty_length_values, <-!Hspread.
    set (X := if bool_decide (ingredients p ≠ []) then _ else _).
    set (Y := if bool_decide (excludes p ≠ []) then _ else _).
    assert (X = None ↔ ingredients p ≠ [] ∧
              spread (js_or (prop args "must_include") (VArr [])) = None) as HX.
    { unfold X. case_bool_decide; [tauto|]. split; [done|tauto]. }
    assert (Y = None ↔ excludes p ≠ [] ∧
              spread (js_or (prop args "must_exclude") (VArr [])) = None) as HY.
    { unfold Y. case_bool_decide; [tauto|]. split; [done|tauto]. }
    rewrite <-HX, <-HY. clearbody X Y. clear HX HY. split.
    + intros [H|(oi & Hoi & H)]%bind_None; [by left|].
      apply bind_None in H as [H|(oe & Hoe & H)]; [by right|].
      cbv zeta in H. discriminate.
    + intros [H|H]; apply bind_None; [by left|].
      destruct X as [oi|]; [|by left]. right. exists oi. split; [done|].
      apply bind_None. by left.
  - intros s out Hs Hne Hing Hout.
    destruct (enhanceSearchArgs_fields _ _ _ Hout)
      as (own_inc & _ & Hinc & _ & _ & _ & Hi & _).
    rewrite nonempty_length_values, bool_decide_eq_true_2 in Hinc, Hi by done.
    rewrite Hi. rewrite Hs in Hinc. unfold js_or in Hinc. simpl in Hinc.
    destruct (String.eqb_spec s ""); [done|]. simpl in Hinc.
    by injection Hinc as <-.
Qed.

Section ClearRestores.
Context {R S : Type}.

(** X20: clearing. Clearing a manager, whatever calls it has served, gives
    back the manager that the constructor made: both collections empty, the
    configuration untouched. *)
Theorem clear_restores_new_manager options ops (c' : CacheManager R S) :
  calls (constructor options) ops = Some c' →
  clear c' = constructor options.
Proof.
  intros Hc. destruct (calls_config _ _ _ Hc) as [He Hm].
  unfold clear. rewrite He, Hm. reflexivity.
Qed.
End ClearRestores.

(** * The further properties at sample data *)

Lemma demo_calls_run :
  calls (constructor (mkOptions None None)) demo_calls = Some demo_after_calls.
Proof. reflexivity. Defined.



Lemma reachable_manager_ok_witness :
  manager_ok demo_after_calls ∧
  cacheExpiry demo_after_calls = 300000 ∧ maxCacheSize demo_after_calls = 1000.
Proof.
  apply (reachable_manager_ok (mkOptions None None) demo_calls demo_after_calls).
  reflexivity.
Defined.

Lemma capacity_bound_from_4_witness :
  recipeCacheSize (getStats demo_after_calls) ≤ 1000 ∧
  searchCacheSize (getStats demo_after_calls) ≤ 1000.
Proof.
  apply (capacity_bound_from_4 (mkOptions None None) demo_calls demo_after_calls).
  - simpl. lia.
  - reflexivity.
Defined.

Lemma no_eviction_below_4_witness :
  ∃ c', setCachedRecipe demo_small 300 3 "Mojito" = Some c' ∧
        recipeCache c' = recipeCache demo_small ++ [(3, mkEntry "Mojito" 300 1)] ∧
        recipeCacheSize (getStats c') = 3.
Proof.
  destruct (proj1 (no_eviction_below_4 demo_small 300 ltac:(simpl; lia)) 3 "Mojito")
    as (c' & Hset & Hm & Hsz).
  exists c'. split_and!; [exact Hset|exact Hm|exact (Hsz eq_refl)].
Defined.

Lemma stats_follow_lookups_witness :
  recipeCacheHits (getStats (getCachedRecipe demo 400 1).2) = 7 + 1 ∧
  recipeCacheHits (getStats (getCachedRecipe demo 1150 1).2) = 7 - 3 ∧
  searchCacheHits (getStats (getCachedSearch demo 400 "gin sour").2) = 2 + 1.
Proof.
  split; [|split].
  - destruct (proj1 (stats_follow_lookups demo 400) 1 (mkEntry "Negroni" 100 3) eq_refl)
      as (Hlive & _).
    apply Hlive. simpl. lia.
  - destruct (proj1 (stats_follow_lookups demo 1150) 1 (mkEntry "Negroni" 100 3) eq_refl)
      as (_ & Hexp & _).
    apply Hexp. simpl. lia.
  - destruct (proj2 (stats_follow_lookups demo 400) "gin sour"
                (mkEntry "2 results" 150 2) eq_refl) as (Hlive & _).
    apply Hlive. simpl. lia.
Defined.

Lemma hits_at_least_size_witness :
  recipeCacheSize (getStats demo_after_calls) ≤ recipeCacheHits (getStats demo_after_calls) ∧
  searchCacheSize (getStats demo_after_calls) ≤ searchCacheHits (getStats demo_after_calls).
Proof.
  apply (hits_at_least_size (mkOptions None None) demo_calls demo_after_calls).
  reflexivity.
Defined.

Lemma nonpositive_ttl_never_hits_witness :
  cacheExpiry (constructor (DetailedRecipe:=string) (MCPResponse:=string)
                 (mkOptions (Some (-1)) None)) = -1 ∧
  ∃ c1, setCachedRecipe demo_stale 10 1 "Negroni" = Some c1 ∧
        (getCachedRecipe c1 10 1).1 = None.
Proof.
  split.
  - apply (proj1 (nonpositive_ttl_never_hits (R:=string) (S:=string)) (-1) None). lia.
  - destruct (proj1 (proj2 (nonpositive_ttl_never_hits (R:=string) (S:=string))
                       demo_stale 10 10 ltac:(simpl; lia) ltac:(lia)) 1 "Negroni")
      as (c1 & Hset & Hget & _).
    exists c1. split; [exact Hset|exact Hget].
Defined.

Lemma parse_without_letters_witness : parse "42 % / 7!" = no_facets.
Proof.
  apply parse_without_letters.
  repeat (apply Forall_cons; split; [reflexivity|]). apply Forall_nil_2.
Defined.

Lemma parse_ignores_case_witness :
  parse "Gin MARTINI, no Lime" = parse "gin martini, NO lime".
Proof. apply parse_ignores_case. reflexivity. Defined.

Lemma ingredients_in_vocabulary_witness :
  "triple sec"
  ∈ ["campari"; "aperol"; "vermouth"; "bitters"; "cointreau"; "triplesec";
     "triple sec"; "chartreuse"; "benedictine"; "maraschino"; "elderflower";
     "stgermain"; "st germain"].
Proof.
  apply (ingredients_in_vocabulary "A dash of Triple-Sec").
  apply (bool_decide_unpack _). vm_compute. exact I.
Defined.

Lemma excludes_are_one_or_two_words_witness :
  ∃ w1 rest,
    chars "sugar  please" = w1 ++ rest ∧
    w1 ≠ [] ∧ Forall (λ c, is_word c = true) w1 ∧
    (rest = [] ∨
     ∃ sp w2, rest = sp ++ w2 ∧
              sp ≠ [] ∧ Forall (λ c, is_space c = true) sp ∧
              w2 ≠ [] ∧ Forall (λ c, is_word c = true) w2) ∧
    toLowerCase (chars "sugar  please") = chars "sugar  please".
Proof.
  apply (excludes_are_one_or_two_words "Sweet, but NO Sugar  please!").
  apply (bool_decide_unpack _). vm_compute. exact I.
Defined.

Lemma parse_facets_in_table_witness :
  "stir" ∈ ["shake"; "stir"; "build"; "muddle"].
Proof.
  apply (proj1 (proj2 (proj2 (proj2 (parse_facets_in_table "gin martini, stirred, easy"))))).
  reflexivity.
Defined.

Lemma bitter_liqueur_sets_bitter_witness :
  "bitter" ∈ flavors (parse "equal parts gin, CAMPARI and vermouth").
Proof.
  apply bitter_liqueur_sets_bitter. left.
  apply (bool_decide_unpack _). vm_compute. exact I.
Defined.

Lemma excluded_flavor_word_sets_flavor_witness :
  "sour" ∈ flavors (parse "a strong drink without lime").
Proof.
  apply (excluded_flavor_word_sets_flavor "a strong drink without lime" "lime" "sour"
           [["sour"]; ["tart"]; ["acidic"]; ["citrus"]; ["lime"]; ["lemon"]] "lime").
  - apply (bool_decide_unpack _). vm_compute. exact I.
  - apply (bool_decide_unpack _). vm_compute. exact I.
  - reflexivity.
  - apply (bool_decide_unpack _). vm_compute. exact I.
  - left. reflexivity.
Defined.

Lemma enhance_ignores_four_facets_witness :
  enhanceSearchArgs demo_args demo_parsed
  = enhanceSearchArgs demo_args
      (mkParsedQuery (Some "light") ["bitter"] (Some "gin") None [] ["campari"]
                     None (Some "easy") (Some "party") (Some "summer")).
Proof. apply enhance_ignores_four_facets; reflexivity. Defined.

Lemma enhance_twice_appends_again_witness :
  ∃ out2,
    enhanceSearchArgs
      (<["must_include" := VArr [VStr "campari"]]>
         (<["preferred_flavors" := VArr [VStr "bitter"]]> demo_args)) demo_parsed
    = Some out2 ∧
    out2 !! "must_include" = Some (VArr [VStr "campari"; VStr "campari"]).
Proof.
  destruct (enhance_twice_appends_again demo_args demo_parsed
              (<["must_include" := VArr [VStr "campari"]]>
                 (<["preferred_flavors" := VArr [VStr "bitter"]]> demo_args))
              eq_refl) as (out2 & Hout2 & _ & Hinc & _).
  exists out2. split; [exact Hout2|].
  destruct Hinc as (own & Hown & Hinc2); [discriminate|].
  rewrite Hinc2. vm_compute in Hown. injection Hown as <-. reflexivity.
Defined.

Lemma enhance_throws_iff_witness :
  enhanceSearchArgs {[ "must_include" := VNum 7 ]} demo_parsed = None.
Proof.
  apply (proj1 (enhance_throws_iff {[ "must_include" := VNum 7 ]} demo_parsed)).
  left. split; [discriminate|]. split; reflexivity.
Defined.

Lemma clear_restores_new_manager_witness :
  clear demo_after_calls = constructor (mkOptions None None).
Proof.
  apply (clear_restores_new_manager (mkOptions None None) demo_calls).
  reflexivity.
Defined.
